(** * Old Time Radio firmware (src/src/main.py): a shallow embedding

    The firmware is a MicroPython program built around module-level
    globals, two files (album_state.txt, schedule.csv), an I2C bus with a
    DS3231 clock and an AT24C32 EEPROM, and a UART link to a DFPlayer.
    The embedding keeps the globals and the devices in one [State] record
    that every operation threads explicitly.  Integers are unbounded, as
    in Python, and are modelled by [Z]; bytes are [Z] in 0..255 (or
    [Byte.byte] for the immutable audio asset); text is [list ascii]. *)

From Stdlib Require Import ZArith Lia List Bool Ascii String.
From Stdlib Require Import Strings.Byte.
From stdpp Require Import base option list gmap sorting.

Local Open Scope Z_scope.

(** ** Text helpers: the Python string operations the firmware uses *)

Abbreviation str := (list ascii).

Definition lit (s : string) : str := list_ascii_of_string s.

Definition ord (c : ascii) : Z := Z.of_N (N_of_ascii c).

(** [str.strip()] with no argument removes the six ASCII white-space
    characters: space, tab, line feed, vertical tab, form feed, carriage
    return. *)
Definition is_space (c : ascii) : bool :=
  let n := ord c in (n =? 32) || ((9 <=? n) && (n <=? 13)).

Fixpoint lstrip (s : str) : str :=
  match s with
  | c :: s' => if is_space c then lstrip s' else s
  | [] => []
  end.

Definition rstrip (s : str) : str := rev (lstrip (rev s)).

Definition strip (s : str) : str := rstrip (lstrip s).

(** [s.split(sep)] for a one-character separator: always at least one
    piece, empty pieces kept. *)
Fixpoint split_on (sep : ascii) (s : str) : list str :=
  match s with
  | [] => [[]]
  | c :: s' =>
      if Ascii.eqb c sep then [] :: split_on sep s'
      else match split_on sep s' with
           | w :: ws => (c :: w) :: ws
           | [] => [[c]]
           end
  end.

(** [sep.join(pieces)]. *)
Fixpoint join (sep : str) (pieces : list str) : str :=
  match pieces with
  | [] => []
  | [p] => p
  | p :: ps => p ++ sep ++ join sep ps
  end.

(** [s.startswith(p)]. *)
Fixpoint startswith (p s : str) : bool :=
  match p, s with
  | [], _ => true
  | _ :: _, [] => false
  | a :: p', b :: s' => Ascii.eqb a b && startswith p' s'
  end.

(** [c in s] for a one-character [c]. *)
Definition contains (c : ascii) (s : str) : bool := existsb (Ascii.eqb c) s.

(** A text file given line by line, each line ended by a line feed. *)
Definition text_lines (ls : list string) : str :=
  concat (map (fun l => lit l ++ ["010"%char]) ls).

(** *** Decimal integers: [int(text)] and ["%d" % n]

    [int] accepts optional surrounding white space, an optional sign and a
    non-empty run of decimal digits, in which a single underscore may
    stand between two digits; anything else is the ValueError the
    callers catch, modelled by [None]. *)
Definition digit_val (c : ascii) : option Z :=
  let n := ord c in
  if (48 <=? n) && (n <=? 57) then Some (n - 48) else None.

Fixpoint parse_digits (acc : Z) (s : str) : option Z :=
  match s with
  | [] => Some acc
  | c :: s' =>
      match digit_val c with
      | Some d => parse_digits (10 * acc + d) s'
      | None =>
          if Ascii.eqb c "_" then
            match s' with
            | c' :: _ =>
                match digit_val c' with
                | Some _ => parse_digits acc s'
                | None => None
                end
            | [] => None
            end
          else None
      end
  end.

Definition parse_unsigned (s : str) : option Z :=
  match s with
  | c :: _ =>
      match digit_val c with
      | Some _ => parse_digits 0 s
      | None => None
      end
  | [] => None
  end.

Definition py_int (s : str) : option Z :=
  match strip s with
  | c :: d =>
      if Ascii.eqb c "-" then Z.opp <$> parse_unsigned d
      else if Ascii.eqb c "+" then parse_unsigned d
      else parse_unsigned (c :: d)
  | [] => None
  end.

Definition digit_char (d : Z) : ascii := ascii_of_N (Z.to_N (48 + d)).

Fixpoint dec_digits (fuel : nat) (n : Z) : str :=
  match fuel with
  | O => []
  | S f => (if n <? 10 then [] else dec_digits f (n / 10)) ++ [digit_char (n mod 10)]
  end.

Definition dec_fuel (n : Z) : nat := S (Z.to_nat (Z.log2 n)).

(** ["%d" % n], also what an f-string prints for an int. *)
Definition str_of_Z (n : Z) : str :=
  if n <? 0 then "-"%char :: dec_digits (dec_fuel (- n)) (- n)
  else dec_digits (dec_fuel n) n.

(** ** Bit and byte helpers *)

Definition byte_ok (b : Z) : bool := (0 <=? b) && (b <=? 255).

(** [bytes([...])] and [bytearray([...])] raise ValueError unless every
    element is in 0..255. *)
Definition py_bytes (l : list Z) : option (list Z) :=
  if forallb byte_ok l then Some l else None.

(** Little-endian packing of [ustruct.pack]: [le_bytes k v] is the [k]
    low bytes of [v]. *)
Fixpoint le_bytes (k : nat) (v : Z) : list Z :=
  match k with
  | O => []
  | S k' => Z.land v 255 :: le_bytes k' (Z.shiftr v 8)
  end.

Fixpoint le_value (l : list Z) : Z :=
  match l with
  | [] => 0
  | b :: l' => b + 256 * le_value l'
  end.

(** [checksum16]: 16-bit additive checksum. *)
Definition checksum16 (data : list Z) : Z :=
  fold_left (fun total b => Z.land (total + b) 65535) data 0.

(** [time.ticks_diff] and [time.ticks_add] of MicroPython: tick counts
    live in 0 .. 2^30 - 1 and differences are taken modulo that period,
    as a signed value. *)
Definition TICKS_PERIOD : Z := 2 ^ 30.

Definition ticks_diff (a b : Z) : Z :=
  (a - b + TICKS_PERIOD / 2) mod TICKS_PERIOD - TICKS_PERIOD / 2.

Definition ticks_add (t d : Z) : Z := (t + d) mod TICKS_PERIOD.

(** ** Configuration constants of main.py *)

Definition DFPLAYER_VOL : Z := 28.
Definition MAX_ALBUM_NUM : Z := 99.
Definition MID : Z := 32768.
Definition RTC_ADDR : Z := 104.
Definition EEPROM_BASE_ADDR : Z := 80.
Definition EEPROM_MAX_ADDR : Z := 87.
Definition EEPROM_PAGE_SIZE : Z := 32.
Definition EEPROM_STATE_ADDR : Z := 0.
Definition EEPROM_SAVE_MIN_MS : Z := 60000.
Definition RTC_SERIAL_SET_MS : Z := 5000.
Definition EEPROM_MAGIC : list Z := [79; 84; 82; 49].
Definition EEPROM_VERSION : Z := 1.
Definition EEPROM_FLAG_RTC_SET : Z := 1.
Definition EEPROM_STRUCT_LEN : Z := 20.

(** ** The machine: module globals and the devices around them *)

(** The DS3231 registers the firmware touches: 0x00..0x06 and the status
    byte 0x0F. *)
Record DS3231 := mkRtc {
  reg_sec : Z; reg_min : Z; reg_hour : Z; reg_dow : Z;
  reg_date : Z; reg_month : Z; reg_year : Z; reg_status : Z
}.

Record datetime := mkDt {
  dt_year : Z; dt_month : Z; dt_day : Z;
  dt_hour : Z; dt_minute : Z; dt_second : Z
}.

(** The first nine fields are the module-level globals ([i2c] is [true]
    when the global holds a bus object, [false] when it is None).  The
    rest is the environment: the two files, the I2C bus ([i2c_fault]
    makes every transfer raise), the clock chip, the EEPROM array (address to
    byte) with the page writes it has received, the frames written to the UART, and
    the reading of [time.ticks_ms()]. *)
Record State := mkState {
  current_album : Z;
  current_track : Z;
  KNOWN_TRACKS : gmap Z Z;
  df_volume : Z;
  ignore_busy_until : Z;
  i2c : bool;
  eeprom_addr : option Z;
  last_eeprom_save_ms : Z;
  eeprom_flags : Z;
  album_file : option str;
  schedule_file : option str;
  schedule_stat : option Z;
  i2c_devices : list Z;
  i2c_fault : bool;
  rtc : DS3231;
  eeprom_mem : Z → Z;
  eeprom_log : list (Z * list Z);
  uart_tx : list (list Z);
  ticks : Z
}.

Definition set_current_album (v : Z) (s : State) : State :=
  {| current_album := v; current_track := current_track s;
     KNOWN_TRACKS := KNOWN_TRACKS s; df_volume := df_volume s;
     ignore_busy_until := ignore_busy_until s; i2c := i2c s;
     eeprom_addr := eeprom_addr s;
     last_eeprom_save_ms := last_eeprom_save_ms s;
     eeprom_flags := eeprom_flags s; album_file := album_file s;
     schedule_file := schedule_file s; schedule_stat := schedule_stat s;
     i2c_devices := i2c_devices s; i2c_fault := i2c_fault s; rtc := rtc s;
     eeprom_mem := eeprom_mem s; eeprom_log := eeprom_log s;
     uart_tx := uart_tx s; ticks := ticks s |}.

Definition set_current_track (v : Z) (s : State) : State :=
  {| current_album := current_album s; current_track := v;
     KNOWN_TRACKS := KNOWN_TRACKS s; df_volume := df_volume s;
     ignore_busy_until := ignore_busy_until s; i2c := i2c s;
     eeprom_addr := eeprom_addr s;
     last_eeprom_save_ms := last_eeprom_save_ms s;
     eeprom_flags := eeprom_flags s; album_file := album_file s;
     schedule_file := schedule_file s; schedule_stat := schedule_stat s;
     i2c_devices := i2c_devices s; i2c_fault := i2c_fault s; rtc := rtc s;
     eeprom_mem := eeprom_mem s; eeprom_log := eeprom_log s;
     uart_tx := uart_tx s; ticks := ticks s |}.

Definition set_KNOWN_TRACKS (v : gmap Z Z) (s : State) : State :=
  {| current_album := current_album s; current_track := current_track s;
     KNOWN_TRACKS := v; df_volume := df_volume s;
     ignore_busy_until := ignore_busy_until s; i2c := i2c s;
     eeprom_addr := eeprom_addr s;
     last_eeprom_save_ms := last_eeprom_save_ms s;
     eeprom_flags := eeprom_flags s; album_file := album_file s;
     schedule_file := schedule_file s; schedule_stat := schedule_stat s;
     i2c_devices := i2c_devices s; i2c_fault := i2c_fault s; rtc := rtc s;
     eeprom_mem := eeprom_mem s; eeprom_log := eeprom_log s;
     uart_tx := uart_tx s; ticks := ticks s |}.

Definition set_ignore_busy_until (v : Z) (s : State) : State :=
  {| current_album := current_album s; current_track := current_track s;
     KNOWN_TRACKS := KNOWN_TRACKS s; df_volume := df_volume s;
     ignore_busy_until := v; i2c := i2c s; eeprom_addr := eeprom_addr s;
     last_eeprom_save_ms := last_eeprom_save_ms s;
     eeprom_flags := eeprom_flags s; album_file := album_file s;
     schedule_file := schedule_file s; schedule_stat := schedule_stat s;
     i2c_devices := i2c_devices s; i2c_fault := i2c_fault s; rtc := rtc s;
     eeprom_mem := eeprom_mem s; eeprom_log := eeprom_log s;
     uart_tx := uart_tx s; ticks := ticks s |}.

Definition set_i2c (v : bool) (s : State) : State :=
  {| current_album := current_album s; current_track := current_track s;
     KNOWN_TRACKS := KNOWN_TRACKS s; df_volume := df_volume s;
     ignore_busy_until := ignore_busy_until s; i2c := v;
     eeprom_addr := eeprom_addr s;
     last_eeprom_save_ms := last_eeprom_save_ms s;
     eeprom_flags := eeprom_flags s; album_file := album_file s;
     schedule_file := schedule_file s; schedule_stat := schedule_stat s;
     i2c_devices := i2c_devices s; i2c_fault := i2c_fault s; rtc := rtc s;
     eeprom_mem := eeprom_mem s; eeprom_log := eeprom_log s;
     uart_tx := uart_tx s; ticks := ticks s |}.

Definition set_eeprom_addr (v : option Z) (s : State) : State :=
  {| current_album := current_album s; current_track := current_track s;
     KNOWN_TRACKS := KNOWN_TRACKS s; df_volume := df_volume s;
     ignore_busy_until := ignore_busy_until s; i2c := i2c s;
     eeprom_addr := v; last_eeprom_save_ms := last_eeprom_save_ms s;
     eeprom_flags := eeprom_flags s; album_file := album_file s;
     schedule_file := schedule_file s; schedule_stat := schedule_stat s;
     i2c_devices := i2c_devices s; i2c_fault := i2c_fault s; rtc := rtc s;
     eeprom_mem := eeprom_mem s; eeprom_log := eeprom_log s;
     uart_tx := uart_tx s; ticks := ticks s |}.

Definition set_last_eeprom_save_ms (v : Z) (s : State) : State :=
  {| current_album := current_album s; current_track := current_track s;
     KNOWN_TRACKS := KNOWN_TRACKS s; df_volume := df_volume s;
     ignore_busy_until := ignore_busy_until s; i2c := i2c s;
     eeprom_addr := eeprom_addr s; last_eeprom_save_ms := v;
     eeprom_flags := eeprom_flags s; album_file := album_file s;
     schedule_file := schedule_file s; schedule_stat := schedule_stat s;
     i2c_devices := i2c_devices s; i2c_fault := i2c_fault s; rtc := rtc s;
     eeprom_mem := eeprom_mem s; eeprom_log := eeprom_log s;
     uart_tx := uart_tx s; ticks := ticks s |}.

Definition set_eeprom_flags (v : Z) (s : State) : State :=
  {| current_album := current_album s; current_track := current_track s;
     KNOWN_TRACKS := KNOWN_TRACKS s; df_volume := df_volume s;
     ignore_busy_until := ignore_busy_until s; i2c := i2c s;
     eeprom_addr := eeprom_addr s;
     last_eeprom_save_ms := last_eeprom_save_ms s; eeprom_flags := v;
     album_file := album_file s; schedule_file := schedule_file s;
     schedule_stat := schedule_stat s; i2c_devices := i2c_devices s;
     i2c_fault := i2c_fault s; rtc := rtc s; eeprom_mem := eeprom_mem s;
     eeprom_log := eeprom_log s; uart_tx := uart_tx s; ticks := ticks s |}.

Definition set_album_file (v : option str) (s : State) : State :=
  {| current_album := current_album s; current_track := current_track s;
     KNOWN_TRACKS := KNOWN_TRACKS s; df_volume := df_volume s;
     ignore_busy_until := ignore_busy_until s; i2c := i2c s;
     eeprom_addr := eeprom_addr s;
     last_eeprom_save_ms := last_eeprom_save_ms s;
     eeprom_flags := eeprom_flags s; album_file := v;
     schedule_file := schedule_file s; schedule_stat := schedule_stat s;
     i2c_devices := i2c_devices s; i2c_fault := i2c_fault s; rtc := rtc s;
     eeprom_mem := eeprom_mem s; eeprom_log := eeprom_log s;
     uart_tx := uart_tx s; ticks := ticks s |}.

Definition set_rtc (v : DS3231) (s : State) : State :=
  {| current_album := current_album s; current_track := current_track s;
     KNOWN_TRACKS := KNOWN_TRACKS s; df_volume := df_volume s;
     ignore_busy_until := ignore_busy_until s; i2c := i2c s;
     eeprom_addr := eeprom_addr s;
     last_eeprom_save_ms := last_eeprom_save_ms s;
     eeprom_flags := eeprom_flags s; album_file := album_file s;
     schedule_file := schedule_file s; schedule_stat := schedule_stat s;
     i2c_devices := i2c_devices s; i2c_fault := i2c_fault s; rtc := v;
     eeprom_mem := eeprom_mem s; eeprom_log := eeprom_log s;
     uart_tx := uart_tx s; ticks := ticks s |}.

Definition set_eeprom_mem (v : Z → Z) (s : State) : State :=
  {| current_album := current_album s; current_track := current_track s;
     KNOWN_TRACKS := KNOWN_TRACKS s; df_volume := df_volume s;
     ignore_busy_until := ignore_busy_until s; i2c := i2c s;
     eeprom_addr := eeprom_addr s;
     last_eeprom_save_ms := last_eeprom_save_ms s;
     eeprom_flags := eeprom_flags s; album_file := album_file s;
     schedule_file := schedule_file s; schedule_stat := schedule_stat s;
     i2c_devices := i2c_devices s; i2c_fault := i2c_fault s; rtc := rtc s;
     eeprom_mem := v; eeprom_log := eeprom_log s; uart_tx := uart_tx s;
     ticks := ticks s |}.

Definition set_eeprom_log (v : list (Z * list Z)) (s : State) : State :=
  {| current_album := current_album s; current_track := current_track s;
     KNOWN_TRACKS := KNOWN_TRACKS s; df_volume := df_volume s;
     ignore_busy_until := ignore_busy_until s; i2c := i2c s;
     eeprom_addr := eeprom_addr s;
     last_eeprom_save_ms := last_eeprom_save_ms s;
     eeprom_flags := eeprom_flags s; album_file := album_file s;
     schedule_file := schedule_file s; schedule_stat := schedule_stat s;
     i2c_devices := i2c_devices s; i2c_fault := i2c_fault s; rtc := rtc s;
     eeprom_mem := eeprom_mem s; eeprom_log := v; uart_tx := uart_tx s;
     ticks := ticks s |}.

Definition set_uart_tx (v : list (list Z)) (s : State) : State :=
  {| current_album := current_album s; current_track := current_track s;
     KNOWN_TRACKS := KNOWN_TRACKS s; df_volume := df_volume s;
     ignore_busy_until := ignore_busy_until s; i2c := i2c s;
     eeprom_addr := eeprom_addr s;
     last_eeprom_save_ms := last_eeprom_save_ms s;
     eeprom_flags := eeprom_flags s; album_file := album_file s;
     schedule_file := schedule_file s; schedule_stat := schedule_stat s;
     i2c_devices := i2c_devices s; i2c_fault := i2c_fault s; rtc := rtc s;
     eeprom_mem := eeprom_mem s; eeprom_log := eeprom_log s; uart_tx := v;
     ticks := ticks s |}.

Definition set_ticks (v : Z) (s : State) : State :=
  {| current_album := current_album s; current_track := current_track s;
     KNOWN_TRACKS := KNOWN_TRACKS s; df_volume := df_volume s;
     ignore_busy_until := ignore_busy_until s; i2c := i2c s;
     eeprom_addr := eeprom_addr s;
     last_eeprom_save_ms := last_eeprom_save_ms s;
     eeprom_flags := eeprom_flags s; album_file := album_file s;
     schedule_file := schedule_file s; schedule_stat := schedule_stat s;
     i2c_devices := i2c_devices s; i2c_fault := i2c_fault s; rtc := rtc s;
     eeprom_mem := eeprom_mem s; eeprom_log := eeprom_log s;
     uart_tx := uart_tx s; ticks := v |}.

Definition set_schedule_file (v : option str) (s : State) : State :=
  mkState (current_album s) (current_track s) (KNOWN_TRACKS s) (df_volume s)
    (ignore_busy_until s) (i2c s) (eeprom_addr s) (last_eeprom_save_ms s)
    (eeprom_flags s) (album_file s) v (schedule_stat s) (i2c_devices s)
    (i2c_fault s) (rtc s) (eeprom_mem s) (eeprom_log s) (uart_tx s) (ticks s).

Definition set_i2c_devices (v : list Z) (s : State) : State :=
  mkState (current_album s) (current_track s) (KNOWN_TRACKS s) (df_volume s)
    (ignore_busy_until s) (i2c s) (eeprom_addr s) (last_eeprom_save_ms s)
    (eeprom_flags s) (album_file s) (schedule_file s) (schedule_stat s) v
    (i2c_fault s) (rtc s) (eeprom_mem s) (eeprom_log s) (uart_tx s) (ticks s).

(** ** RTC (DS3231) and week position *)

Definition bcd_to_int (value : Z) : Z :=
  Z.shiftr value 4 * 10 + Z.land value 15.

Definition int_to_bcd (value : Z) : Z :=
  Z.lor (Z.shiftl (value / 10) 4) (value mod 10).

(** Python indexing of a tuple: negative indices count from the end, and
    anything outside raises IndexError ([None]). *)
Definition py_index {A} (l : list A) (i : Z) : option A :=
  let n := Z.of_nat (length l) in
  if (0 <=? i) && (i <? n) then l !! Z.to_nat i
  else if (- n <=? i) && (i <? 0) then l !! Z.to_nat (n + i)
  else None.

Definition iso_weekday (year month day : Z) : option Z :=
  let t := [0; 3; 2; 5; 0; 3; 5; 1; 4; 6; 2; 4] in
  let y := if month <? 3 then year - 1 else year in
  match py_index t (month - 1) with
  | Some tm =>
      let dow := (y + y / 4 - y / 100 + y / 400 + tm + day) mod 7 in
      Some (if dow =? 0 then 7 else dow)
  | None => None
  end.

Definition seconds_into_week (dt : datetime) : option Z :=
  match iso_weekday (dt_year dt) (dt_month dt) (dt_day dt) with
  | Some dow =>
      Some ((dow - 1) * 86400 + dt_hour dt * 3600 + dt_minute dt * 60
            + dt_second dt)
  | None => None
  end.

(** [detect_eeprom_addr(devices)]: the first address of 0x50..0x57 that
    answered the scan. *)
Definition detect_eeprom_addr (devices : list Z) (s : State) : State :=
  if i2c s then
    set_eeprom_addr
      (List.find (fun addr => existsb (Z.eqb addr) devices)
         (map Z.of_nat (seq (Z.to_nat EEPROM_BASE_ADDR)
                          (Z.to_nat (EEPROM_MAX_ADDR + 1 - EEPROM_BASE_ADDR)))))
      s
  else s.

Definition rtc_init (s : State) : bool * State :=
  if i2c_fault s then (false, set_i2c false s)
  else
    let s1 := set_i2c true s in
    let devices := i2c_devices s1 in
    if existsb (Z.eqb RTC_ADDR) devices
    then (true, detect_eeprom_addr devices s1)
    else (false, set_i2c false s1).

Definition rtc_osf_set (s : State) : bool :=
  if negb (i2c s) then true
  else if i2c_fault s then true
  else negb (Z.land (reg_status (rtc s)) 128 =? 0).

Definition rtc_read_datetime (s : State) : option datetime :=
  if negb (i2c s) then None
  else if i2c_fault s then None
  else
    let data := rtc s in
    let sec := bcd_to_int (Z.land (reg_sec data) 127) in
    let minute := bcd_to_int (Z.land (reg_min data) 127) in
    let hour_raw := reg_hour data in
    let hour :=
      if negb (Z.land hour_raw 64 =? 0) then
        let hour := bcd_to_int (Z.land hour_raw 31) in
        if negb (Z.land hour_raw 32 =? 0)
        then (if negb (hour =? 12) then hour + 12 else hour)
        else (if hour =? 12 then 0 else hour)
      else bcd_to_int (Z.land hour_raw 63) in
    let day := bcd_to_int (Z.land (reg_date data) 63) in
    let month := bcd_to_int (Z.land (reg_month data) 31) in
    let year := 2000 + bcd_to_int (reg_year data) in
    Some (mkDt year month day hour minute sec).

(** [rtc_write_datetime]: the weekday lookup and the [bytes([...])]
    construction sit outside the try block, so an IndexError or a
    ValueError there escapes ([None]); a bus error is caught and gives
    [False]. *)
Definition rtc_write_datetime (dt : datetime) (s : State)
  : option (bool * State) :=
  if negb (i2c s) then Some (false, s)
  else if negb ((2000 <=? dt_year dt) && (dt_year dt <=? 2099))
  then Some (false, s)
  else
    match iso_weekday (dt_year dt) (dt_month dt) (dt_day dt) with
    | None => None
    | Some dow =>
        match py_bytes [int_to_bcd (dt_second dt); int_to_bcd (dt_minute dt);
                        int_to_bcd (dt_hour dt); int_to_bcd dow;
                        int_to_bcd (dt_day dt); int_to_bcd (dt_month dt);
                        int_to_bcd (dt_year dt - 2000)] with
        | Some [b0; b1; b2; b3; b4; b5; b6] =>
            if i2c_fault s then Some (false, s)
            else
              let status := reg_status (rtc s) in
              Some (true,
                    set_rtc (mkRtc b0 b1 b2 b3 b4 b5 b6 (Z.land status 127)) s)
        | _ => None
        end
    end.

(** ** The AT24C32 EEPROM *)

Definition bus_ready (s : State) : bool :=
  i2c s && bool_decide (eeprom_addr s ≠ None).

Definition eeprom_read (addr length : Z) (s : State) : option (list Z) :=
  if negb (bus_ready s) then None
  else if i2c_fault s then None
  else Some (map (fun k => eeprom_mem s (addr + Z.of_nat k))
               (seq 0 (Z.to_nat length))).

(** Storing [chunk] at byte address [a] of the array. *)
Definition mem_store (a : Z) (chunk : list Z) (mem : Z → Z) : Z → Z :=
  fun x =>
    if a <=? x then
      match chunk !! Z.to_nat (x - a) with
      | Some b => b
      | None => mem x
      end
    else mem x.

(** One I2C page write: the two header bytes carry the 16-bit byte
    address, the data lands there. *)
Definition eeprom_page_write (a : Z) (chunk : list Z) (s : State) : State :=
  let a16 := Z.lor (Z.shiftl (Z.land (Z.shiftr a 8) 255) 8) (Z.land a 255) in
  set_eeprom_log (eeprom_log s ++ [(a16, chunk)])
    (set_eeprom_mem (mem_store a16 chunk (eeprom_mem s)) s).

(** The chunking loop of [eeprom_write].  Every pass consumes at least
    one byte, so [length payload] passes are enough. *)
Fixpoint eeprom_write_loop (fuel : nat) (addr offset : Z) (payload : list Z)
  (s : State) : State :=
  match fuel with
  | O => s
  | S fuel' =>
      let total := Z.of_nat (length payload) in
      if offset <? total then
        let page_off := (addr + offset) mod EEPROM_PAGE_SIZE in
        let chunk := Z.min (EEPROM_PAGE_SIZE - page_off) (total - offset) in
        let bytes := take (Z.to_nat chunk) (drop (Z.to_nat offset) payload) in
        eeprom_write_loop fuel' addr (offset + chunk) payload
          (eeprom_page_write (addr + offset) bytes s)
      else s
  end.

Definition eeprom_write (addr : Z) (payload : list Z) (s : State)
  : bool * State :=
  if negb (bus_ready s) then (false, s)
  else if i2c_fault s then (false, s)
  else (true, eeprom_write_loop (length payload) addr 0 payload s).

Definition get_schedule_checksum (s : State) : Z :=
  match schedule_file s with
  | Some f => checksum16 (map ord f)
  | None => 0
  end.

Definition get_schedule_mtime (s : State) : Z :=
  match schedule_stat s with
  | Some m => m
  | None => 0
  end.

Record EepromRecord := mkRec {
  rec_flags : Z; rec_album : Z; rec_track : Z;
  rec_schedule_checksum : Z; rec_schedule_mtime : Z; rec_week_seconds : Z
}.

(** [ustruct.pack("<4sBBBBHIIH", ...)] with the trailing crc field. *)
Definition pack_record (flags album track sched_sum sched_mtime week_sec crc : Z)
  : list Z :=
  EEPROM_MAGIC ++ [EEPROM_VERSION; flags; album; track]
  ++ le_bytes 2 sched_sum ++ le_bytes 4 sched_mtime ++ le_bytes 4 week_sec
  ++ le_bytes 2 crc.

(** What [eeprom_save_state] hands to [eeprom_write]. *)
Definition eeprom_payload (flags album track sched_sum sched_mtime week_sec : Z)
  : list Z :=
  let payload :=
    pack_record (Z.land flags 255) (Z.land album 255) (Z.land track 255)
      (Z.land sched_sum 65535) (Z.land sched_mtime 4294967295)
      (Z.land week_sec 4294967295) 0 in
  let body := take (length payload - 2)%nat payload in
  body ++ le_bytes 2 (checksum16 body).

(** The validation of [eeprom_load_state] on the bytes read: the pattern
    is the length test and the unpacking in one. *)
Definition eeprom_decode (raw : list Z) : option EepromRecord :=
  match raw with
  | [m0; m1; m2; m3; version; flags; album; track; s0; s1;
     t0; t1; t2; t3; w0; w1; w2; w3; c0; c1] =>
      if negb (bool_decide ([m0; m1; m2; m3] = EEPROM_MAGIC)
               && (version =? EEPROM_VERSION))
      then None
      else if negb (checksum16 (take (length raw - 2)%nat raw)
                    =? le_value [c0; c1])
      then None
      else Some (mkRec flags album track (le_value [s0; s1])
                   (le_value [t0; t1; t2; t3]) (le_value [w0; w1; w2; w3]))
  | _ => None
  end.

Definition eeprom_load_state (s : State) : option EepromRecord :=
  if negb (bus_ready s) then None
  else
    match eeprom_read EEPROM_STATE_ADDR EEPROM_STRUCT_LEN s with
    | Some raw => eeprom_decode raw
    | None => None
    end.

(** [eeprom_save_state]: [None] is the IndexError that
    [seconds_into_week] lets through when the clock chip holds no
    calendar month. *)
Definition eeprom_save_state (flags album track : Z) (s : State)
  : option (bool * State) :=
  if negb (bus_ready s) then Some (false, s)
  else
    let now := ticks s in
    if negb (last_eeprom_save_ms s =? 0)
       && (ticks_diff now (last_eeprom_save_ms s) <? EEPROM_SAVE_MIN_MS)
    then Some (false, s)
    else
      let sched_sum := get_schedule_checksum s in
      let sched_mtime := get_schedule_mtime s in
      let week :=
        match rtc_read_datetime s with
        | Some dt => seconds_into_week dt
        | None => Some 0
        end in
      match week with
      | None => None
      | Some week_sec =>
          let payload :=
            eeprom_payload flags album track sched_sum sched_mtime week_sec in
          match eeprom_write EEPROM_STATE_ADDR payload s with
          | (true, s') => Some (true, set_last_eeprom_save_ms now s')
          | (false, s') => Some (false, s')
          end
      end.

(** ** Schedule file *)

Definition parse_duration (value0 : str) : option Z :=
  let value := strip value0 in
  if contains ":" value then
    match mapM py_int (split_on ":" value) with
    | Some [m; sec] => Some (m * 60 + sec)
    | Some [h; m; sec] => Some (h * 3600 + m * 60 + sec)
    | _ => None
    end
  else py_int value.

Definition parse_schedule_line (line : str) : option (Z * Z * Z) :=
  let raw := strip line in
  match raw with
  | [] => None
  | _ =>
      if startswith (lit "#") raw then None
      else
        let raw :=
          if contains "#" raw then strip (hd [] (split_on "#" raw)) else raw in
        match raw with
        | [] => None
        | _ =>
            match map strip (split_on "," raw) with
            | p0 :: p1 :: p2 :: _ =>
                match py_int p0, py_int p1 with
                | Some folder, Some track =>
                    match parse_duration p2 with
                    | None => None
                    | Some duration =>
                        if duration <=? 0 then None
                        else if (folder <? 1) || (track <? 1) then None
                        else Some (folder, track, duration)
                    end
                | _, _ => None
                end
            | _ => None
            end
        end
  end.

(** Iterating over a text file: pieces end after each line feed, which
    they keep; a final piece without line feed is yielded when non-empty. *)
Fixpoint file_lines_from (cur : str) (s : str) : list str :=
  match s with
  | [] => match cur with [] => [] | _ => [rev cur] end
  | c :: s' =>
      if Ascii.eqb c "010" then rev (c :: cur) :: file_lines_from [] s'
      else file_lines_from (c :: cur) s'
  end.

Definition file_lines (s : str) : list str := file_lines_from [] s.

Abbreviation scan_acc := (option (Z * Z) * gmap Z Z * Z)%type.

(** The body of the [for line in f] loop of [scan_schedule]. *)
Definition scan_step (target_sec : Z) (acc : scan_acc) (line : str) : scan_acc :=
  let '(found, folder_counts, total) := acc in
  match parse_schedule_line line with
  | None => acc
  | Some (folder, track, duration) =>
      if folder >? MAX_ALBUM_NUM then acc
      else
        let found :=
          match found with
          | None =>
              if target_sec <? total + duration then Some (folder, track)
              else None
          | Some _ => found
          end in
        let prev := default 0 (folder_counts !! folder) in
        let folder_counts :=
          if track >? prev then <[folder := track]> folder_counts
          else folder_counts in
        (found, folder_counts, total + duration)
  end.

Definition scan_lines (target_sec : Z) (lines : list str) : scan_acc :=
  fold_left (scan_step target_sec) lines (None, ∅, 0).

Definition scan_schedule (target_sec : Z) (s : State) : scan_acc :=
  match schedule_file s with
  | Some f => scan_lines target_sec (file_lines f)
  | None => (None, ∅, 0)
  end.

Definition find_track_for_time (target_sec : Z) (s : State) : scan_acc :=
  let '(found, counts, total) := scan_schedule target_sec s in
  if total <=? 0 then (None, ∅, 0)
  else
    match found with
    | None =>
        let wrapped := target_sec mod total in
        let '(found, _, _) := scan_schedule wrapped s in
        (found, counts, total)
    | Some _ => (found, counts, total)
    end.

(** ** Album state save / load (the primary store)

    The file system of the board is taken as reliable: a write to
    album_state.txt succeeds, and a read fails only when the file is not
    there. *)

Definition pair_le (x y : Z * Z) : Prop :=
  x.1 < y.1 ∨ (x.1 = y.1 ∧ x.2 ≤ y.2).

#[global] Instance pair_le_dec : RelDecision pair_le.
Proof. intros x y. unfold pair_le. apply _. Defined.

(** [sorted(KNOWN_TRACKS.items())]. *)
Definition sorted_items (m : gmap Z Z) : list (Z * Z) :=
  merge_sort pair_le (map_to_list m).

Definition format_pair (p : Z * Z) : str :=
  str_of_Z p.1 ++ lit ":" ++ str_of_Z p.2.

Definition state_payload (album track : Z) (known : gmap Z Z) : str :=
  str_of_Z album ++ lit "," ++ str_of_Z track ++ lit ";tracks="
  ++ join (lit ",") (map format_pair (sorted_items known)).

(** [save_state(reason)]; the reason is only printed.  An exception out
    of [eeprom_save_state] is caught after the file has been written. *)
Definition save_state (s : State) : State :=
  let payload :=
    state_payload (current_album s) (current_track s) (KNOWN_TRACKS s) in
  let s1 := set_album_file (Some payload) s in
  match eeprom_save_state (eeprom_flags s1) (current_album s1)
          (current_track s1) s1 with
  | Some (_, s2) => s2
  | None => s1
  end.

(** The loop [for pair in track_part.split(",")] of [load_state]. *)
Fixpoint load_pairs (pairs : list str) (known : gmap Z Z) : option (gmap Z Z) :=
  match pairs with
  | [] => Some known
  | [] :: rest => load_pairs rest known
  | pr :: rest =>
      match split_on ":" pr with
      | [a; c] =>
          match py_int a, py_int c with
          | Some a, Some c => load_pairs rest (<[a := c]> known)
          | _, _ => None
          end
      | _ => None
      end
  end.

(** The try block of [load_state] on the text read; [None] is any of the
    exceptions it can raise. *)
Definition parse_state (text : str) : option (Z * Z * gmap Z Z) :=
  let raw := strip text in
  match split_on ";" raw with
  | [] => None
  | p0 :: rest =>
      match split_on "," p0 with
      | [a_str; t_str] =>
          match py_int a_str, py_int t_str with
          | Some album, Some track =>
              let known :=
                match rest with
                | p1 :: _ =>
                    if startswith (lit "tracks=") p1 then
                      match drop 7 p1 with
                      | [] => Some ∅
                      | track_part => load_pairs (split_on "," track_part) ∅
                      end
                    else Some ∅
                | [] => Some ∅
                end in
              match known with
              | Some known => Some (album, track, known)
              | None => None
              end
          | _, _ => None
          end
      | _ => None
      end
  end.

Definition set_position (album track : Z) (known : gmap Z Z) (s : State)
  : State :=
  set_KNOWN_TRACKS known (set_current_track track (set_current_album album s)).

Definition load_state (s : State) : bool * State :=
  match album_file s with
  | Some text =>
      match parse_state text with
      | Some (album, track, known) => (true, set_position album track known s)
      | None => (false, set_position 1 1 ∅ s)
      end
  | None => (false, set_position 1 1 ∅ s)
  end.

(** ** Schedule alignment *)

(** [align_to_time(reason)]: [None] is the uncaught IndexError of
    [seconds_into_week]. *)
Definition align_to_time (s : State) : option (bool * State) :=
  match rtc_read_datetime s with
  | None => Some (false, s)
  | Some dt =>
      match seconds_into_week dt with
      | None => None
      | Some target =>
          let '(found, counts, total) := find_track_for_time target s in
          match found with
          | None => Some (false, s)
          | Some (album, track) =>
              let s1 := set_current_track track (set_current_album album s) in
              let s2 :=
                if bool_decide (counts = ∅) then s1
                else set_KNOWN_TRACKS counts s1 in
              Some (true, save_state s2)
          end
      end
  end.

(** ** DFPlayer helpers *)

(** The frame [df_send] builds.  [bytearray([...])] raises ValueError
    when [cmd] is not a byte ([None]). *)
Definition df_packet (cmd p1 p2 : Z) : option (list Z) :=
  match py_bytes [126; 255; 6; cmd; 0; Z.land p1 255; Z.land p2 255] with
  | Some pkt =>
      let csum := Z.land (- fold_right Z.add 0 (take 6 (drop 1 pkt))) 65535 in
      Some (pkt ++ [Z.land (Z.shiftr csum 8) 255; Z.land csum 255; 239])
  | None => None
  end.

(** [df_send]: the frame goes out on the UART.  The four callers pass the
    constant commands 0x3F, 0x06, 0x0F and 0x16, for which a frame always
    exists. *)
Definition df_send (cmd p1 p2 : Z) (s : State) : State :=
  match df_packet cmd p1 p2 with
  | Some pkt => set_uart_tx (uart_tx s ++ [pkt]) s
  | None => s
  end.

Definition df_reset (s : State) : State := df_send 63 0 0 s.

Definition df_set_vol (v : Z) (s : State) : State :=
  df_send 6 0 (Z.max 0 (Z.min 30 v)) s.

Definition df_play_folder_track (folder track : Z) (s : State) : State :=
  df_send 15 folder track s.

Definition df_stop (s : State) : State := df_send 22 0 0 s.

(** ** BUSY confirmation and learning *)

Definition note_track_learned (album track : Z) (s : State) : State :=
  let prev := default 0 (KNOWN_TRACKS s !! album) in
  if track >? prev
  then save_state (set_KNOWN_TRACKS (<[album := track]> (KNOWN_TRACKS s)) s)
  else s.

(** [play_current(label)].  [busy_low] is what [wait_for_busy_low()]
    answers: whether the BUSY line was seen low inside the confirm
    window.  The time the two sends, the guard pause and the wait take
    is not added to the tick counter: [ignore_busy_until] is 2000 ms
    after the counter as the caller left it. *)
Definition play_current (busy_low : bool) (s : State) : bool * State :=
  let s1 := df_play_folder_track (current_album s) (current_track s) (df_stop s) in
  if busy_low then
    let s2 := note_track_learned (current_album s1) (current_track s1) s1 in
    (true, set_ignore_busy_until (ticks_add (ticks s2) 2000) s2)
  else (false, s1).

(** [play_am_and_fade_df_confirming], seen from the main flow: STOP and
    PLAY go out, then one volume frame per fade step.  The levels of the
    steps depend on float arithmetic and on when the sample interrupt
    finishes, so they are an input ([fade]), as is the answer. *)
Definition play_am_and_fade_df_confirming (folder track : Z) (fade : list Z)
  (confirmed : bool) (s : State) : bool * State :=
  let s1 := df_play_folder_track folder track (df_stop s) in
  (confirmed, fold_left (fun st v => df_set_vol v st) fade s1).

Definition start_sequence_synced (fade : list Z) (confirmed second : bool)
  (s : State) : State :=
  let s1 := df_set_vol 0 (df_reset s) in
  let '(confirmed, s2) :=
    play_am_and_fade_df_confirming (current_album s1) (current_track s1)
      fade confirmed s1 in
  if confirmed then
    save_state (note_track_learned (current_album s2) (current_track s2) s2)
  else
    let s3 := df_set_vol (df_volume s2) (df_reset s2) in
    let s4 :=
      df_play_folder_track (current_album s3) (current_track s3) (df_stop s3) in
    if second then
      save_state (note_track_learned (current_album s4) (current_track s4) s4)
    else s4.

(** ** Button and BUSY loop: the position transitions

    Each function is one branch of the [while True] loop; the booleans
    are the answers of the successive [play_current] calls. *)

(** Release after a long press: next album. *)
Definition long_press (c1 c2 : bool) (s : State) : State :=
  let candidate := current_album s + 1 in
  let candidate := if candidate >? MAX_ALBUM_NUM then 1 else candidate in
  let s1 := save_state (set_current_track 1 (set_current_album candidate s)) in
  let '(ok, s2) := play_current c1 s1 in
  if negb ok then
    let s3 := save_state (set_current_track 1 (set_current_album 1 s2)) in
    snd (play_current c2 s3)
  else s2.

(** The probe / extend / wrap logic shared by the single tap and the
    automatic advance. *)
Definition next_track (max_known : Z) (c1 c2 : bool) (s : State) : State :=
  let candidate := current_track s + 1 in
  if candidate <=? max_known then
    snd (play_current c1 (save_state (set_current_track candidate s)))
  else
    let '(ok, s1) := play_current c1 (set_current_track candidate s) in
    if negb ok then
      snd (play_current c2 (save_state (set_current_track 1 s1)))
    else save_state s1.

Definition max_known_of (s : State) : Z :=
  default (Z.max (current_track s) 1) (KNOWN_TRACKS s !! current_album s).

(** The decision taken once the tap window has elapsed with
    [tap_count > 0]. *)
Definition taps_decided (tap_count : Z) (c1 c2 : bool) (s : State) : State :=
  let max_known := max_known_of s in
  if tap_count >=? 3 then
    snd (play_current c1 (save_state (set_current_track 1 s)))
  else if tap_count =? 2 then
    let max_known := if max_known <? 1 then 1 else max_known in
    let track := current_track s - 1 in
    let track := if track <? 1 then max_known else track in
    snd (play_current c1 (save_state (set_current_track track s)))
  else next_track max_known c1 c2 s.

(** BUSY rising edge outside the ignore window, power rail on. *)
Definition auto_advance (c1 c2 : bool) (s : State) : State :=
  next_track (max_known_of s) c1 c2 s.

(** ** Time bootstrap over the serial channel *)

Definition upper_char (c : ascii) : ascii :=
  let n := ord c in
  if (97 <=? n) && (n <=? 122) then ascii_of_N (Z.to_N (n - 32)) else c.

(** [s.split()] with no argument: runs of white space separate, no empty
    piece is produced. *)
Fixpoint split_ws_from (cur : str) (s : str) : list str :=
  match s with
  | [] => match cur with [] => [] | _ => [rev cur] end
  | c :: s' =>
      if is_space c then
        match cur with
        | [] => split_ws_from [] s'
        | _ => rev cur :: split_ws_from [] s'
        end
      else split_ws_from (c :: cur) s'
  end.

Definition split_ws (s : str) : list str := split_ws_from [] s.

Definition in_range (lo v hi : Z) : bool := (lo <=? v) && (v <=? hi).

Definition parse_datetime_line (line : str) : option datetime :=
  match line with
  | [] => None
  | _ =>
      let raw := strip line in
      let raw :=
        if startswith (lit "SET") (map upper_char raw) then
          let raw := strip (drop 3 raw) in
          if startswith (lit "=") raw then strip (drop 1 raw) else raw
        else raw in
      let raw := map (fun c => if Ascii.eqb c "T" then " "%char else c) raw in
      match split_ws raw with
      | [] => None
      | date_part :: more =>
          let time_part := match more with t :: _ => t | [] => lit "00:00:00" end in
          let sep := if contains "-" date_part then "-"%char else "/"%char in
          match split_on sep date_part with
          | [y; m; d] =>
              match py_int y, py_int m, py_int d with
              | Some year, Some month, Some day =>
                  let hms :=
                    match split_on ":" time_part with
                    | [h; mi] =>
                        match py_int h, py_int mi with
                        | Some hour, Some minute => Some (hour, minute, 0)
                        | _, _ => None
                        end
                    | [h; mi; se] =>
                        match py_int h, py_int mi, py_int se with
                        | Some hour, Some minute, Some second =>
                            Some (hour, minute, second)
                        | _, _, _ => None
                        end
                    | _ => None
                    end in
                  match hms with
                  | Some (hour, minute, second) =>
                      if negb (in_range 2000 year 2099) then None
                      else if negb (in_range 1 month 12 && in_range 1 day 31)
                      then None
                      else if negb (in_range 0 hour 23 && in_range 0 minute 59
                                    && in_range 0 second 59)
                      then None
                      else Some (mkDt year month day hour minute second)
                  | None => None
                  end
              | _, _, _ => None
              end
          | _ => None
          end
      end
  end.

Definition RTC_BOOTSTRAP_TIME : option datetime := None.
Definition RTC_FORCE_BOOTSTRAP : bool := false.

(** The three places of [maybe_set_rtc] that record a freshly set clock. *)
Definition rtc_was_set (s : State) : option (bool * State) :=
  let s1 := set_eeprom_flags (Z.lor (eeprom_flags s) EEPROM_FLAG_RTC_SET) s in
  match eeprom_save_state (eeprom_flags s1) (current_album s1)
          (current_track s1) s1 with
  | Some (_, s2) => Some (true, s2)
  | None => None
  end.

(** [maybe_set_rtc(force_serial)].  [line] is what [read_serial_line]
    returns inside its window (None on silence). *)
Definition maybe_set_rtc (force_serial : bool) (line : option str) (s : State)
  : option (bool * State) :=
  if negb (i2c s) then Some (false, s)
  else
    let forced :=
      match RTC_FORCE_BOOTSTRAP, RTC_BOOTSTRAP_TIME with
      | true, Some t =>
          match rtc_write_datetime t s with
          | Some (true, s1) => Some (inl s1)
          | Some (false, s1) => Some (inr s1)
          | None => None
          end
      | _, _ => Some (inr s)
      end in
    match forced with
    | None => None
    | Some (inl s1) => rtc_was_set s1
    | Some (inr s1) =>
        let osf := rtc_osf_set s1 in
        let boot_osf :=
          match osf, RTC_BOOTSTRAP_TIME with
          | true, Some t =>
              match rtc_write_datetime t s1 with
              | Some (true, s2) => Some (inl s2)
              | Some (false, s2) => Some (inr s2)
              | None => None
              end
          | _, _ => Some (inr s1)
          end in
        match boot_osf with
        | None => None
        | Some (inl s2) => rtc_was_set s2
        | Some (inr s2) =>
            if (RTC_SERIAL_SET_MS >? 0) && (force_serial || osf) then
              match line with
              | Some (c :: l) =>
                  match parse_datetime_line (c :: l) with
                  | Some dt =>
                      match rtc_write_datetime dt s2 with
                      | Some (true, s3) => rtc_was_set s3
                      | Some (false, s3) => Some (false, s3)
                      | None => None
                      end
                  | None => Some (false, s2)
                  end
              | _ => Some (false, s2)
              end
            else Some (false, s2)
        end
    end.

(** ** Main boot logic, up to the start sequence

    [button_held] is [button.value() == 0] at boot, [line] the serial
    input, and [elapsed] the milliseconds that pass between the clock
    bootstrap and the alignment.  [None] is an uncaught exception, which
    ends the program. *)
Definition advance_ticks (d : Z) (s : State) : State :=
  set_ticks (ticks_add (ticks s) d) s.

(** From [load_state()] to the end of the [if rtc_init():] block: whether
    the primary store was loaded, whether [align_to_time] answered True,
    and the machine at that point. *)
Definition boot_until_alignment (button_held : bool) (line : option str)
  (elapsed : Z) (s : State) : option (bool * bool * State) :=
  let '(loaded_file, s1) := load_state s in
  let '(rtc_ok, s2) := rtc_init s1 in
  if rtc_ok then
    match maybe_set_rtc button_held line s2 with
    | Some (_, s3) =>
        match align_to_time (advance_ticks elapsed s3) with
        | Some (aligned, s4) => Some (loaded_file, aligned, s4)
        | None => None
        end
    | None => None
    end
  else Some (loaded_file, false, s2).

(** The [saved = eeprom_load_state()] block that follows. *)
Definition boot_eeprom_fallback (loaded_file : bool) (s : State) : State :=
  match eeprom_load_state s with
  | Some saved =>
      let s1 := set_eeprom_flags (Z.land (rec_flags saved) 255) s in
      if negb loaded_file then
        set_current_track (Z.max 1 (rec_track saved))
          (set_current_album (Z.max 1 (rec_album saved)) s1)
      else s1
  | None => s
  end.

(** The machine as it enters [start_sequence_synced()]. *)
Definition boot (button_held : bool) (line : option str) (elapsed : Z)
  (s : State) : option State :=
  match boot_until_alignment button_held line elapsed s with
  | Some (loaded_file, _, s1) => Some (boot_eeprom_fallback loaded_file s1)
  | None => None
  end.

(** Power-sense edges in the loop ([ALIGN_ON_POWER_ON] is True). *)
Definition power_off (s : State) : State := df_stop (save_state s).

Definition power_on (fade : list Z) (confirmed second : bool) (s : State)
  : option State :=
  match align_to_time (save_state s) with
  | Some (_, s1) => Some (start_sequence_synced fade confirmed second s1)
  | None => None
  end.

(** ** PWM sample engine *)

(** [scale = int(256 * VOLUME)] with [VOLUME = 1.0]. *)
Definition scale : Z := 256.

Definition lut : list Z :=
  map (fun i => Z.max 0 (Z.min 65535 (MID + (Z.of_nat i - 128) * scale)))
    (seq 0 256).

(** The dict [state] shared between [isr_cb] and the main flow. *)
Record IsrState := mkIsr {
  isr_idx : Z; isr_n : Z; isr_done : bool; fade_out_samples : Z
}.

(** Arming: [fo] is [int(SR * fade_out_s)], capped at the asset length. *)
Definition arm (data : list byte) (fo : Z) : IsrState :=
  let n := Z.of_nat (length data) in
  mkIsr 0 n false (if fo >? n then n else fo).

(** One timer callback: the duty written to the PWM and the next state.
    [None] is an IndexError. *)
Definition isr_cb (data : list byte) (st : IsrState) : option (Z * IsrState) :=
  let idx := isr_idx st in
  let n := isr_n st in
  if idx >=? n then Some (MID, mkIsr idx n true (fade_out_samples st))
  else
    match py_index data idx with
    | None => None
    | Some sample =>
        match py_index lut (Z.of_N (Byte.to_N sample)) with
        | None => None
        | Some raw_duty =>
            let fo2 := fade_out_samples st in
            let duty :=
              if (fo2 >? 0) && (idx >=? n - fo2) then
                let into := idx - (n - fo2) in
                let remaining := fo2 - into in
                let remaining := if remaining <? 0 then 0 else remaining in
                let scale_val := (remaining * 256) / fo2 in
                MID + ((raw_duty - MID) * scale_val) / 256
              else raw_duty in
            Some (duty, mkIsr (idx + 1) n (isr_done st) fo2)
        end
    end.

(** [k] consecutive callbacks: the duties written, oldest first. *)
Fixpoint isr_run (data : list byte) (k : nat) (st : IsrState)
  : option (list Z * IsrState) :=
  match k with
  | O => Some ([], st)
  | S k' =>
      match isr_cb data st with
      | Some (duty, st1) =>
          match isr_run data k' st1 with
          | Some (duties, st2) => Some (duty :: duties, st2)
          | None => None
          end
      | None => None
      end
  end.

(** ** Volume pot *)

Definition POT_UPDATE_MS : Z := 150.

Definition POT_DEADBAND : Z := 1.

Definition set_df_volume (v : Z) (s : State) : State :=
  mkState (current_album s) (current_track s) (KNOWN_TRACKS s) v
    (ignore_busy_until s) (i2c s) (eeprom_addr s) (last_eeprom_save_ms s)
    (eeprom_flags s) (album_file s) (schedule_file s) (schedule_stat s)
    (i2c_devices s) (i2c_fault s) (rtc s) (eeprom_mem s) (eeprom_log s)
    (uart_tx s) (ticks s).

(** [update_volume_from_pot()] as the loop calls it ([force] False).
    [POT_ENABLED] is True, so [pot_adc] is there, and [fade_active] is
    False outside [play_am_and_fade_df_confirming].  [now] is the clock
    reading, [target] what [pot_target_volume()] returns (float
    arithmetic on the ADC value, an input here), [last] the global
    [last_pot_update_ms]; the result carries its new value. *)
Definition update_volume_from_pot (now target last : Z) (s : State)
  : Z * State :=
  if ticks_diff now last <? POT_UPDATE_MS then (last, s)
  else if Z.abs (target - df_volume s) >=? POT_DEADBAND then
    (now, df_set_vol target (set_df_volume target s))
  else (now, s).

(** ** Button and BUSY loop: one pass *)

Definition LONG_PRESS_MS : Z := 1000.

Definition TAP_WINDOW_MS : Z := 800.

(** The variables of the loop, with the global [last_pot_update_ms]. *)
Record Loop := mkLoop {
  tap_count : Z;
  press_start : Z;
  last_button : Z;
  last_release_time : Z;
  prev_busy : Z;
  last_sense : Z;
  rail2_on : bool;
  last_pot_update_ms : Z
}.

(** What one pass reads from outside: the pins, the clock (each reading
    is what the tick counter shows from then on), the answers of the
    [play_current] calls of each branch, the course of a start sequence
    and the pot. *)
Record LoopIn := mkIn {
  in_button : Z;
  in_now : Z;
  in_busy : Z;
  in_now_ts : Z;
  in_sense : Z;
  in_long : bool * bool;
  in_taps : bool * bool;
  in_auto : bool * bool;
  in_fade : list Z;
  in_confirmed : bool;
  in_second : bool;
  in_pot_now : Z;
  in_pot : Z
}.

(** The variables before the first pass. *)
Definition loop_init (busy sense : Z) : Loop :=
  mkLoop 0 0 1 0 busy sense (sense =? 1) 0.

(** Steps 1 and 2: press edge, release edge. *)
Definition button_step (i : LoopIn) (l : Loop) (s : State) : Loop * State :=
  let curr := in_button i in
  let now := in_now i in
  if (last_button l =? 1) && (curr =? 0) then
    (mkLoop (tap_count l) now (last_button l) (last_release_time l)
       (prev_busy l) (last_sense l) (rail2_on l) (last_pot_update_ms l), s)
  else if (last_button l =? 0) && (curr =? 1) then
    let press_dur := ticks_diff now (press_start l) in
    if press_dur >=? LONG_PRESS_MS then
      (mkLoop 0 (press_start l) (last_button l) 0
         (prev_busy l) (last_sense l) (rail2_on l) (last_pot_update_ms l),
       long_press (in_long i).1 (in_long i).2 s)
    else
      (mkLoop (tap_count l + 1) (press_start l) (last_button l) now
         (prev_busy l) (last_sense l) (rail2_on l) (last_pot_update_ms l), s)
  else (l, s).

(** Step 3: the decision after the quiet period. *)
Definition taps_step (i : LoopIn) (l : Loop) (s : State) : Loop * State :=
  if (tap_count l >? 0)
     && (ticks_diff (in_now i) (last_release_time l) >=? TAP_WINDOW_MS)
  then
    (mkLoop 0 (press_start l) (last_button l) 0
       (prev_busy l) (last_sense l) (rail2_on l) (last_pot_update_ms l),
     taps_decided (tap_count l) (in_taps i).1 (in_taps i).2 s)
  else (l, s).

(** Step 4: the BUSY edge 0 -> 1. *)
Definition busy_step (i : LoopIn) (l : Loop) (s : State) : Loop * State :=
  if rail2_on l then
    let b := in_busy i in
    let s1 := set_ticks (in_now_ts i) s in
    let s2 :=
      if ticks_diff (in_now_ts i) (ignore_busy_until s1) >=? 0 then
        if (prev_busy l =? 0) && (b =? 1) then
          auto_advance (in_auto i).1 (in_auto i).2 s1
        else s1
      else s1 in
    (mkLoop (tap_count l) (press_start l) (last_button l) (last_release_time l)
       b (last_sense l) (rail2_on l) (last_pot_update_ms l), s2)
  else (l, s).

(** Step 5: the power-sense line.  [None] is the exception [power_on]
    lets through. *)
Definition sense_step (i : LoopIn) (l : Loop) (s : State)
  : option (Loop * State) :=
  let sense := in_sense i in
  if sense =? last_sense l then Some (l, s)
  else if sense =? 0 then
    Some (mkLoop (tap_count l) (press_start l) (last_button l)
            (last_release_time l) (prev_busy l) sense false
            (last_pot_update_ms l),
          power_off s)
  else
    match power_on (in_fade i) (in_confirmed i) (in_second i) s with
    | Some s' =>
        Some (mkLoop (tap_count l) (press_start l) (last_button l)
                (last_release_time l) (prev_busy l) sense true
                (last_pot_update_ms l), s')
    | None => None
    end.

(** One pass of [while True]. *)
Definition loop_pass (i : LoopIn) (ls : Loop * State) : option (Loop * State) :=
  let '(l, s) := ls in
  let '(l, s) := button_step i l (set_ticks (in_now i) s) in
  let '(l, s) := taps_step i l s in
  let '(l, s) := busy_step i l s in
  match sense_step i l s with
  | None => None
  | Some (l, s) =>
      let '(last, s) :=
        update_volume_from_pot (in_pot_now i) (in_pot i) (last_pot_update_ms l)
          (set_ticks (in_pot_now i) s) in
      Some (mkLoop (tap_count l) (press_start l) (in_button i)
              (last_release_time l) (prev_busy l) (last_sense l) (rail2_on l)
              last, s)
  end.

(** The loop over a sequence of passes. *)
Fixpoint loop_run (inputs : list LoopIn) (ls : Loop * State)
  : option (Loop * State) :=
  match inputs with
  | [] => Some ls
  | i :: rest =>
      match loop_pass i ls with
      | Some ls' => loop_run rest ls'
      | None => None
      end
  end.

(** ** WAV loader

    The file is the list of its bytes.  An exception of [load_wav_u8]
    (the ValueErrors it raises itself, and the one [ustruct.unpack]
    raises on a buffer of the wrong size) is [None]. *)
Definition byte_val (b : byte) : Z := Z.of_N (Byte.to_N b).

Fixpoint bytes_eqb (a b : list byte) : bool :=
  match a, b with
  | [], [] => true
  | x :: a', y :: b' => Byte.eqb x y && bytes_eqb a' b'
  | _, _ => false
  end.

(** [f.read(k)] at offset [pos]: the bytes there are, at most [k], and
    the offset after them. *)
Definition f_read (file : list byte) (pos k : nat) : list byte * nat :=
  let got := take k (drop pos file) in (got, (pos + length got)%nat).

(** [ustruct.unpack("<H", b)[0]] for [k = 2] and [("<I", b)] for
    [k = 4]. *)
Definition unpack_le (k : nat) (b : list byte) : option Z :=
  if Nat.eqb (length b) k then Some (le_value (map byte_val b)) else None.

(** [b[i:j]]. *)
Definition slice (i j : nat) (b : list byte) : list byte :=
  take (j - i) (drop i b).

(** The [while True] loop over the chunks.  A pass that does not raise
    consumes eight bytes at least, so [length file] passes and one more
    are enough; [f.seek(clen, 1)] may move past the end, after which
    [f.read] returns nothing. *)
Fixpoint wav_chunks (fuel : nat) (file : list byte) (pos : nat)
  (samplerate : Z) (fmt_ok : bool) : option (list byte * Z) :=
  match fuel with
  | O => None
  | S fuel' =>
      let '(cid, pos) := f_read file pos 4 in
      match cid with
      | [] => None
      | _ =>
          let '(lenb, pos) := f_read file pos 4 in
          match unpack_le 4 lenb with
          | None => None
          | Some clen =>
              if bytes_eqb cid (list_byte_of_string "fmt ") then
                let '(fmt, pos) := f_read file pos (Z.to_nat clen) in
                match unpack_le 2 (slice 0 2 fmt), unpack_le 2 (slice 2 4 fmt),
                      unpack_le 4 (slice 4 8 fmt), unpack_le 2 (slice 14 16 fmt)
                with
                | Some audio_format, Some channels, Some rate, Some bits =>
                    if negb (audio_format =? 1) || negb (channels =? 1)
                       || negb (bits =? 8)
                    then None
                    else wav_chunks fuel' file pos rate true
                | _, _, _, _ => None
                end
              else if bytes_eqb cid (list_byte_of_string "data") then
                if negb fmt_ok then None
                else Some ((f_read file pos (Z.to_nat clen)).1, samplerate)
              else wav_chunks fuel' file (pos + Z.to_nat clen)%nat samplerate fmt_ok
          end
      end
  end.

(** [load_wav_u8(path)] on the content of the file: the samples and the
    sample rate. *)
Definition load_wav_u8 (file : list byte) : option (list byte * Z) :=
  let '(riff, pos) := f_read file 0 4 in
  if negb (bytes_eqb riff (list_byte_of_string "RIFF")) then None
  else
    let '(_, pos) := f_read file pos 4 in
    let '(wave, pos) := f_read file pos 4 in
    if negb (bytes_eqb wave (list_byte_of_string "WAVE")) then None
    else wav_chunks (S (length file)) file pos 8000 false.

(** ** Vocabulary of the properties *)

Definition zsum (l : list Z) : Z := fold_right Z.add 0 l.

(** The record that [eeprom_save_state] stores, as [eeprom_load_state]
    reports it. *)
Definition saved_record (flags album track sched_sum sched_mtime week_sec : Z)
  : EepromRecord :=
  mkRec (Z.land flags 255) (Z.land album 255) (Z.land track 255)
    (Z.land sched_sum 65535) (Z.land sched_mtime 4294967295)
    (Z.land week_sec 4294967295).

(** The 18 bytes in front of the crc. *)
Definition payload_body (flags album track sched_sum sched_mtime week_sec : Z)
  : list Z :=
  EEPROM_MAGIC ++ [EEPROM_VERSION; Z.land flags 255; Z.land album 255;
                   Z.land track 255]
  ++ le_bytes 2 (Z.land sched_sum 65535)
  ++ le_bytes 4 (Z.land sched_mtime 4294967295)
  ++ le_bytes 4 (Z.land week_sec 4294967295).

(** Overwriting one byte of the array. *)
Definition mem_poke (addr v : Z) (mem : Z → Z) : Z → Z :=
  fun x => if x =? addr then v else mem x.

(** The week position [eeprom_save_state] stores. *)
Definition week_reading (s : State) : Z :=
  match rtc_read_datetime s with
  | Some dt => default 0 (seconds_into_week dt)
  | None => 0
  end.

Definition mem_bytes (mem : Z → Z) (addr : Z) (n : nat) : list Z :=
  map (fun k => mem (addr + Z.of_nat k)) (seq 0 n).

(** The part of the machine that the EEPROM driver never touches. *)
Definition same_player (s s' : State) : Prop :=
  current_album s' = current_album s ∧ current_track s' = current_track s
  ∧ KNOWN_TRACKS s' = KNOWN_TRACKS s ∧ uart_tx s' = uart_tx s
  ∧ album_file s' = album_file s ∧ eeprom_flags s' = eeprom_flags s
  ∧ ignore_busy_until s' = ignore_busy_until s.

(** What navigation is about: position, known bounds, frames sent. *)
Definition view (s : State) : Z * Z * gmap Z Z * list (list Z) :=
  (current_album s, current_track s, KNOWN_TRACKS s, uart_tx s).

Definition frame (cmd p1 p2 : Z) : list Z := default [] (df_packet cmd p1 p2).

Definition learn (album track : Z) (K : gmap Z Z) : gmap Z Z :=
  if track >? default 0 (K !! album) then <[album := track]> K else K.

(** The machine right after the module-level assignments, with nothing
    on the bus and no files. *)
Definition power_up : State :=
  mkState 1 1 ∅ DFPLAYER_VOL 0 false None 0 0 None None None [] false
    (mkRtc 0 0 0 1 1 1 0 0) (fun _ => 255) [] [] 0.

(** The clock chip answers with a calendar month (or not at all). *)
Definition clock_month_ok (s : State) : Prop :=
  match rtc_read_datetime s with
  | Some dt => 1 ≤ dt_month dt ≤ 12
  | None => True
  end.

(** A radio with clock module and EEPROM at 0x57, already initialised. *)
Definition with_bus (s : State) : State :=
  set_eeprom_addr (Some 87) (set_i2c true s).

(** Last EEPROM write at tick 1000, now tick 60500. *)
Definition rate_limit_scene : State :=
  set_ticks 60500 (set_last_eeprom_save_ms 1000 (with_bus power_up)).

(** [KNOWN_TRACKS.get(album, 0)]. *)
Definition known_bound (album : Z) (s : State) : Z :=
  default 0 (KNOWN_TRACKS s !! album).

(** The events of a session that move the position without consulting
    the clock. *)
Inductive nav_event :=
| Learned (album track : Z)
| LongPress (c1 c2 : bool)
| Taps (tap_count : Z) (c1 c2 : bool)
| AutoAdvance (c1 c2 : bool)
| PowerOff
| StartSequence (fade : list Z) (confirmed second : bool).

Definition nav_step (e : nav_event) (s : State) : State :=
  match e with
  | Learned album track => note_track_learned album track s
  | LongPress c1 c2 => long_press c1 c2 s
  | Taps tap_count c1 c2 => taps_decided tap_count c1 c2 s
  | AutoAdvance c1 c2 => auto_advance c1 c2 s
  | PowerOff => power_off s
  | StartSequence fade confirmed second =>
      start_sequence_synced fade confirmed second s
  end.

Definition nav_run (events : list nav_event) (s : State) : State :=
  fold_left (fun st e => nav_step e st) events s.


(** Characters of a printed integer: digits and the minus sign. *)
Definition is_num_char (c : ascii) : bool :=
  let n := ord c in ((48 <=? n) && (n <=? 57)) || (n =? 45).

Definition is_digit_char (c : ascii) : bool :=
  let n := ord c in (48 <=? n) && (n <=? 57).

Definition lacks (sep : ascii) (s : str) : Prop :=
  Forall (fun c => Ascii.eqb c sep = false) s.

(** [KNOWN_TRACKS[a] = c] for a pair [(a, c)]. *)
Definition insert_pair (m : gmap Z Z) (p : Z * Z) : gmap Z Z := <[p.1 := p.2]> m.

(** First power-up of a radio whose clock has never been set: no
    album_state.txt, a two-entry schedule, clock module and EEPROM on the
    bus, the oscillator-stop flag raised, an older record (album 7,
    track 9) in the EEPROM, tick counter at 5000. *)
Definition first_boot_scene : State :=
  set_ticks 5000
    (set_eeprom_mem (mem_store 0 (eeprom_payload 0 7 9 0 0 0) (fun _ => 255))
       (set_rtc (mkRtc 0 0 0 1 1 1 0 128)
          (set_i2c_devices [87; 104]
             (set_schedule_file (Some (text_lines ["2,1,300"; "3,4,600"]%string)) power_up)))).

Definition first_boot_line : option str := Some (lit "SET 2026-01-05 00:10:00").

Definition position (s : State) : Z * Z := (current_album s, current_track s).

(** A week-long schedule of two entries. *)
Definition two_entry_schedule : State :=
  set_schedule_file (Some (text_lines ["2,1,300"; "3,4,600"]%string)) power_up.

(** A schedule file in which no line is a valid entry, clock module
    present. *)
Definition empty_schedule_scene : State :=
  with_bus (set_schedule_file (Some (text_lines ["# week 12"; "3,4,0"; "7,1"; ""; "99x,1,30"]%string)) power_up).

(** Album 3 known up to track 10, and a schedule that only ever plays
    tracks 1 and 2 of it. *)
Definition realign_scene : State :=
  with_bus
    (set_schedule_file (Some (text_lines ["3,1,302400"; "3,2,302400"]%string))
       (set_position 3 7 {[3 := 10]} power_up)).


Definition duty_ok (d : Z) : Prop := 0 ≤ d ≤ 65535.

Definition isr_inv (data : list byte) (st : IsrState) : Prop :=
  isr_n st = Z.of_nat (length data) ∧ 0 ≤ isr_idx st.

(** What one callback writes: the midpoint at the end of the asset,
    otherwise a value between the midpoint and the table entry. *)
Definition isr_write_ok (st : IsrState) (duty : Z) : Prop :=
  if isr_idx st >=? isr_n st then duty = MID
  else ∃ raw_duty, raw_duty ∈ lut ∧ Z.min MID raw_duty ≤ duty ≤ Z.max MID raw_duty.

(** The fields [parse_datetime_line] lets through. *)
Definition datetime_ok (dt : datetime) : Prop :=
  2000 ≤ dt_year dt ≤ 2099 ∧ 1 ≤ dt_month dt ≤ 12 ∧ 1 ≤ dt_day dt ≤ 31
  ∧ 0 ≤ dt_hour dt ≤ 23 ∧ 0 ≤ dt_minute dt ≤ 59 ∧ 0 ≤ dt_second dt ≤ 59.

(** What the clock and its readers depend on. *)
Definition same_clock (s s' : State) : Prop :=
  rtc s' = rtc s ∧ i2c s' = i2c s ∧ i2c_fault s' = i2c_fault s.

(** A page write that stays inside one 32-byte page of the array. *)
Definition page_ok (w : Z * list Z) : Prop :=
  w.2 ≠ [] ∧ w.1 / EEPROM_PAGE_SIZE
             = (w.1 + Z.of_nat (length w.2) - 1) / EEPROM_PAGE_SIZE.

(** Page writes that follow one another from address [a] on. *)
Fixpoint contiguous (a : Z) (ws : list (Z * list Z)) : Prop :=
  match ws with
  | [] => True
  | w :: rest => w.1 = a ∧ contiguous (a + Z.of_nat (length w.2)) rest
  end.

(** The entries [scan_schedule] accounts for, in file order. *)
Definition valid_entries (lines : list str) : list (Z * Z * Z) :=
  omap (fun line =>
          match parse_schedule_line line with
          | Some (folder, track, duration) =>
              if folder >? MAX_ALBUM_NUM then None
              else Some (folder, track, duration)
          | None => None
          end) lines.

Definition schedule_entries (s : State) : list (Z * Z * Z) :=
  match schedule_file s with
  | Some f => valid_entries (file_lines f)
  | None => []
  end.

Definition durations (entries : list (Z * Z * Z)) : Z :=
  zsum (map snd entries).

(** What one valid entry does to the accumulators of [scan_schedule]. *)
Definition scan_entry (target_sec : Z) (acc : scan_acc) (e : Z * Z * Z)
  : scan_acc :=
  let '(found, folder_counts, total) := acc in
  let '(folder, track, duration) := e in
  (match found with
   | None => if target_sec <? total + duration then Some (folder, track) else None
   | Some _ => found
   end,
   if track >? default 0 (folder_counts !! folder)
   then <[folder := track]> folder_counts else folder_counts,
   total + duration).

(** A frame the decoder accepts from this firmware: start 7E, version
    FF, length 06, one of the four commands used, no feedback, two
    parameter bytes, a two-byte checksum that makes bytes 1..8 sum to
    zero modulo 2^16, end EF; a volume frame carries a level 0..30. *)
Definition frame_ok (pkt : list Z) : bool :=
  match pkt with
  | [start; ver; len; cmd; fb; a; b; hi; lo; stop] =>
      (start =? 126) && (ver =? 255) && (len =? 6) && (fb =? 0) && (stop =? 239)
      && forallb byte_ok [cmd; a; b; hi; lo]
      && ((ver + len + cmd + fb + a + b + 256 * hi + lo) mod 65536 =? 0)
      && existsb (Z.eqb cmd) [63; 6; 15; 22]
      && (if cmd =? 6 then (a =? 0) && (b <=? 30) else true)
  | _ => false
  end.

(** The frames sent between two states are all well-formed. *)
Definition sends_ok (s s' : State) : Prop :=
  ∃ l, uart_tx s' = uart_tx s ++ l ∧ Forall (fun p => frame_ok p = true) l.

(** The primary store holds the position and the known tracks of the
    globals. *)
Definition synced (s : State) : Prop :=
  album_file s
  = Some (state_payload (current_album s) (current_track s) (KNOWN_TRACKS s)).

Definition position_ok (s : State) : Prop :=
  1 ≤ current_album s ≤ MAX_ALBUM_NUM ∧ 1 ≤ current_track s.

(** Events whose code path always ends after a [save_state]. *)
Definition saves (e : nav_event) : bool :=
  match e with
  | LongPress _ _ | Taps _ _ _ | AutoAdvance _ _ | PowerOff => true
  | Learned _ _ | StartSequence _ _ _ => false
  end.

(** The part of the machine a listener can tell: where the player is
    and what it has learned. *)
Definition player (s : State) : Z * Z * gmap Z Z :=
  (current_album s, current_track s, KNOWN_TRACKS s).

(** No 0 -> 1 transition of BUSY is seen by this pass. *)
Definition no_busy_edge (i : LoopIn) (l : Loop) : Prop :=
  rail2_on l = false ∨ prev_busy l ≠ 0 ∨ in_busy i ≠ 1.

(** A pass script: button down at 100 ms, up at 350 ms, quiet until
    1200 ms, the decoder playing throughout and the pot at rest. *)
Definition one_tap_script : list LoopIn :=
  map (fun '(button, now) =>
         mkIn button now 0 now 1 (true, true) (true, false) (true, true)
           [] true true now 28)
      [(0, 100); (1, 350); (1, 700); (1, 1200)].

(** What a pass may do to the machine, as far as the three invariants
    go. *)
Definition keeps (s s' : State) : Prop :=
  (position_ok s → position_ok s') ∧ sends_ok s s' ∧ (synced s → synced s').

Definition riff_id : list byte := list_byte_of_string "RIFF".

Definition wave_id : list byte := list_byte_of_string "WAVE".

Definition fmt_id : list byte := list_byte_of_string "fmt ".

Definition data_id : list byte := list_byte_of_string "data".

(** A format block that announces PCM, one channel, eight bits per
    sample, at [rate] samples per second. *)
Definition pcm_mono_8 (fmt : list byte) (rate : Z) : Prop :=
  unpack_le 2 (slice 0 2 fmt) = Some 1
  ∧ unpack_le 2 (slice 2 4 fmt) = Some 1
  ∧ unpack_le 4 (slice 4 8 fmt) = Some rate
  ∧ unpack_le 2 (slice 14 16 fmt) = Some 8.

(** A chunk the loader steps over: identifier, length field, body. *)
Definition other_chunk (c : list byte * list byte * list byte) : Prop :=
  length c.1.1 = 4%nat ∧ c.1.1 ≠ fmt_id ∧ c.1.1 ≠ data_id
  ∧ unpack_le 4 c.1.2 = Some (Z.of_nat (length c.2)).

Definition chunk_bytes (c : list byte * list byte * list byte) : list byte :=
  c.1.1 ++ c.1.2 ++ c.2.

(** A 48-byte file: 8000 Hz, mono, 8 bits, four samples. *)
Definition tiny_wav : list byte :=
  riff_id ++ [x28; x00; x00; x00] ++ wave_id
  ++ fmt_id ++ [x10; x00; x00; x00]
  ++ [x01; x00; x01; x00; x40; x1f; x00; x00; x40; x1f; x00; x00;
      x01; x00; x08; x00]
  ++ data_id ++ [x04; x00; x00; x00] ++ [x80; x82; x7e; x80].

(** * Properties *)

(** ** Checksums and the EEPROM record *)

Lemma land_65535 x : Z.land x 65535 = x mod 65536.
Proof. change 65535 with (Z.ones 16). rewrite Z.land_ones by lia. reflexivity. Qed.

Lemma land_255 x : Z.land x 255 = x mod 256.
Proof. change 255 with (Z.ones 8). rewrite Z.land_ones by lia. reflexivity. Qed.

Lemma land_255_byte x : 0 ≤ Z.land x 255 ≤ 255.
Proof. rewrite land_255. pose proof (Z.mod_pos_bound x 256). lia. Qed.

Lemma checksum16_from (l : list Z) : ∀ a,
  0 ≤ a < 65536 →
  fold_left (fun total b => Z.land (total + b) 65535) l a = (a + zsum l) mod 65536.
Proof.
  induction l as [| b l IH]; intros a Ha; simpl.
  - rewrite Z.add_0_r, Z.mod_small; lia.
  - rewrite IH by (rewrite land_65535; apply Z.mod_pos_bound; lia).
    rewrite land_65535, Zplus_mod_idemp_l. f_equal. lia.
Qed.

Lemma checksum16_sum (l : list Z) : checksum16 l = zsum l mod 65536.
Proof. unfold checksum16. rewrite checksum16_from by lia. reflexivity. Qed.

Lemma checksum16_range l : 0 ≤ checksum16 l < 65536.
Proof. rewrite checksum16_sum. apply Z.mod_pos_bound. lia. Qed.

Lemma zsum_insert (l : list Z) : ∀ (i : nat) old v,
  l !! i = Some old → zsum (<[i := v]> l) = zsum l - old + v.
Proof.
  induction l as [| b l IH]; intros [| i] old v H; simpl in *; try discriminate.
  - injection H as ->. lia.
  - rewrite (IH _ _ _ H). lia.
Qed.

(** Changing one byte of the data changes its checksum. *)
Lemma checksum16_insert_ne (l : list Z) (i : nat) old v :
  l !! i = Some old → 0 ≤ old ≤ 255 → 0 ≤ v ≤ 255 → v ≠ old →
  checksum16 (<[i := v]> l) ≠ checksum16 l.
Proof.
  intros Hl Ho Hv Hne. rewrite !checksum16_sum, (zsum_insert _ _ _ _ Hl).
  intros Heq.
  assert (Hd : (v - old) mod 65536 = 0).
  { replace (v - old) with ((zsum l - old + v) - zsum l) by lia.
    rewrite Zminus_mod, Heq, Z.sub_diag. reflexivity. }
  apply Z.mod_divide in Hd; [| lia]. destruct Hd as [q Hq]. lia.
Qed.

Lemma le_value_le_bytes (k : nat) : ∀ v,
  le_value (le_bytes k v) = v mod 2 ^ (8 * Z.of_nat k).
Proof.
  induction k as [| k IH]; intros v.
  - simpl. rewrite Z.mod_1_r. reflexivity.
  - cbn [le_bytes le_value]. rewrite IH, land_255, Z.shiftr_div_pow2 by lia.
    replace (8 * Z.of_nat (S k)) with (8 + 8 * Z.of_nat k) by lia.
    rewrite Z.pow_add_r by lia. change (2 ^ 8) with 256.
    rewrite Z.rem_mul_r by lia. reflexivity.
Qed.

Lemma le_bytes_are_bytes k : ∀ v, Forall (fun b => 0 ≤ b ≤ 255) (le_bytes k v).
Proof.
  induction k; intros v; simpl; constructor; auto using land_255_byte.
Qed.

Lemma le_value_2 c :
  0 ≤ c < 65536 → le_value [Z.land c 255; Z.land (Z.shiftr c 8) 255] = c.
Proof.
  intros Hc. change (le_value (le_bytes 2 c) = c).
  rewrite le_value_le_bytes. apply Z.mod_small. simpl. lia.
Qed.

Lemma le_value_4 c :
  0 ≤ c < 4294967296 →
  le_value [Z.land c 255; Z.land (Z.shiftr c 8) 255;
            Z.land (Z.shiftr (Z.shiftr c 8) 8) 255;
            Z.land (Z.shiftr (Z.shiftr (Z.shiftr c 8) 8) 8) 255] = c.
Proof.
  intros Hc. change (le_value (le_bytes 4 c) = c).
  rewrite le_value_le_bytes. apply Z.mod_small. simpl. lia.
Qed.

Lemma land_ones_range x n : 0 ≤ n → 0 ≤ Z.land x (Z.ones n) < 2 ^ n.
Proof. intros Hn. rewrite Z.land_ones by lia. apply Z.mod_pos_bound. lia. Qed.

Lemma eeprom_payload_split f a t ss mt ws :
  eeprom_payload f a t ss mt ws
  = payload_body f a t ss mt ws
    ++ le_bytes 2 (checksum16 (payload_body f a t ss mt ws)).
Proof. reflexivity. Qed.

Lemma payload_body_bytes f a t ss mt ws :
  Forall (fun b => 0 ≤ b ≤ 255) (payload_body f a t ss mt ws).
Proof.
  unfold payload_body, EEPROM_MAGIC, EEPROM_VERSION.
  repeat (apply Forall_app; split);
    auto using le_bytes_are_bytes;
    repeat (constructor; [first [apply land_255_byte | lia] |]); constructor.
Qed.

Lemma eeprom_decode_payload f a t ss mt ws :
  eeprom_decode (eeprom_payload f a t ss mt ws) = Some (saved_record f a t ss mt ws).
Proof.
  rewrite eeprom_payload_split.
  set (crc := checksum16 (payload_body f a t ss mt ws)).
  assert (Hcrc : 0 ≤ crc < 65536) by apply checksum16_range.
  assert (Hbody : take 18 (payload_body f a t ss mt ws ++ le_bytes 2 crc)
                  = payload_body f a t ss mt ws) by reflexivity.
  revert Hbody. unfold payload_body, EEPROM_MAGIC, EEPROM_VERSION.
  cbn [app le_bytes]. intros Hbody.
  unfold eeprom_decode. cbn [length Nat.sub]. rewrite Hbody.
  fold EEPROM_MAGIC. rewrite bool_decide_eq_true_2 by reflexivity.
  change (1 =? EEPROM_VERSION) with true. cbn [andb negb].
  fold (payload_body f a t ss mt ws) in crc. 
  change (checksum16 _) with crc at 1.
  rewrite (le_value_2 crc Hcrc), Z.eqb_refl. cbn [negb].
  unfold saved_record. f_equal. f_equal.
  - apply le_value_2. change 65535 with (Z.ones 16). apply land_ones_range. lia.
  - apply le_value_4. change 4294967295 with (Z.ones 32). apply land_ones_range. lia.
  - apply le_value_4. change 4294967295 with (Z.ones 32). apply land_ones_range. lia.
Qed.

Lemma eeprom_decode_altered f a t ss mt ws (i : nat) (v : Z) :
  (i < 18)%nat → 0 ≤ v ≤ 255 →
  eeprom_payload f a t ss mt ws !! i ≠ Some v →
  eeprom_decode (<[i := v]> (eeprom_payload f a t ss mt ws)) = None.
Proof.
  intros Hi Hv Hne.
  rewrite eeprom_payload_split in *.
  set (body := payload_body f a t ss mt ws) in *.
  set (crc := checksum16 body) in *.
  assert (Hcrc : 0 ≤ crc < 65536) by apply checksum16_range.
  assert (Hlen : length body = 18%nat) by reflexivity.
  assert (Hold : ∃ old, body !! i = Some old ∧ 0 ≤ old ≤ 255 ∧ v ≠ old).
  { destruct (lookup_lt_is_Some_2 body i) as [old Ho]; [lia |].
    exists old. split; [exact Ho |]. split.
    - pose proof (payload_body_bytes f a t ss mt ws) as Hb.
      rewrite Forall_forall in Hb. apply Hb. eapply list_elem_of_lookup_2; eauto.
    - intros ->. apply Hne. rewrite lookup_app_l by lia. exact Ho. }
  destruct Hold as (old & Ho & Hob & Hvo).
  pose proof (checksum16_insert_ne body i old v Ho Hob Hv Hvo) as Hsum.
  fold crc in Hsum.
  rewrite insert_app_l by lia.
  assert (Htake : take 18 (<[i := v]> body ++ le_bytes 2 crc) = <[i := v]> body).
  { rewrite take_app_length'; [reflexivity |]. rewrite length_insert. exact Hlen. }
  assert (Hl2 : length (<[i := v]> body ++ le_bytes 2 crc) = 20%nat).
  { rewrite length_app, length_insert, Hlen. reflexivity. }
  unfold eeprom_decode.
  destruct (<[i := v]> body ++ le_bytes 2 crc) as [|m0 [|m1 [|m2 [|m3 [|ver [|fl [|al [|tr
    [|s0 [|s1 [|t0 [|t1 [|t2 [|t3 [|w0 [|w1 [|w2 [|w3 [|c0 [|c1 [|x rest]]]]]]]]]]]]]]]]]]]]]
    eqn:Hraw; try reflexivity.
  cbn [length Nat.sub]. rewrite Htake.
  assert (Hc : le_value [c0; c1] = crc).
  { assert (Hd : drop 18 ([m0; m1; m2; m3; ver; fl; al; tr; s0; s1; t0; t1; t2; t3;
                           w0; w1; w2; w3; c0; c1]) = le_bytes 2 crc).
    { rewrite <- Hraw. rewrite drop_app_length'; [reflexivity |].
      rewrite length_insert. exact Hlen. }
    cbn [drop le_bytes] in Hd. injection Hd as -> ->. apply le_value_2. exact Hcrc. }
  rewrite Hc.
  destruct (checksum16 (<[i := v]> body) =? crc) eqn:Heq.
  { apply Z.eqb_eq in Heq. contradiction. }
  cbn [negb]. destruct (negb _); reflexivity.
Qed.

Lemma mem_bytes_lookup mem addr n (i : nat) :
  (i < n)%nat → mem_bytes mem addr n !! i = Some (mem (addr + Z.of_nat i)).
Proof.
  intros Hi. unfold mem_bytes.
  change (map ?f ?l) with (f <$> l).
  rewrite list_lookup_fmap, lookup_seq_lt by lia. reflexivity.
Qed.

Lemma mem_bytes_length mem addr n : length (mem_bytes mem addr n) = n.
Proof. unfold mem_bytes. rewrite length_map, length_seq. reflexivity. Qed.

Lemma mem_store_read a chunk mem :
  mem_bytes (mem_store a chunk mem) a (length chunk) = chunk.
Proof.
  apply list_eq. intros i.
  destruct (decide (i < length chunk)%nat) as [Hi | Hi].
  - rewrite mem_bytes_lookup by lia. unfold mem_store.
    replace (a <=? a + Z.of_nat i) with true by (symmetry; apply Z.leb_le; lia).
    replace (Z.to_nat (a + Z.of_nat i - a)) with i by lia.
    destruct (lookup_lt_is_Some_2 chunk i Hi) as [b Hb]. rewrite Hb. reflexivity.
  - rewrite !lookup_ge_None_2; [reflexivity | lia |].
    rewrite mem_bytes_length. lia.
Qed.

Lemma mem_poke_read mem a n (i : nat) v :
  (i < n)%nat →
  mem_bytes (mem_poke (a + Z.of_nat i) v mem) a n = <[i := v]> (mem_bytes mem a n).
Proof.
  intros Hi. apply list_eq. intros j.
  destruct (decide (j < n)%nat) as [Hj | Hj].
  - rewrite mem_bytes_lookup by lia. unfold mem_poke.
    destruct (decide (j = i)) as [-> | Hji].
    + rewrite Z.eqb_refl, list_lookup_insert_eq; [reflexivity |].
      rewrite mem_bytes_length. lia.
    + replace (a + Z.of_nat j =? a + Z.of_nat i) with false
        by (symmetry; apply Z.eqb_neq; lia).
      rewrite list_lookup_insert_ne by congruence.
      rewrite mem_bytes_lookup by lia. reflexivity.
  - rewrite !lookup_ge_None_2; [reflexivity | |].
    + rewrite length_insert, mem_bytes_length. lia.
    + rewrite mem_bytes_length. lia.
Qed.

Lemma eeprom_write_loop_done fuel addr offset payload s :
  Z.of_nat (length payload) ≤ offset →
  eeprom_write_loop fuel addr offset payload s = s.
Proof.
  intros Hdone. destruct fuel as [| fuel]; [reflexivity |].
  cbn [eeprom_write_loop].
  replace (offset <? Z.of_nat (length payload)) with false
    by (symmetry; apply Z.ltb_ge; exact Hdone).
  reflexivity.
Qed.

Lemma eeprom_write_loop_first_page fuel payload s :
  length payload = 20%nat →
  eeprom_write_loop (S fuel) EEPROM_STATE_ADDR 0 payload s
  = eeprom_page_write 0 payload s.
Proof.
  intros Hlen. cbn [eeprom_write_loop]. rewrite Hlen.
  change (0 <? Z.of_nat 20) with true. cbv iota.
  change ((EEPROM_STATE_ADDR + 0) mod EEPROM_PAGE_SIZE) with 0.
  change (Z.min (EEPROM_PAGE_SIZE - 0) (Z.of_nat 20 - 0)) with 20.
  change (Z.to_nat 20) with 20%nat. change (Z.to_nat 0) with 0%nat.
  rewrite drop_0, <- Hlen, firstn_all.
  apply eeprom_write_loop_done. lia.
Qed.

Lemma eeprom_write_loop_one_page payload s :
  length payload = 20%nat →
  eeprom_write_loop (length payload) EEPROM_STATE_ADDR 0 payload s
  = eeprom_page_write 0 payload s.
Proof.
  intros Hlen. rewrite Hlen at 1. apply eeprom_write_loop_first_page. exact Hlen.
Qed.

Lemma eeprom_payload_length f a t ss mt ws :
  length (eeprom_payload f a t ss mt ws) = 20%nat.
Proof. reflexivity. Qed.

(** What a successful [eeprom_save_state] leaves behind. *)
Lemma eeprom_save_state_written flags album track s s' :
  eeprom_save_state flags album track s = Some (true, s') →
  bus_ready s' = true ∧ i2c_fault s' = false
  ∧ mem_bytes (eeprom_mem s') 0 20
    = eeprom_payload flags album track (get_schedule_checksum s)
        (get_schedule_mtime s) (week_reading s).
Proof.
  unfold eeprom_save_state, week_reading.
  destruct (bus_ready s) eqn:Hbus; cbn [negb]; [| intros [=]].
  destruct (negb (last_eeprom_save_ms s =? 0)
            && (ticks_diff (ticks s) (last_eeprom_save_ms s) <? EEPROM_SAVE_MIN_MS));
    [intros [=] |].
  destruct (rtc_read_datetime s) as [dt |].
  - destruct (seconds_into_week dt) as [week |]; [| intros [=]]. cbn [default].
    unfold eeprom_write. rewrite Hbus. cbn [negb].
    destruct (i2c_fault s) eqn:Hf; [intros [=] |].
    rewrite eeprom_write_loop_one_page by apply eeprom_payload_length.
    intros [= <-]. split; [exact Hbus |]. split; [exact Hf |].
    cbn. apply (mem_store_read 0 (eeprom_payload _ _ _ _ _ _)).
  - unfold eeprom_write. rewrite Hbus. cbn [negb].
    destruct (i2c_fault s) eqn:Hf; [intros [=] |].
    rewrite eeprom_write_loop_one_page by apply eeprom_payload_length.
    intros [= <-]. split; [exact Hbus |]. split; [exact Hf |].
    cbn. apply (mem_store_read 0 (eeprom_payload _ _ _ _ _ _)).
Qed.

Lemma eeprom_load_state_bytes s :
  bus_ready s = true → i2c_fault s = false →
  eeprom_load_state s = eeprom_decode (mem_bytes (eeprom_mem s) 0 20).
Proof.
  intros Hb Hf. unfold eeprom_load_state, eeprom_read. rewrite Hb, Hf. reflexivity.
Qed.

(** C6.  After an [eeprom_save_state] that wrote, [eeprom_load_state]
    returns the stored fields; after any change of one of the first 18
    bytes to another byte value it returns None. *)
Theorem eeprom_record_validates_and_detects_alteration
  (flags album track : Z) (s s' : State) :
  eeprom_save_state flags album track s = Some (true, s') →
  eeprom_load_state s'
  = Some (saved_record flags album track (get_schedule_checksum s)
            (get_schedule_mtime s) (week_reading s))
  ∧ ∀ addr v : Z,
      0 ≤ addr < 18 → 0 ≤ v ≤ 255 → v ≠ eeprom_mem s' addr →
      eeprom_load_state (set_eeprom_mem (mem_poke addr v (eeprom_mem s')) s')
      = None.
Proof.
  intros Hsave.
  destruct (eeprom_save_state_written _ _ _ _ _ Hsave) as (Hb & Hf & Hmem).
  split.
  - rewrite eeprom_load_state_bytes, Hmem by assumption.
    apply eeprom_decode_payload.
  - intros addr v Ha Hv Hne.
    rewrite eeprom_load_state_bytes by assumption.
    cbn [eeprom_mem set_eeprom_mem].
    replace addr with (0 + Z.of_nat (Z.to_nat addr)) at 1 by lia.
    rewrite mem_poke_read by lia. rewrite Hmem.
    apply eeprom_decode_altered; [lia | exact Hv |].
    rewrite <- Hmem, mem_bytes_lookup by lia.
    replace (0 + Z.of_nat (Z.to_nat addr)) with addr by lia. congruence.
Qed.

(** ** What the EEPROM driver and the decoder link leave alone *)

Lemma same_player_refl s : same_player s s.
Proof. repeat split. Qed.

Lemma same_player_trans s1 s2 s3 :
  same_player s1 s2 → same_player s2 s3 → same_player s1 s3.
Proof.
  unfold same_player. intros (?&?&?&?&?&?&?) (?&?&?&?&?&?&?).
  repeat split; congruence.
Qed.

Lemma eeprom_write_loop_player fuel : ∀ addr offset payload s,
  same_player s (eeprom_write_loop fuel addr offset payload s).
Proof.
  induction fuel as [| fuel IH]; intros addr offset payload s; cbn [eeprom_write_loop].
  - apply same_player_refl.
  - destruct (offset <? Z.of_nat (length payload)); [| apply same_player_refl].
    eapply same_player_trans; [| apply IH]. repeat split.
Qed.

Lemma eeprom_write_player addr payload s r s' :
  eeprom_write addr payload s = (r, s') → same_player s s'.
Proof.
  unfold eeprom_write.
  destruct (negb (bus_ready s)); [intros [= <- <-]; apply same_player_refl |].
  destruct (i2c_fault s); intros H; inversion H; subst.
  - apply same_player_refl.
  - apply eeprom_write_loop_player.
Qed.

Lemma eeprom_save_state_player flags album track s r s' :
  eeprom_save_state flags album track s = Some (r, s') → same_player s s'.
Proof.
  unfold eeprom_save_state.
  destruct (negb (bus_ready s)); [intros [= <- <-]; apply same_player_refl |].
  destruct (_ && _); [intros [= <- <-]; apply same_player_refl |].
  destruct (match rtc_read_datetime s with Some dt => seconds_into_week dt | None => Some 0 end)
    as [week |]; [| intros [=]].
  destruct (eeprom_write _ _ s) as [[|] s1] eqn:Hw; intros H; inversion H; subst;
    apply eeprom_write_player in Hw; [| exact Hw].
  eapply same_player_trans; [exact Hw |]. repeat split.
Qed.

(** [save_state] rewrites the primary file and may write the EEPROM;
    position, known bounds and the UART log stay. *)
Lemma save_state_position s :
  current_album (save_state s) = current_album s
  ∧ current_track (save_state s) = current_track s
  ∧ KNOWN_TRACKS (save_state s) = KNOWN_TRACKS s
  ∧ uart_tx (save_state s) = uart_tx s.
Proof.
  unfold save_state.
  destruct (eeprom_save_state _ _ _ _) as [[r s2] |] eqn:He.
  - apply eeprom_save_state_player in He. destruct He as (?&?&?&?&_).
    cbn in *. auto.
  - cbn. auto.
Qed.

Lemma byte_ok_land x : byte_ok (Z.land x 255) = true.
Proof.
  unfold byte_ok. change 255 with (Z.ones 8) at 1 2. rewrite Z.land_ones by lia.
  pose proof (Z.mod_pos_bound x 256). change (2 ^ 8) with 256.
  apply andb_true_iff. split; [apply Z.leb_le | apply Z.leb_le]; lia.
Qed.

Lemma df_packet_some cmd p1 p2 :
  byte_ok cmd = true → is_Some (df_packet cmd p1 p2).
Proof.
  intros Hc. unfold df_packet, py_bytes. cbn [forallb].
  rewrite Hc, !byte_ok_land. cbn. eauto.
Qed.

Lemma view_df_send cmd p1 p2 s a t K tx :
  byte_ok cmd = true → view s = (a, t, K, tx) →
  view (df_send cmd p1 p2 s) = (a, t, K, tx ++ [frame cmd p1 p2]).
Proof.
  intros Hc Hv. unfold df_send, frame.
  destruct (df_packet_some cmd p1 p2 Hc) as [pkt ->]. cbn [default].
  unfold view in *. cbn. congruence.
Qed.

Lemma view_save_state s : view (save_state s) = view s.
Proof.
  destruct (save_state_position s) as (H1 & H2 & H3 & H4).
  unfold view. congruence.
Qed.

Lemma view_set_current_track v s a t K tx :
  view s = (a, t, K, tx) → view (set_current_track v s) = (a, v, K, tx).
Proof. unfold view. cbn. congruence. Qed.

Lemma view_set_current_album v s a t K tx :
  view s = (a, t, K, tx) → view (set_current_album v s) = (v, t, K, tx).
Proof. unfold view. cbn. congruence. Qed.

Lemma view_note_track_learned s a t K tx :
  view s = (a, t, K, tx) →
  view (note_track_learned a t s) = (a, t, learn a t K, tx).
Proof.
  intros Hv. unfold note_track_learned, learn.
  assert (HK : KNOWN_TRACKS s = K) by (unfold view in Hv; congruence).
  rewrite HK. destruct (t >? default 0 (K !! a)); [| exact Hv].
  rewrite view_save_state. unfold view in *. cbn. congruence.
Qed.

Lemma play_current_view c s a t K tx :
  view s = (a, t, K, tx) →
  (play_current c s).1 = c
  ∧ view (play_current c s).2
    = (a, t, if c then learn a t K else K,
       tx ++ [frame 22 0 0; frame 15 a t]).
Proof.
  intros Hv. unfold play_current.
  assert (Ha : current_album s = a) by (unfold view in Hv; congruence).
  assert (Ht : current_track s = t) by (unfold view in Hv; congruence).
  rewrite Ha, Ht.
  pose proof (view_df_send 22 0 0 s a t K tx eq_refl Hv) as H1.
  fold (df_stop s) in H1.
  pose proof (view_df_send 15 a t (df_stop s) a t K _ eq_refl H1) as H2.
  fold (df_play_folder_track a t (df_stop s)) in H2.
  rewrite <- app_assoc in H2. cbn [app] in H2.
  set (s1 := df_play_folder_track a t (df_stop s)) in *.
  assert (Ha1 : current_album s1 = a) by (unfold view in H2; congruence).
  assert (Ht1 : current_track s1 = t) by (unfold view in H2; congruence).
  destruct c; cbn [fst snd]; split; try reflexivity; [| exact H2].
  rewrite Ha1, Ht1.
  pose proof (view_note_track_learned s1 a t K _ H2) as H3.
  unfold view in *. cbn. exact H3.
Qed.

Lemma play_current_fst c s : (play_current c s).1 = c.
Proof. unfold play_current. destruct c; reflexivity. Qed.

Lemma next_track_view max_known c1 c2 s a t K tx :
  view s = (a, t, K, tx) →
  view (next_track max_known c1 c2 s)
  = if t + 1 <=? max_known then
      (a, t + 1, if c1 then learn a (t + 1) K else K,
       tx ++ [frame 22 0 0; frame 15 a (t + 1)])
    else if c1 then
      (a, t + 1, learn a (t + 1) K, tx ++ [frame 22 0 0; frame 15 a (t + 1)])
    else
      (a, 1, if c2 then learn a 1 K else K,
       tx ++ [frame 22 0 0; frame 15 a (t + 1); frame 22 0 0; frame 15 a 1]).
Proof.
  intros Hv. unfold next_track.
  assert (Ht : current_track s = t) by (unfold view in Hv; congruence).
  rewrite Ht. destruct (t + 1 <=? max_known).
  - pose proof (view_set_current_track (t + 1) s _ _ _ _ Hv) as H1.
    rewrite <- view_save_state in H1.
    apply (play_current_view c1) in H1 as [_ H1]. exact H1.
  - pose proof (view_set_current_track (t + 1) s _ _ _ _ Hv) as H1.
    apply (play_current_view c1) in H1 as [Hok H1].
    destruct (play_current c1 (set_current_track (t + 1) s)) as [ok s1].
    cbn [fst snd] in *. subst ok. destruct c1; cbn [negb].
    + rewrite view_save_state. exact H1.
    + apply (view_set_current_track 1) in H1.
      rewrite <- view_save_state in H1.
      apply (play_current_view c2) in H1 as [_ H1].
      rewrite <- app_assoc in H1. exact H1.
Qed.

(** C4.  Album 3, track 5, known_tracks[3] = 5, one tap: STOP and
    PLAY(3, 6) go out; when BUSY confirms, the track is 6 and
    known_tracks[3] becomes 6; when it does not, the track is reset to 1
    and STOP, PLAY(3, 1) follow. *)
Theorem single_tap_probe (s : State) (c1 c2 : bool) :
  current_album s = 3 → current_track s = 5 → KNOWN_TRACKS s !! 3 = Some 5 →
  let s' := taps_decided 1 c1 c2 s in
  let stop := [126; 255; 6; 22; 0; 0; 0; 254; 229; 239] in
  let play_3_6 := [126; 255; 6; 15; 0; 3; 6; 254; 227; 239] in
  let play_3_1 := [126; 255; 6; 15; 0; 3; 1; 254; 232; 239] in
  current_album s' = 3
  ∧ if c1 then
      current_track s' = 6 ∧ KNOWN_TRACKS s' !! 3 = Some 6
      ∧ uart_tx s' = uart_tx s ++ [stop; play_3_6]
    else
      current_track s' = 1
      ∧ uart_tx s' = uart_tx s ++ [stop; play_3_6; stop; play_3_1].
Proof.
  intros Ha Ht Hk. cbv zeta.
  assert (Hv : view s = (3, 5, KNOWN_TRACKS s, uart_tx s))
    by (unfold view; congruence).
  unfold taps_decided, max_known_of. rewrite Ha, Hk.
  change (default _ (Some 5)) with 5.
  change (1 >=? 3) with false. change (1 =? 2) with false. cbv iota.
  pose proof (next_track_view 5 c1 c2 s _ _ _ _ Hv) as H.
  change (5 + 1 <=? 5) with false in H. cbv iota in H.
  change (5 + 1) with 6 in H.
  destruct c1; unfold view in H; injection H as H1 H2 H3 H4.
  - rewrite H1, H2, H3, H4.
    split; [reflexivity |]. split; [reflexivity |]. split; [| reflexivity].
    unfold learn. rewrite Hk. cbn. apply lookup_insert_eq.
  - rewrite H1, H2, H4. split; [reflexivity |]. split; reflexivity.
Qed.

(** ** Write-rate limiting and failed alignment *)

Lemma ticks_diff_add t d :
  0 ≤ d < TICKS_PERIOD / 2 → ticks_diff (ticks_add t d) t = d.
Proof.
  intros Hd. unfold ticks_diff, ticks_add.
  replace ((t + d) mod TICKS_PERIOD - t + TICKS_PERIOD / 2)
    with ((t + d) mod TICKS_PERIOD + (TICKS_PERIOD / 2 - t)) by lia.
  rewrite Zplus_mod_idemp_l.
  replace (t + d + (TICKS_PERIOD / 2 - t)) with (d + TICKS_PERIOD / 2) by lia.
  rewrite Z.mod_small; [lia |].
  change TICKS_PERIOD with 1073741824 in *.
  change (1073741824 / 2) with 536870912 in *. lia.
Qed.

Lemma eeprom_write_loop_bus fuel : ∀ addr offset payload s,
  let s' := eeprom_write_loop fuel addr offset payload s in
  i2c s' = i2c s ∧ eeprom_addr s' = eeprom_addr s ∧ ticks s' = ticks s
  ∧ last_eeprom_save_ms s' = last_eeprom_save_ms s.
Proof.
  induction fuel as [| fuel IH]; intros addr offset payload s; cbn [eeprom_write_loop].
  - auto.
  - destruct (offset <? Z.of_nat (length payload)); [| auto].
    cbv zeta in *.
    destruct (IH addr (offset + Z.min (EEPROM_PAGE_SIZE - (addr + offset) mod EEPROM_PAGE_SIZE)
                                   (Z.of_nat (length payload) - offset)) payload
                 (eeprom_page_write (addr + offset)
                    (take (Z.to_nat (Z.min (EEPROM_PAGE_SIZE - (addr + offset) mod EEPROM_PAGE_SIZE)
                                       (Z.of_nat (length payload) - offset)))
                       (drop (Z.to_nat offset) payload)) s))
      as (H1 & H2 & H3 & H4).
    rewrite H1, H2, H3, H4. cbn. auto.
Qed.

Lemma eeprom_write_bus addr payload s r s' :
  eeprom_write addr payload s = (r, s') →
  i2c s' = i2c s ∧ eeprom_addr s' = eeprom_addr s ∧ ticks s' = ticks s
  ∧ last_eeprom_save_ms s' = last_eeprom_save_ms s.
Proof.
  unfold eeprom_write.
  destruct (negb (bus_ready s)); [intros [= <- <-]; auto |].
  destruct (i2c_fault s); intros H; inversion H; subst; [auto |].
  apply eeprom_write_loop_bus.
Qed.

(** A save that wrote leaves the bus usable and stamps the clock reading. *)
Lemma eeprom_save_state_stamp flags album track s s' :
  eeprom_save_state flags album track s = Some (true, s') →
  bus_ready s' = true ∧ last_eeprom_save_ms s' = ticks s ∧ ticks s' = ticks s.
Proof.
  unfold eeprom_save_state.
  destruct (bus_ready s) eqn:Hbus; cbn [negb]; [| intros [=]].
  destruct (_ && _); [intros [=] |].
  destruct (match rtc_read_datetime s with Some dt => seconds_into_week dt | None => Some 0 end)
    as [week |]; [| intros [=]].
  destruct (eeprom_write _ _ s) as [[|] s1] eqn:Hw; intros H; inversion H; subst.
  apply eeprom_write_bus in Hw as (H1 & H2 & H3 & H4).
  unfold bus_ready in *. cbn. rewrite H1, H2, H3. auto.
Qed.

(** C7, as amended.  When a save request has written the EEPROM at a
    non-zero tick reading, a request issued less than EEPROM_SAVE_MIN_MS
    later returns False and leaves the whole machine, stored bytes and
    write log included, as it was. *)
Theorem rate_limited_save_is_noop
  (s s1 : State) (f1 a1 t1 f2 a2 t2 d : Z) :
  eeprom_save_state f1 a1 t1 s = Some (true, s1) →
  ticks s ≠ 0 → 0 ≤ d < EEPROM_SAVE_MIN_MS →
  eeprom_save_state f2 a2 t2 (advance_ticks d s1)
  = Some (false, advance_ticks d s1).
Proof.
  intros Hfirst Hnz Hd.
  destruct (eeprom_save_state_stamp _ _ _ _ _ Hfirst) as (Hbus & Hlast & Hticks).
  unfold eeprom_save_state.
  replace (bus_ready (advance_ticks d s1)) with true by (rewrite <- Hbus; reflexivity).
  cbn [negb].
  replace (last_eeprom_save_ms (advance_ticks d s1)) with (ticks s)
    by (rewrite <- Hlast; reflexivity).
  replace (ticks (advance_ticks d s1)) with (ticks_add (ticks s) d)
    by (rewrite <- Hticks; reflexivity).
  rewrite ticks_diff_add.
  - replace (ticks s =? 0) with false by (symmetry; apply Z.eqb_neq; exact Hnz).
    replace (d <? EEPROM_SAVE_MIN_MS) with true by (symmetry; apply Z.ltb_lt; lia).
    reflexivity.
  - unfold EEPROM_SAVE_MIN_MS in Hd. change (TICKS_PERIOD / 2) with 536870912. lia.
Qed.

(** C7, counterexample.  Last EEPROM write at tick 1000; a request at
    tick 60500 is refused, and a second request 700 ms later, at tick
    61200, writes. *)
Lemma rate_limit_second_request_writes :
  ¬ (∀ (s s1 s2 : State) (f1 a1 t1 f2 a2 t2 d : Z) (r1 r2 : bool),
       0 ≤ d < EEPROM_SAVE_MIN_MS →
       eeprom_save_state f1 a1 t1 s = Some (r1, s1) →
       eeprom_save_state f2 a2 t2 (advance_ticks d s1) = Some (r2, s2) →
       r2 = false ∧ eeprom_log s2 = eeprom_log s1).
Proof.
  intros H.
  destruct (eeprom_save_state 0 2 3 (advance_ticks 700 rate_limit_scene))
    as [[r2 s2] |] eqn:E2; [| vm_compute in E2; discriminate].
  assert (E1 : eeprom_save_state 0 1 1 rate_limit_scene = Some (false, rate_limit_scene))
    by reflexivity.
  assert (Hd : 0 ≤ 700 < EEPROM_SAVE_MIN_MS) by (unfold EEPROM_SAVE_MIN_MS; lia).
  destruct (H _ _ _ _ _ _ _ _ _ _ _ _ Hd E1 E2) as [Hr _].
  subst r2. vm_compute in E2. discriminate.
Qed.

(** C7, as amended, for a write at tick 1000 and a request at tick 1700. *)
Lemma rate_limited_save_is_noop_witness :
  ∃ s1 : State,
    eeprom_save_state 0 1 1 (set_ticks 1000 (with_bus power_up)) = Some (true, s1)
    ∧ eeprom_save_state 0 2 3 (advance_ticks 700 s1)
      = Some (false, advance_ticks 700 s1).
Proof.
  destruct (eeprom_save_state 0 1 1 (set_ticks 1000 (with_bus power_up)))
    as [[[|] s1] |] eqn:E; try (vm_compute in E; discriminate).
  exists s1. split; [reflexivity |].
  apply (rate_limited_save_is_noop _ _ 0 1 1 0 2 3 700 E).
  - vm_compute. discriminate.
  - unfold EEPROM_SAVE_MIN_MS. lia.
Defined.

(** Counts and running total of a scan do not depend on the target. *)
Lemma scan_step_indep t1 t2 (acc1 acc2 : scan_acc) line :
  acc1.1.2 = acc2.1.2 → acc1.2 = acc2.2 →
  (scan_step t1 acc1 line).1.2 = (scan_step t2 acc2 line).1.2
  ∧ (scan_step t1 acc1 line).2 = (scan_step t2 acc2 line).2.
Proof.
  destruct acc1 as [[f1 c1] n1], acc2 as [[f2 c2] n2]. cbn [fst snd].
  intros -> ->. unfold scan_step.
  destruct (parse_schedule_line line) as [[[folder track] duration] |]; [| auto].
  destruct (folder >? MAX_ALBUM_NUM); [auto |]. cbn [fst snd]. auto.
Qed.

Lemma scan_fold_indep t1 t2 lines : ∀ (acc1 acc2 : scan_acc),
  acc1.1.2 = acc2.1.2 → acc1.2 = acc2.2 →
  (fold_left (scan_step t1) lines acc1).1.2 = (fold_left (scan_step t2) lines acc2).1.2
  ∧ (fold_left (scan_step t1) lines acc1).2 = (fold_left (scan_step t2) lines acc2).2.
Proof.
  induction lines as [| line lines IH]; intros acc1 acc2 Hc Ht; cbn [fold_left].
  - auto.
  - destruct (scan_step_indep t1 t2 acc1 acc2 line Hc Ht) as [Hc' Ht'].
    apply IH; assumption.
Qed.

Lemma scan_schedule_indep t1 t2 s :
  (scan_schedule t1 s).1.2 = (scan_schedule t2 s).1.2
  ∧ (scan_schedule t1 s).2 = (scan_schedule t2 s).2.
Proof.
  unfold scan_schedule. destruct (schedule_file s); [| auto].
  apply scan_fold_indep; reflexivity.
Qed.

Lemma iso_weekday_month year month day :
  1 ≤ month ≤ 12 → is_Some (iso_weekday year month day).
Proof.
  intros Hm. unfold iso_weekday.
  destruct (py_index [0; 3; 2; 5; 0; 3; 5; 1; 4; 6; 2; 4] (month - 1)) eqn:E; [eauto |].
  exfalso. unfold py_index in E. cbn [length] in E.
  replace ((0 <=? month - 1) && (month - 1 <? Z.of_nat 12)) with true in E
    by (symmetry; apply andb_true_iff; split; [apply Z.leb_le | apply Z.ltb_lt]; lia).
  apply lookup_ge_None in E. cbn [length] in E. lia.
Qed.

Lemma seconds_into_week_month dt :
  1 ≤ dt_month dt ≤ 12 → is_Some (seconds_into_week dt).
Proof.
  intros Hm. unfold seconds_into_week.
  destruct (iso_weekday_month (dt_year dt) (dt_month dt) (dt_day dt) Hm) as [d ->].
  eauto.
Qed.

(** C8, the part that holds.  With a schedule whose total duration is
    zero, and a clock chip that reports a calendar month when it
    answers, [align_to_time] returns False and leaves the machine, hence
    current_album, current_track and KNOWN_TRACKS, exactly as it was. *)
Theorem zero_duration_alignment_fails (s : State) :
  (scan_schedule 0 s).2 = 0 → clock_month_ok s →
  align_to_time s = Some (false, s).
Proof.
  intros Hzero Hclock. unfold align_to_time. unfold clock_month_ok in Hclock.
  destruct (rtc_read_datetime s) as [dt |]; [| reflexivity].
  destruct (seconds_into_week_month dt Hclock) as [target ->].
  unfold find_track_for_time.
  destruct (scan_schedule_indep target 0 s) as [_ Ht]. rewrite Hzero in Ht.
  destruct (scan_schedule target s) as [[found counts] total].
  cbn [snd] in Ht. subst total. reflexivity.
Qed.

(** ** Weekly periodicity of the schedule lookup *)

Lemma parse_schedule_line_positive line folder track duration :
  parse_schedule_line line = Some (folder, track, duration) →
  1 ≤ folder ∧ 1 ≤ track ∧ 0 < duration.
Proof.
  unfold parse_schedule_line. intros H.
  repeat case_match; try discriminate.
  all: injection H as <- <- <-.
  all: repeat match goal with
       | H : (_ <=? _) = false |- _ => apply Z.leb_gt in H
       | H : (_ || _) = false |- _ => apply orb_false_iff in H as [? ?]
       | H : (_ <? _) = false |- _ => apply Z.ltb_ge in H
       end.
  all: lia.
Qed.

(** Past the end of the table no entry matches, and the running total
    never decreases. *)
Lemma scan_fold_past_end x lines : ∀ found counts n,
  let r := fold_left (scan_step x) lines (found, counts, n) in
  n ≤ r.2 ∧ (found = None → r.2 ≤ x → r.1.1 = None).
Proof.
  induction lines as [| line lines IH]; intros found counts n; cbn [fold_left].
  - cbn. split; [lia | auto].
  - cbv zeta in *. unfold scan_step at 2 4 6.
    destruct (parse_schedule_line line) as [[[folder track] duration] |] eqn:Hp;
      [| apply IH].
    destruct (folder >? MAX_ALBUM_NUM); [apply IH |].
    apply parse_schedule_line_positive in Hp as (_ & _ & Hd).
    match goal with
    | |- context [fold_left _ lines (?f, ?c, ?m)] =>
        destruct (IH f c m) as [Hle Hnone]
    end.
    split; [lia |]. intros -> Hx. apply Hnone; [| exact Hx].
    replace (x <? n + duration) with false; [reflexivity |].
    symmetry. apply Z.ltb_ge. lia.
Qed.

Lemma scan_schedule_past_end x s :
  (scan_schedule x s).2 ≤ x → (scan_schedule x s).1.1 = None.
Proof.
  unfold scan_schedule. destruct (schedule_file s) as [f |]; [| reflexivity].
  unfold scan_lines. intros Hx.
  apply (scan_fold_past_end x (file_lines f) None ∅ 0); [reflexivity | exact Hx].
Qed.

(** [find_track_for_time] in terms of one scan at the wrapped target. *)
Lemma find_track_for_time_wrapped x s :
  let T := (scan_schedule 0 s).2 in
  0 < T → 0 ≤ x →
  find_track_for_time x s
  = ((scan_schedule (x mod T) s).1.1, (scan_schedule 0 s).1.2, T).
Proof.
  intros T HT Hx. unfold find_track_for_time.
  destruct (scan_schedule_indep x 0 s) as [Hc Ht]. fold T in Ht.
  destruct (scan_schedule_indep (x mod T) 0 s) as [Hc' Ht'].
  pose proof (scan_schedule_past_end x s) as Hend. rewrite Ht in Hend.
  destruct (scan_schedule x s) as [[found counts] total] eqn:Hscan.
  cbn [fst snd] in *. subst total counts.
  replace (T <=? 0) with false by (symmetry; apply Z.leb_gt; lia).
  destruct (Z.lt_ge_cases x T) as [Hlt | Hge].
  - rewrite Z.mod_small by lia. rewrite Hscan. cbn [fst snd].
    destruct found; reflexivity.
  - rewrite (Hend Hge).
    destruct (scan_schedule (x mod T) s) as [[found' counts'] total'].
    reflexivity.
Qed.

(** C3.  With a schedule of total duration T > 0 and a target second
    S >= 0, [find_track_for_time(S + T)] returns what
    [find_track_for_time(S)] returns: the same match, counts and total. *)
Theorem alignment_is_periodic (s : State) (S : Z) :
  let T := (scan_schedule 0 s).2 in
  0 < T → 0 ≤ S →
  find_track_for_time (S + T) s = find_track_for_time S s.
Proof.
  intros T HT HS.
  rewrite !find_track_for_time_wrapped by (fold T; lia). fold T.
  replace ((S + T) mod T) with (S mod T); [reflexivity |].
  rewrite <- (Z.mod_add S 1 T) by lia. f_equal. lia.
Qed.

(** ** Known-track bounds under navigation *)



















(** ** Integers and the primary-store text *)

(** ** Decimal printing and parsing *)
Lemma digit_cases d : 0 ≤ d ≤ 9 →
  d = 0 ∨ d = 1 ∨ d = 2 ∨ d = 3 ∨ d = 4 ∨ d = 5 ∨ d = 6 ∨ d = 7 ∨ d = 8 ∨ d = 9.
Proof. lia. Qed.

Lemma digit_val_char d : 0 ≤ d ≤ 9 → digit_val (digit_char d) = Some d.
Proof.
  intros H. destruct (digit_cases d H) as [-> | [-> | [-> | [-> | [-> | [-> | [-> | [-> | [-> | ->]]]]]]]]];
    reflexivity.
Qed.

Lemma digit_char_is_digit d : 0 ≤ d ≤ 9 → is_digit_char (digit_char d) = true.
Proof.
  intros H. destruct (digit_cases d H) as [-> | [-> | [-> | [-> | [-> | [-> | [-> | [-> | [-> | ->]]]]]]]]];
    reflexivity.
Qed.

Lemma digit_val_digit c :
  is_digit_char c = true → digit_val c = Some (ord c - 48).
Proof. unfold is_digit_char, digit_val. intros ->. reflexivity. Qed.

Lemma parse_digits_app l1 : ∀ l2 acc,
  Forall (fun c => is_digit_char c = true) l1 →
  parse_digits acc (l1 ++ l2)
  = match parse_digits acc l1 with
    | Some v => parse_digits v l2
    | None => None
    end.
Proof.
  induction l1 as [| c l1 IH]; intros l2 acc H; cbn [app parse_digits];
    [reflexivity |].
  inversion H as [| ? ? Hc Hl]; subst.
  rewrite (digit_val_digit c Hc). apply IH. exact Hl.
Qed.

Lemma mod10_digit n : 0 ≤ n mod 10 ≤ 9.
Proof. pose proof (Z.mod_pos_bound n 10). lia. Qed.

Lemma dec_digits_digits fuel : ∀ n,
  0 ≤ n → Forall (fun c => is_digit_char c = true) (dec_digits fuel n).
Proof.
  induction fuel as [| fuel IH]; intros n Hn; cbn [dec_digits]; [constructor |].
  apply Forall_app. split.
  - destruct (n <? 10); [constructor | apply IH, Z.div_pos; lia].
  - constructor; [| constructor]. apply digit_char_is_digit, mod10_digit.
Qed.

Lemma parse_dec_digits fuel : ∀ n,
  0 ≤ n < 10 ^ Z.of_nat fuel → parse_digits 0 (dec_digits fuel n) = Some n.
Proof.
  induction fuel as [| fuel IH]; intros n Hn.
  - cbn in Hn. assert (n = 0) by lia. subst. reflexivity.
  - cbn [dec_digits]. rewrite parse_digits_app.
    2: { destruct (n <? 10); [constructor | apply dec_digits_digits, Z.div_pos; lia]. }
    destruct (n <? 10) eqn:Hlt.
    + apply Z.ltb_lt in Hlt. cbn [parse_digits].
      rewrite Z.mod_small by lia. rewrite digit_val_char by lia. f_equal; lia.
    + apply Z.ltb_ge in Hlt. rewrite IH.
      * cbn [parse_digits]. rewrite digit_val_char by apply mod10_digit.
        f_equal; pose proof (Z.div_mod n 10); lia.
      * rewrite Nat2Z.inj_succ, Z.pow_succ_r in Hn by lia.
        split; [apply Z.div_pos; lia |].
        apply Z.div_lt_upper_bound; lia.
Qed.

Lemma dec_fuel_enough n : 0 ≤ n → n < 10 ^ Z.of_nat (dec_fuel n).
Proof.
  intros Hn. unfold dec_fuel.
  rewrite Nat2Z.inj_succ, Z2Nat.id by apply Z.log2_nonneg.
  destruct (Z.eq_dec n 0) as [-> | Hnz]; [reflexivity |].
  pose proof (Z.log2_spec n ltac:(lia)) as [_ Hup].
  eapply Z.lt_le_trans; [exact Hup |].
  apply Z.pow_le_mono_l. lia.
Qed.

Lemma dec_digits_nonempty fuel n : dec_digits (S fuel) n ≠ [].
Proof.
  cbn [dec_digits]. destruct (if n <? 10 then [] else dec_digits fuel (n / 10));
    discriminate.
Qed.

Lemma digit_is_num c : is_digit_char c = true → is_num_char c = true.
Proof. unfold is_digit_char, is_num_char. intros ->. reflexivity. Qed.

Lemma str_of_Z_chars n : Forall (fun c => is_num_char c = true) (str_of_Z n).
Proof.
  unfold str_of_Z. destruct (n <? 0) eqn:Hneg.
  - apply Z.ltb_lt in Hneg. constructor; [reflexivity |].
    eapply Forall_impl; [apply dec_digits_digits; lia |].
    intros c. apply digit_is_num.
  - apply Z.ltb_ge in Hneg.
    eapply Forall_impl; [apply dec_digits_digits; lia |].
    intros c. apply digit_is_num.
Qed.

Lemma str_of_Z_nonempty n : str_of_Z n ≠ [].
Proof.
  unfold str_of_Z, dec_fuel. destruct (n <? 0); [discriminate |].
  apply dec_digits_nonempty.
Qed.

(** ** Stripping and splitting text that holds no white space *)
Lemma lstrip_no_space s :
  Forall (fun c => is_space c = false) s → lstrip s = s.
Proof. intros H. destruct H as [| c s Hc _]; cbn; [reflexivity |]. rewrite Hc. reflexivity. Qed.

Lemma strip_no_space s :
  Forall (fun c => is_space c = false) s → strip s = s.
Proof.
  intros H. unfold strip, rstrip. rewrite (lstrip_no_space s H).
  rewrite lstrip_no_space; [apply rev_involutive |].
  apply Forall_forall. intros c Hc. rewrite Forall_forall in H. apply H.
  apply list_elem_of_In. apply list_elem_of_In in Hc.
  apply in_rev. exact Hc.
Qed.

Lemma split_on_lacks sep s : lacks sep s → split_on sep s = [s].
Proof.
  induction 1 as [| c s Hc _ IH]; cbn [split_on]; [reflexivity |].
  rewrite Hc, IH. reflexivity.
Qed.

Lemma split_on_app sep a b :
  lacks sep a → split_on sep (a ++ sep :: b) = a :: split_on sep b.
Proof.
  induction 1 as [| c a Hc _ IH]; cbn [app split_on].
  - rewrite Ascii.eqb_refl. reflexivity.
  - rewrite Hc, IH. reflexivity.
Qed.

Lemma split_on_join sep pieces :
  pieces ≠ [] → Forall (lacks sep) pieces →
  split_on sep (join [sep] pieces) = pieces.
Proof.
  intros Hne Hall. induction Hall as [| p ps Hp Hps IH]; [congruence |].
  destruct ps as [| q ps].
  - cbn [join]. apply split_on_lacks. exact Hp.
  - change (join [sep] (p :: q :: ps)) with (p ++ sep :: join [sep] (q :: ps)).
    rewrite split_on_app by exact Hp. rewrite IH by discriminate. reflexivity.
Qed.

Lemma num_char_not_space c : is_num_char c = true → is_space c = false.
Proof.
  unfold is_num_char, is_space. cbv zeta. intros H.
  apply orb_true_iff in H as [H | H].
  - apply andb_true_iff in H as [H1 H2]. apply Z.leb_le in H1. apply Z.leb_le in H2.
    apply orb_false_iff. split; [apply Z.eqb_neq; lia |].
    apply andb_false_iff. right. apply Z.leb_gt. lia.
  - apply Z.eqb_eq in H. rewrite H. reflexivity.
Qed.

Lemma num_char_not c sep :
  is_num_char sep = false → is_num_char c = true → Ascii.eqb c sep = false.
Proof.
  intros Hs Hc. destruct (Ascii.eqb_spec c sep) as [-> | _]; [congruence | reflexivity].
Qed.

Lemma str_of_Z_lacks sep n : is_num_char sep = false → lacks sep (str_of_Z n).
Proof.
  intros Hs. eapply Forall_impl; [apply str_of_Z_chars |].
  intros c. apply num_char_not. exact Hs.
Qed.

Lemma str_of_Z_no_space n : Forall (fun c => is_space c = false) (str_of_Z n).
Proof.
  eapply Forall_impl; [apply str_of_Z_chars |]. intros c. apply num_char_not_space.
Qed.

(** [int("%d" % n) == n]. *)
Lemma py_int_str_of_Z n : py_int (str_of_Z n) = Some n.
Proof.
  unfold py_int. rewrite strip_no_space by apply str_of_Z_no_space.
  unfold str_of_Z. destruct (n <? 0) eqn:Hneg.
  - apply Z.ltb_lt in Hneg. rewrite Ascii.eqb_refl. unfold parse_unsigned.
    pose proof (dec_digits_nonempty (Z.to_nat (Z.log2 (- n))) (- n)) as Hne.
    fold (dec_fuel (- n)) in Hne.
    pose proof (dec_digits_digits (dec_fuel (- n)) (- n) ltac:(lia)) as Hdig.
    destruct (dec_digits (dec_fuel (- n)) (- n)) as [| c d] eqn:E; [congruence |].
    rewrite (digit_val_digit c) by (inversion Hdig; assumption).
    rewrite <- E, parse_dec_digits by (split; [lia | apply dec_fuel_enough; lia]).
    cbn. f_equal. lia.
  - apply Z.ltb_ge in Hneg.
    pose proof (dec_digits_nonempty (Z.to_nat (Z.log2 n)) n) as Hne.
    fold (dec_fuel n) in Hne.
    pose proof (dec_digits_digits (dec_fuel n) n Hneg) as Hdig.
    destruct (dec_digits (dec_fuel n) n) as [| c d] eqn:E; [congruence |].
    assert (Hd : is_digit_char c = true) by (inversion Hdig; assumption).
    assert (Hminus : Ascii.eqb c "-" = false).
    { destruct (Ascii.eqb_spec c "-") as [-> | _]; [discriminate Hd | reflexivity]. }
    rewrite Hminus.
    assert (Hplus : Ascii.eqb c "+" = false).
    { destruct (Ascii.eqb_spec c "+") as [-> | _]; [discriminate Hd | reflexivity]. }
    rewrite Hplus. unfold parse_unsigned. rewrite (digit_val_digit c Hd).
    rewrite <- E.
    apply parse_dec_digits. split; [lia | apply dec_fuel_enough; lia].
Qed.

(** ** The primary-store text *)
Lemma load_pairs_cons pr rest known :
  pr ≠ [] →
  load_pairs (pr :: rest) known
  = match split_on ":" pr with
    | [a; c] =>
        match py_int a, py_int c with
        | Some a, Some c => load_pairs rest (<[a := c]> known)
        | _, _ => None
        end
    | _ => None
    end.
Proof. destruct pr; [congruence | reflexivity]. Qed.

Lemma format_pair_nonempty p : format_pair p ≠ [].
Proof.
  unfold format_pair. pose proof (str_of_Z_nonempty p.1).
  destruct (str_of_Z p.1); [congruence | discriminate].
Qed.

Lemma split_format_pair p :
  split_on ":" (format_pair p) = [str_of_Z p.1; str_of_Z p.2].
Proof.
  unfold format_pair. change (lit ":" ++ str_of_Z p.2) with (":"%char :: str_of_Z p.2).
  rewrite split_on_app by (apply str_of_Z_lacks; reflexivity).
  rewrite split_on_lacks by (apply str_of_Z_lacks; reflexivity). reflexivity.
Qed.

Lemma load_pairs_format l : ∀ known,
  load_pairs (map format_pair l) known = Some (fold_left insert_pair l known).
Proof.
  induction l as [| p l IH]; intros known; cbn [map fold_left]; [reflexivity |].
  rewrite load_pairs_cons by apply format_pair_nonempty.
  rewrite split_format_pair, !py_int_str_of_Z. apply IH.
Qed.

Lemma format_pair_lacks sep p :
  is_num_char sep = false → Ascii.eqb ":" sep = false → lacks sep (format_pair p).
Proof.
  intros Hs Hc. unfold format_pair, lacks.
  apply Forall_app. split; [apply str_of_Z_lacks; exact Hs |].
  apply Forall_app. split; [repeat constructor; exact Hc |].
  apply str_of_Z_lacks; exact Hs.
Qed.

Lemma join_format_lacks sep l :
  is_num_char sep = false → Ascii.eqb ":" sep = false → Ascii.eqb "," sep = false →
  lacks sep (join (lit ",") (map format_pair l)).
Proof.
  intros Hs Hc Hk. induction l as [| p l IH]; [constructor |].
  destruct l as [| q l].
  - cbn [map join]. apply format_pair_lacks; assumption.
  - change (join (lit ",") (map format_pair (p :: q :: l)))
      with (format_pair p ++ lit "," ++ join (lit ",") (map format_pair (q :: l))).
    apply Forall_app. split; [apply format_pair_lacks; assumption |].
    apply Forall_app. split; [repeat constructor; exact Hk | exact IH].
Qed.

Lemma load_joined_pairs l :
  match join (lit ",") (map format_pair l) with
  | [] => Some ∅
  | track_part => load_pairs (split_on "," track_part) ∅
  end = Some (fold_left insert_pair l ∅).
Proof.
  destruct l as [| p l]; [reflexivity |].
  assert (Hsplit : split_on "," (join (lit ",") (map format_pair (p :: l)))
                   = map format_pair (p :: l)).
  { apply (split_on_join ","); [discriminate |].
    apply Forall_forall. intros x Hx. apply list_elem_of_In, in_map_iff in Hx as (q & <- & _).
    apply format_pair_lacks; reflexivity. }
  destruct (join (lit ",") (map format_pair (p :: l))) as [| c w] eqn:E.
  - exfalso. cbn [map split_on] in Hsplit. injection Hsplit as Hp _.
    symmetry in Hp. exact (format_pair_nonempty p Hp).
  - rewrite Hsplit. apply load_pairs_format.
Qed.

Lemma startswith_app p s : startswith p (p ++ s) = true.
Proof.
  induction p as [| c p IH]; cbn [app startswith]; [reflexivity |].
  rewrite Ascii.eqb_refl. exact IH.
Qed.

Lemma parse_state_payload album track (l : list (Z * Z)) :
  parse_state
    (str_of_Z album ++ lit "," ++ str_of_Z track ++ lit ";tracks="
     ++ join (lit ",") (map format_pair l))
  = Some (album, track, fold_left insert_pair l ∅).
Proof.
  unfold parse_state.
  set (J := join (lit ",") (map format_pair l)).
  assert (Hj : ∀ sep, is_num_char sep = false → Ascii.eqb ":" sep = false →
                 Ascii.eqb "," sep = false → lacks sep J)
    by (intros; apply join_format_lacks; assumption).
  rewrite strip_no_space.
  2:{ apply Forall_app. split; [apply str_of_Z_no_space |].
      apply Forall_app. split; [repeat constructor |].
      apply Forall_app. split; [apply str_of_Z_no_space |].
      apply Forall_app. split; [repeat constructor |].
      clear Hj. subst J. induction l as [| p l IH]; [constructor |].
      assert (Hp : Forall (fun c => is_space c = false) (format_pair p)).
      { unfold format_pair. apply Forall_app. split; [apply str_of_Z_no_space |].
        apply Forall_app. split; [repeat constructor | apply str_of_Z_no_space]. }
      destruct l as [| q l]; [exact Hp |].
      change (join (lit ",") (map format_pair (p :: q :: l)))
        with (format_pair p ++ lit "," ++ join (lit ",") (map format_pair (q :: l))).
      apply Forall_app. split; [exact Hp |].
      apply Forall_app. split; [repeat constructor | exact IH]. }
  replace (str_of_Z album ++ lit "," ++ str_of_Z track ++ lit ";tracks=" ++ J)
    with ((str_of_Z album ++ lit "," ++ str_of_Z track)
          ++ ";"%char :: (lit "tracks=" ++ J))
    by (rewrite <- !app_assoc; reflexivity).
  rewrite (split_on_app ";").
  2:{ apply Forall_app. split; [apply str_of_Z_lacks; reflexivity |].
      apply Forall_app. split; [repeat constructor |].
      apply str_of_Z_lacks; reflexivity. }
  rewrite (split_on_lacks ";").
  2:{ apply Forall_app. split; [repeat constructor | apply Hj; reflexivity]. }
  change (lit "," ++ str_of_Z track) with (","%char :: str_of_Z track).
  rewrite (split_on_app ",") by (apply str_of_Z_lacks; reflexivity).
  rewrite (split_on_lacks ",") by (apply str_of_Z_lacks; reflexivity).
  rewrite !py_int_str_of_Z.
  rewrite startswith_app.
  change (drop 7 (lit "tracks=" ++ J)) with J.
  subst J. rewrite load_joined_pairs. reflexivity.
Qed.

(** ** Primary-store round trip *)

(** Inserting pairs with distinct keys one after the other builds the
    map of the list. *)
Lemma fold_insert_lookup (l : list (Z * Z)) : ∀ (m : gmap Z Z) (k : Z),
  NoDup l.*1 →
  fold_left insert_pair l m !! k
  = match (list_to_map l : gmap Z Z) !! k with
    | Some v => Some v
    | None => m !! k
    end.
Proof.
  induction l as [| [a c] l IH]; intros m k Hnd; cbn [fold_left].
  - simpl. rewrite lookup_empty. reflexivity.
  - apply NoDup_cons in Hnd as [Hnotin Hnd]. rewrite IH by exact Hnd.
    simpl. unfold insert_pair. cbn [fst snd].
    destruct (decide (k = a)) as [-> | Hne].
    + rewrite (not_elem_of_list_to_map_1 l a Hnotin).
      rewrite !lookup_insert_eq. reflexivity.
    + rewrite !lookup_insert_ne by congruence. reflexivity.
Qed.

Lemma fold_insert_sorted_items (m : gmap Z Z) :
  fold_left insert_pair (sorted_items m) ∅ = m.
Proof.
  assert (Hperm : sorted_items m ≡ₚ map_to_list m)
    by apply merge_sort_Permutation.
  assert (Hnd : NoDup (sorted_items m).*1).
  { rewrite Hperm. apply NoDup_fst_map_to_list. }
  apply map_eq. intros k. rewrite fold_insert_lookup by exact Hnd.
  rewrite lookup_empty.
  rewrite (list_to_map_proper (sorted_items m) (map_to_list m) Hnd Hperm).
  rewrite list_to_map_to_list. destruct (m !! k); reflexivity.
Qed.

Lemma parse_state_state_payload album track known :
  parse_state (state_payload album track known) = Some (album, track, known).
Proof.
  unfold state_payload. rewrite parse_state_payload, fold_insert_sorted_items.
  reflexivity.
Qed.

Lemma save_state_album_file s :
  album_file (save_state s)
  = Some (state_payload (current_album s) (current_track s) (KNOWN_TRACKS s)).
Proof.
  unfold save_state.
  destruct (eeprom_save_state _ _ _ _) as [[r s2] |] eqn:He; [| reflexivity].
  apply eeprom_save_state_player in He. destruct He as (_ & _ & _ & _ & Hf & _).
  rewrite Hf. reflexivity.
Qed.

(** C9.  Whatever album, track and KNOWN_TRACKS [save_state] wrote,
    [load_state] on a machine holding that file returns True and restores
    exactly that album, track and map. *)
Theorem primary_store_round_trip (s s0 : State) :
  album_file s0 = album_file (save_state s) →
  load_state s0
  = (true, set_position (current_album s) (current_track s) (KNOWN_TRACKS s) s0).
Proof.
  intros Hfile. unfold load_state.
  rewrite Hfile, save_state_album_file, parse_state_state_payload. reflexivity.
Qed.

(** C9 for album 5, track 12, known {5: 12}, reloaded over the defaults. *)
Lemma primary_store_round_trip_witness :
  let s := set_position 5 12 {[5 := 12]} power_up in
  album_file (set_position 1 1 ∅ (save_state s)) = album_file (save_state s)
  ∧ load_state (set_position 1 1 ∅ (save_state s))
    = (true, set_position 5 12 {[5 := 12]} (set_position 1 1 ∅ (save_state s))).
Proof.
  intros s. split; [reflexivity |].
  apply (primary_store_round_trip s). reflexivity.
Defined.

Example primary_store_text :
  album_file (save_state (set_position 5 12 {[5 := 12]} power_up))
  = Some (lit "5,12;tracks=5:12").
Proof. reflexivity. Qed.

(** ** Decoder frames, concrete scenes and boot reconciliation *)

(** C5, counterexample.  The frame for PLAY(folder=3, track=7) is not
    7E FF 06 0F 00 03 07 FF D2 EF. *)
Lemma df_play_frame_is_not_FF_D2 :
  uart_tx (df_play_folder_track 3 7 power_up)
  ≠ [[126; 255; 6; 15; 0; 3; 7; 255; 210; 239]].
Proof. vm_compute. discriminate. Qed.

(** C5, as amended.  PLAY(folder=3, track=7) is sent as
    7E FF 06 0F 00 03 07 FE E2 EF; for every folder and track the two
    bytes before the final EF are, high byte first, the two's complement
    modulo 65536 of the sum of bytes 1..6. *)
Theorem df_play_frame (s : State) (folder track : Z) :
  uart_tx (df_play_folder_track 3 7 s)
  = uart_tx s ++ [[126; 255; 6; 15; 0; 3; 7; 254; 226; 239]]
  ∧ ∃ hi lo : Z,
      uart_tx (df_play_folder_track folder track s)
      = uart_tx s ++ [[126; 255; 6; 15; 0; Z.land folder 255;
                       Z.land track 255; hi; lo; 239]]
      ∧ 0 ≤ hi ≤ 255 ∧ 0 ≤ lo ≤ 255
      ∧ 256 * hi + lo
        = (- (255 + 6 + 15 + 0 + Z.land folder 255 + Z.land track 255))
          mod 65536.
Proof.
  split; [reflexivity |].
  unfold df_play_folder_track, df_send, df_packet, py_bytes.
  cbn [forallb]. rewrite !byte_ok_land. cbn [byte_ok andb Z.leb Z.compare Pos.compare Pos.compare_cont].
  cbn [take drop firstn skipn fold_right app].
  set (csum := Z.land (- (255 + (6 + (15 + (0 + (Z.land folder 255 + (Z.land track 255 + 0))))))) 65535).
  exists (Z.land (Z.shiftr csum 8) 255), (Z.land csum 255).
  split; [reflexivity |]. split; [apply land_255_byte |]. split; [apply land_255_byte |].
  assert (Hc : 0 ≤ csum < 65536).
  { subst csum. rewrite land_65535. apply Z.mod_pos_bound. lia. }
  pose proof (le_value_2 csum Hc) as Hle. cbn [le_value] in Hle.
  rewrite <- land_65535.
  replace (Z.land (- (255 + 6 + 15 + 0 + Z.land folder 255 + Z.land track 255)) 65535)
    with csum by (subst csum; f_equal; lia).
  lia.
Qed.

(** C3 at the two-entry schedule (T = 900) and S = 600. *)
Lemma alignment_is_periodic_witness :
  0 < (scan_schedule 0 two_entry_schedule).2 ∧ 0 ≤ 600
  ∧ find_track_for_time (600 + (scan_schedule 0 two_entry_schedule).2)
      two_entry_schedule
    = find_track_for_time 600 two_entry_schedule.
Proof.
  split; [reflexivity |]. split; [lia |].
  apply (alignment_is_periodic two_entry_schedule 600); [reflexivity | lia].
Defined.

(** C4 on the power-up machine put at album 3, track 5, with a
    confirmed probe. *)
Lemma single_tap_probe_witness :
  let s := set_position 3 5 {[3 := 5]} power_up in
  let s' := taps_decided 1 true false s in
  current_album s' = 3 ∧ current_track s' = 6 ∧ KNOWN_TRACKS s' !! 3 = Some 6
  ∧ uart_tx s' = uart_tx s ++ [[126; 255; 6; 22; 0; 0; 0; 254; 229; 239];
                                [126; 255; 6; 15; 0; 3; 6; 254; 227; 239]].
Proof.
  exact (single_tap_probe (set_position 3 5 {[3 := 5]} power_up) true false
           eq_refl eq_refl eq_refl).
Defined.

(** C6 for flags 1, album 3, track 4 written at tick 1000. *)
Lemma eeprom_record_validates_and_detects_alteration_witness :
  ∃ s' : State,
    eeprom_save_state 1 3 4 (set_ticks 1000 (with_bus power_up)) = Some (true, s')
    ∧ eeprom_load_state s'
      = Some (saved_record 1 3 4 0 0
                (week_reading (set_ticks 1000 (with_bus power_up))))
    ∧ ∀ addr v : Z,
        0 ≤ addr < 18 → 0 ≤ v ≤ 255 → v ≠ eeprom_mem s' addr →
        eeprom_load_state (set_eeprom_mem (mem_poke addr v (eeprom_mem s')) s')
        = None.
Proof.
  destruct (eeprom_save_state 1 3 4 (set_ticks 1000 (with_bus power_up)))
    as [[[|] s'] |] eqn:E; try (vm_compute in E; discriminate).
  exists s'. split; [reflexivity |].
  exact (eeprom_record_validates_and_detects_alteration 1 3 4 _ s' E).
Defined.

(** C8, the part that holds, on a schedule file without a single valid
    line. *)
Lemma zero_duration_alignment_fails_witness :
  (scan_schedule 0 empty_schedule_scene).2 = 0
  ∧ clock_month_ok empty_schedule_scene
  ∧ align_to_time empty_schedule_scene = Some (false, empty_schedule_scene).
Proof.
  assert (Hz : (scan_schedule 0 empty_schedule_scene).2 = 0) by reflexivity.
  assert (Hc : clock_month_ok empty_schedule_scene)
    by (unfold clock_month_ok; vm_compute; split; discriminate).
  split; [exact Hz |]. split; [exact Hc |].
  exact (zero_duration_alignment_fails empty_schedule_scene Hz Hc).
Defined.





(** C1.  Boot reconciliation on a first power-up: no album_state.txt, an
    older record in the EEPROM, the oscillator-stop flag raised, and the
    operator sending [SET 2026-01-05 00:10:00] over the serial channel.
    [maybe_set_rtc] stores album 1 / track 1 in the EEPROM, the alignment
    250 ms later succeeds with album 3 / track 4 but its EEPROM save falls
    inside the rate-limit interval, and the fallback block, which runs
    after the alignment, reads album 1 / track 1 back: the position that
    enters the start sequence is (1, 1), not the aligned (3, 4).  The
    four facts: the alignment answered True at (3, 4) with the primary
    store not loaded; the EEPROM saw one page write in all; the record
    in it is flags 1, album 1, track 1; and boot ends at (1, 1). *)
Theorem boot_eeprom_fallback_overrides_alignment :
  option_map (fun r => (r.1, position r.2))
    (boot_until_alignment false first_boot_line 250 first_boot_scene)
  = Some (false, true, (3, 4))
  ∧ option_map (fun r => map fst (eeprom_log r.2))
      (boot_until_alignment false first_boot_line 250 first_boot_scene)
    = Some [0]
  ∧ option_map (fun r => eeprom_load_state r.2)
      (boot_until_alignment false first_boot_line 250 first_boot_scene)
    = Some (Some (mkRec 1 1 1 695 0 600))
  ∧ option_map position (boot false first_boot_line 250 first_boot_scene)
    = Some (1, 1).
Proof. repeat split; vm_compute; reflexivity. Qed.

(** With the primary store loaded, or no valid record in the EEPROM, the
    fallback block leaves the position alone. *)
Lemma boot_eeprom_fallback_keeps_position loaded_file s :
  loaded_file = true ∨ eeprom_load_state s = None →
  position (boot_eeprom_fallback loaded_file s) = position s.
Proof.
  intros [-> | Hnone]; unfold boot_eeprom_fallback.
  - destruct (eeprom_load_state s); reflexivity.
  - rewrite Hnone. reflexivity.
Qed.

(** ** PWM sample engine *)

Lemma lut_clamped : Forall duty_ok lut.
Proof.
  apply List.Forall_forall. intros v Hin. unfold lut in Hin.
  apply in_map_iff in Hin as (i & <- & _). unfold duty_ok. lia.
Qed.

Lemma py_index_elem {A} (l : list A) i x : py_index l i = Some x → x ∈ l.
Proof.
  unfold py_index. intros H.
  repeat case_match; try discriminate; eapply list_elem_of_lookup_2; eauto.
Qed.

Lemma py_index_in_range {A} (l : list A) i :
  0 ≤ i < Z.of_nat (length l) → is_Some (py_index l i).
Proof.
  intros Hi. unfold py_index.
  replace ((0 <=? i) && (i <? Z.of_nat (length l))) with true
    by (symmetry; apply andb_true_iff; split; [apply Z.leb_le | apply Z.ltb_lt]; lia).
  apply lookup_lt_is_Some. lia.
Qed.

Lemma lut_length : length lut = 256%nat.
Proof. reflexivity. Qed.

Lemma byte_index_lt (b : byte) : 0 ≤ Z.of_N (Byte.to_N b) < 256.
Proof. pose proof (Byte.to_N_bounded b). lia. Qed.

(** The fade-out interpolation stays between the midpoint and the table value. *)
Lemma fade_between (raw_duty fo2 remaining : Z) :
  0 < fo2 → 0 ≤ remaining ≤ fo2 →
  Z.min MID raw_duty ≤ MID + ((raw_duty - MID) * ((remaining * 256) / fo2)) / 256
    ≤ Z.max MID raw_duty.
Proof.
  intros Hfo Hrem.
  assert (Hs : 0 ≤ remaining * 256 / fo2 ≤ 256).
  { split; [apply Z.div_pos; lia |].
    apply Z.div_le_upper_bound; lia. }
  set (sv := remaining * 256 / fo2) in *.
  destruct (Z.le_gt_cases MID raw_duty) as [Hge | Hlt].
  - assert (0 ≤ (raw_duty - MID) * sv / 256 ≤ raw_duty - MID).
    { split; [apply Z.div_pos; nia |]. apply Z.div_le_upper_bound; nia. }
    lia.
  - assert (raw_duty - MID ≤ (raw_duty - MID) * sv / 256 ≤ 0).
    { split; [apply Z.div_le_lower_bound; nia |].
      assert ((raw_duty - MID) * sv / 256 < 1); [|lia].
      apply Z.div_lt_upper_bound; nia. }
    lia.
Qed.

Lemma isr_write_ok_range st duty : isr_write_ok st duty → duty_ok duty.
Proof.
  unfold isr_write_ok, duty_ok. case_match.
  - intros ->. unfold MID. lia.
  - intros (raw & Hin & Hb).
    pose proof lut_clamped as Hl. rewrite Forall_forall in Hl.
    specialize (Hl _ Hin). unfold duty_ok, MID in *. lia.
Qed.

Lemma isr_cb_step data st :
  isr_inv data st →
  ∃ duty st', isr_cb data st = Some (duty, st')
              ∧ isr_write_ok st duty ∧ isr_inv data st'.
Proof.
  intros [Hn Hidx]. unfold isr_cb, isr_write_ok.
  destruct (isr_idx st >=? isr_n st) eqn:Hend.
  - eexists _, _. split; [reflexivity |]. split; [reflexivity |].
    split; simpl; assumption.
  - assert (Hlt : isr_idx st < isr_n st) by lia.
    destruct (py_index_in_range data (isr_idx st)) as [sample Hs]; [lia |].
    rewrite Hs.
    destruct (py_index_in_range lut (Z.of_N (Byte.to_N sample))) as [raw Hr].
    { rewrite lut_length. apply byte_index_lt. }
    rewrite Hr. eexists _, _. split; [reflexivity |]. split.
    + exists raw. split; [eapply py_index_elem; eauto |].
      destruct ((fade_out_samples st >? 0)
                && (isr_idx st >=? isr_n st - fade_out_samples st)) eqn:Hf.
      * apply andb_true_iff in Hf as [Hf1 Hf2].
        replace (fade_out_samples st - (isr_idx st - (isr_n st - fade_out_samples st)) <? 0)
          with false by (symmetry; apply Z.ltb_ge; lia).
        apply fade_between; lia.
      * lia.
    + split; simpl; lia.
Qed.

Lemma isr_run_total data k : ∀ st,
  isr_inv data st →
  ∃ duties st', isr_run data k st = Some (duties, st') ∧ Forall duty_ok duties.
Proof.
  induction k as [| k IH]; intros st Hinv; simpl.
  - eexists _, _. split; [reflexivity | constructor].
  - destruct (isr_cb_step data st Hinv) as (duty & st1 & -> & Hw & Hinv1).
    destruct (IH st1 Hinv1) as (duties & st2 & -> & Hall).
    eexists _, _. split; [reflexivity |].
    constructor; [eapply isr_write_ok_range; eauto | assumption].
Qed.

Lemma arm_inv data fo : isr_inv data (arm data fo).
Proof. unfold isr_inv, arm. simpl. lia. Qed.

(** C10.  Every entry of the lookup table lies in 0..65535; from arming,
    any number of timer callbacks run without error and every duty they
    write lies in 0..65535; and each callback writes the midpoint at the
    end of the asset, otherwise a value between the midpoint and the table
    entry of the sample. *)
Theorem pwm_duty_within_u16 :
  Forall duty_ok lut
  ∧ (∀ (data : list byte) (fo : Z) (k : nat),
       ∃ duties st, isr_run data k (arm data fo) = Some (duties, st)
                    ∧ Forall duty_ok duties)
  ∧ (∀ (data : list byte) (fo : Z) (k : nat),
       match isr_run data k (arm data fo) with
       | Some (_, st) =>
           match isr_cb data st with
           | Some (duty, _) => isr_write_ok st duty
           | None => False
           end
       | None => False
       end).
Proof.
  split; [exact lut_clamped |]. split.
  - intros data fo k. apply isr_run_total, arm_inv.
  - intros data fo k.
    assert (Hinv : ∀ st, isr_inv data st →
              match isr_run data k st with
              | Some (_, st') => isr_inv data st'
              | None => False
              end).
    { induction k as [| k IH]; intros st Hst; simpl; [assumption |].
      destruct (isr_cb_step data st Hst) as (d & st1 & -> & _ & H1).
      specialize (IH st1 H1). destruct (isr_run data k st1) as [[? ?]|]; auto. }
    specialize (Hinv _ (arm_inv data fo)).
    destruct (isr_run data k (arm data fo)) as [[ds st]|]; [| assumption].
    destruct (isr_cb_step data st Hinv) as (d & st1 & -> & Hw & _). exact Hw.
Qed.

(** ** Clock chip: BCD, week seconds, setting and bus discovery *)

(** A boolean test that holds on every element of a range holds on each. *)
Lemma range_forallb (f : Z → bool) (lo : Z) (n : nat) :
  forallb f (map (fun k => lo + Z.of_nat k) (seq 0 n)) = true →
  ∀ v, lo ≤ v < lo + Z.of_nat n → f v = true.
Proof.
  intros Hall v Hv. rewrite forallb_forall in Hall. apply Hall.
  apply in_map_iff. exists (Z.to_nat (v - lo)). split; [lia |].
  apply in_seq. lia.
Qed.

Lemma bcd_round_trip_bool v :
  0 ≤ v ≤ 99 →
  (bcd_to_int (int_to_bcd v) =? v) && byte_ok (int_to_bcd v) = true.
Proof.
  intros Hv.
  apply (range_forallb
           (fun v => (bcd_to_int (int_to_bcd v) =? v) && byte_ok (int_to_bcd v))
           0 100); [vm_compute; reflexivity | lia].
Qed.

(** X1.  Every value 0..99 survives [int_to_bcd] followed by
    [bcd_to_int], and its BCD form fits one register byte. *)
Theorem bcd_round_trip (v : Z) :
  0 ≤ v ≤ 99 →
  bcd_to_int (int_to_bcd v) = v ∧ 0 ≤ int_to_bcd v ≤ 255.
Proof.
  intros Hv. pose proof (bcd_round_trip_bool v Hv) as H.
  apply andb_true_iff in H as [H1 H2]. apply Z.eqb_eq in H1.
  unfold byte_ok in H2. apply andb_true_iff in H2 as [H2 H3].
  apply Z.leb_le in H2. apply Z.leb_le in H3. auto.
Qed.

(** X1 for 59. *)
Lemma bcd_round_trip_witness :
  0 ≤ 59 ≤ 99 ∧ bcd_to_int (int_to_bcd 59) = 59 ∧ 0 ≤ int_to_bcd 59 ≤ 255.
Proof. split; [lia |]. apply (bcd_round_trip 59). lia. Defined.

Lemma bcd_masked (mask hi v : Z) :
  forallb (fun v => (bcd_to_int (Z.land (int_to_bcd v) mask) =? v))
    (map (fun k => 0 + Z.of_nat k) (seq 0 (Z.to_nat (hi + 1)))) = true →
  0 ≤ v ≤ hi → bcd_to_int (Z.land (int_to_bcd v) mask) = v.
Proof.
  intros Hall Hv. apply Z.eqb_eq.
  apply (range_forallb _ 0 (Z.to_nat (hi + 1)) Hall). lia.
Qed.

Lemma iso_weekday_range year month day dow :
  iso_weekday year month day = Some dow → 1 ≤ dow ≤ 7.
Proof.
  unfold iso_weekday.
  destruct (py_index _ _) as [tm |]; [| discriminate].
  intros [= <-].
  match goal with |- context [?x mod 7] => pose proof (Z.mod_pos_bound x 7) end.
  destruct (_ =? 0) eqn:E; [lia |]. apply Z.eqb_neq in E. lia.
Qed.

(** X2.  For a date-time with a calendar month and a time of day within
    range, [seconds_into_week] returns a value, and it lies in
    0 .. 604799. *)
Theorem seconds_into_week_range (dt : datetime) :
  1 ≤ dt_month dt ≤ 12 → 0 ≤ dt_hour dt ≤ 23 → 0 ≤ dt_minute dt ≤ 59 →
  0 ≤ dt_second dt ≤ 59 →
  ∃ sec, seconds_into_week dt = Some sec ∧ 0 ≤ sec < 604800.
Proof.
  intros Hm Hh Hmi Hs. unfold seconds_into_week.
  destruct (iso_weekday_month (dt_year dt) (dt_month dt) (dt_day dt) Hm) as [dow Hd].
  rewrite Hd. apply iso_weekday_range in Hd. eexists. split; [reflexivity |]. lia.
Qed.

(** X2 for Sunday 2026-11-08 23:59:59. *)
Lemma seconds_into_week_range_witness :
  ∃ sec, seconds_into_week (mkDt 2026 11 8 23 59 59) = Some sec
         ∧ 0 ≤ sec < 604800.
Proof.
  apply (seconds_into_week_range (mkDt 2026 11 8 23 59 59)); cbn; lia.
Defined.

(** X3.  Within a month, the weekday of the next day is the next
    weekday, Monday (1) following Sunday (7). *)
Theorem iso_weekday_next_day (year month day dow : Z) :
  iso_weekday year month day = Some dow →
  iso_weekday year month (day + 1) = Some (if dow =? 7 then 1 else dow + 1).
Proof.
  unfold iso_weekday.
  destruct (py_index _ _) as [tm |]; [| discriminate].
  intros [= <-]. f_equal.
  set (y := if month <? 3 then year - 1 else year).
  set (k := y + y / 4 - y / 100 + y / 400 + tm).
  replace (k + (day + 1)) with (k + day + 1) by lia.
  pose proof (Z.mod_pos_bound (k + day) 7 ltac:(lia)) as Hb.
  assert (Hstep : (k + day + 1) mod 7
                  = if (k + day) mod 7 =? 6 then 0 else (k + day) mod 7 + 1).
  { rewrite <- Zplus_mod_idemp_l.
    destruct ((k + day) mod 7 =? 6) eqn:E.
    - apply Z.eqb_eq in E. rewrite E. reflexivity.
    - apply Z.eqb_neq in E. apply Z.mod_small. lia. }
  rewrite Hstep.
  destruct ((k + day) mod 7 =? 0) eqn:E0; destruct ((k + day) mod 7 =? 6) eqn:E6;
    repeat match goal with
    | H : (_ =? _) = true |- _ => apply Z.eqb_eq in H
    | H : (_ =? _) = false |- _ => apply Z.eqb_neq in H
    end; try lia.
  - rewrite E0. reflexivity.
  - rewrite E6. reflexivity.
  - replace ((k + day) mod 7 + 1 =? 0) with false by (symmetry; apply Z.eqb_neq; lia).
    replace ((k + day) mod 7 =? 7) with false by (symmetry; apply Z.eqb_neq; lia).
    reflexivity.
Qed.

(** X3 for Sunday 2026-01-04. *)
Lemma iso_weekday_next_day_witness :
  iso_weekday 2026 1 4 = Some 7 ∧ iso_weekday 2026 1 5 = Some 1.
Proof.
  split; [reflexivity |]. exact (iso_weekday_next_day 2026 1 4 7 eq_refl).
Defined.

Lemma int_to_bcd_byte v : 0 ≤ v ≤ 99 → byte_ok (int_to_bcd v) = true.
Proof.
  intros Hv. pose proof (bcd_round_trip_bool v Hv) as H.
  apply andb_true_iff in H as [_ H]. exact H.
Qed.

Lemma osf_cleared status : (Z.land (Z.land status 127) 128 =? 0) = true.
Proof.
  apply Z.eqb_eq. rewrite <- Z.land_assoc. change (Z.land 127 128) with 0.
  apply Z.land_0_r.
Qed.

(** Setting the clock and reading it back. *)
Lemma rtc_write_datetime_sets_clock (dt : datetime) (s : State) :
  datetime_ok dt → i2c s = true → i2c_fault s = false →
  ∃ s', rtc_write_datetime dt s = Some (true, s')
        ∧ rtc_read_datetime s' = Some dt
        ∧ rtc_osf_set s' = false
        ∧ same_player s s'.
Proof.
  intros (Hy & Hmo & Hd & Hh & Hmi & Hs) Hbus Hfault.
  destruct dt as [year month day hour minute second]. cbn [dt_year dt_month dt_day
    dt_hour dt_minute dt_second] in *.
  unfold rtc_write_datetime. cbn [dt_year dt_month dt_day dt_hour dt_minute dt_second].
  rewrite Hbus. cbn [negb].
  replace ((2000 <=? year) && (year <=? 2099)) with true
    by (symmetry; apply andb_true_iff; split; apply Z.leb_le; lia).
  cbn [negb].
  destruct (iso_weekday_month year month day Hmo) as [dow Hdow]. rewrite Hdow.
  apply iso_weekday_range in Hdow.
  unfold py_bytes. cbn [forallb].
  rewrite !int_to_bcd_byte by lia. cbn [andb]. rewrite Hfault.
  eexists. split; [reflexivity |].
  split; [| split; [| repeat split]].
  - unfold rtc_read_datetime. cbn [i2c set_rtc i2c_fault rtc reg_sec reg_min reg_hour
      reg_date reg_month reg_year]. rewrite Hbus, Hfault. cbn [negb].
    assert (H24 : (Z.land (int_to_bcd hour) 64 =? 0) = true).
    { apply (range_forallb (fun v => Z.land (int_to_bcd v) 64 =? 0) 0 24);
        [vm_compute; reflexivity | lia]. }
    rewrite H24. cbn [negb].
    rewrite (bcd_masked 127 59 second) by first [lia | vm_compute; reflexivity].
    rewrite (bcd_masked 127 59 minute) by first [lia | vm_compute; reflexivity].
    rewrite (bcd_masked 63 23 hour) by first [lia | vm_compute; reflexivity].
    rewrite (bcd_masked 63 31 day) by first [lia | vm_compute; reflexivity].
    rewrite (bcd_masked 31 12 month) by first [lia | vm_compute; reflexivity].
    replace (int_to_bcd (year - 2000)) with (Z.land (int_to_bcd (year - 2000)) 255).
    2:{ pose proof (int_to_bcd_byte (year - 2000) ltac:(lia)) as Hb.
        unfold byte_ok in Hb. apply andb_true_iff in Hb as [Hb1 Hb2].
        apply Z.leb_le in Hb1. apply Z.leb_le in Hb2.
        rewrite land_255. apply Z.mod_small. lia. }
    rewrite (bcd_masked 255 99 (year - 2000)) by first [lia | vm_compute; reflexivity].
    do 2 f_equal. lia.
  - unfold rtc_osf_set. cbn [i2c set_rtc i2c_fault rtc reg_status].
    rewrite Hbus, Hfault. cbn [negb]. rewrite osf_cleared. reflexivity.
Qed.

(** X4.  Setting the clock and reading it back: for a date-time in
    2000..2099 with fields in range and a bus that answers,
    [rtc_write_datetime] returns True, [rtc_read_datetime] then returns
    that date-time, the oscillator-stop flag is cleared, and position,
    known tracks, decoder link and primary store are untouched. *)
Theorem rtc_write_read_round_trip (dt : datetime) (s : State) :
  datetime_ok dt → i2c s = true → i2c_fault s = false →
  ∃ s', rtc_write_datetime dt s = Some (true, s')
        ∧ rtc_read_datetime s' = Some dt
        ∧ rtc_osf_set s' = false
        ∧ same_player s s'.
Proof. apply rtc_write_datetime_sets_clock. Qed.

(** X4 for 2026-01-05 00:10:00. *)
Lemma rtc_write_read_round_trip_witness :
  ∃ s', rtc_write_datetime (mkDt 2026 1 5 0 10 0) (with_bus power_up) = Some (true, s')
        ∧ rtc_read_datetime s' = Some (mkDt 2026 1 5 0 10 0)
        ∧ rtc_osf_set s' = false
        ∧ same_player (with_bus power_up) s'.
Proof.
  apply (rtc_write_read_round_trip (mkDt 2026 1 5 0 10 0) (with_bus power_up));
    [unfold datetime_ok; cbn; lia | reflexivity | reflexivity].
Defined.

Lemma in_range_spec lo v hi : in_range lo v hi = true → lo ≤ v ≤ hi.
Proof.
  unfold in_range. intros H. apply andb_true_iff in H as [H1 H2].
  apply Z.leb_le in H1. apply Z.leb_le in H2. lia.
Qed.

Lemma parse_datetime_line_fields line dt :
  parse_datetime_line line = Some dt → datetime_ok dt.
Proof.
  unfold parse_datetime_line. intros H.
  repeat case_match; try discriminate.
  all: injection H as <-.
  all: repeat match goal with
       | H : negb _ = false |- _ => apply negb_false_iff in H
       | H : _ && _ = true |- _ => apply andb_true_iff in H as [? ?]
       | H : in_range _ _ _ = true |- _ => apply in_range_spec in H
       end.
  all: unfold datetime_ok; cbn; repeat split; lia.
Qed.

Lemma eeprom_write_loop_clock fuel : ∀ addr offset payload s,
  same_clock s (eeprom_write_loop fuel addr offset payload s).
Proof.
  induction fuel as [| fuel IH]; intros addr offset payload s; cbn [eeprom_write_loop].
  - repeat split.
  - destruct (offset <? Z.of_nat (length payload)); [| repeat split].
    match goal with
    | |- same_clock s (eeprom_write_loop fuel ?a ?o ?p ?x) =>
        destruct (IH a o p x) as (H1 & H2 & H3)
    end.
    unfold same_clock. rewrite H1, H2, H3. repeat split.
Qed.

Lemma eeprom_write_clock addr payload s r s' :
  eeprom_write addr payload s = (r, s') → same_clock s s'.
Proof.
  unfold eeprom_write.
  destruct (negb (bus_ready s)); [intros [= <- <-]; repeat split |].
  destruct (i2c_fault s); intros H; inversion H; subst; [repeat split |].
  apply eeprom_write_loop_clock.
Qed.

Lemma eeprom_save_state_clock flags album track s r s' :
  eeprom_save_state flags album track s = Some (r, s') → same_clock s s'.
Proof.
  unfold eeprom_save_state.
  destruct (negb (bus_ready s)); [intros [= <- <-]; repeat split |].
  destruct (_ && _); [intros [= <- <-]; repeat split |].
  destruct (match rtc_read_datetime s with Some dt => seconds_into_week dt | None => Some 0 end)
    as [week |]; [| intros [=]].
  destruct (eeprom_write _ _ s) as [[|] s1] eqn:Hw; intros H; inversion H; subst;
    apply eeprom_write_clock in Hw; [| exact Hw].
  destruct Hw as (H1 & H2 & H3). unfold same_clock. cbn. auto.
Qed.

Lemma same_clock_read s s' :
  same_clock s s' →
  rtc_read_datetime s' = rtc_read_datetime s ∧ rtc_osf_set s' = rtc_osf_set s.
Proof.
  intros (H1 & H2 & H3). unfold rtc_read_datetime, rtc_osf_set.
  rewrite H1, H2, H3. auto.
Qed.

(** X5.  On a bus that answers (the I2C object is there and no
    transfer fails), a date-time line accepted by [parse_datetime_line],
    received when the button forces the serial set or the
    oscillator-stop flag is raised, sets the clock to it:
    [maybe_set_rtc] returns True, the clock reads that date-time, the
    flag is cleared, the RTC-set bit enters [eeprom_flags], and position
    and known tracks stay. *)
Theorem serial_line_sets_clock
  (force_serial : bool) (c : ascii) (l : str) (dt : datetime) (s : State) :
  i2c s = true → i2c_fault s = false →
  force_serial = true ∨ rtc_osf_set s = true →
  parse_datetime_line (c :: l) = Some dt →
  ∃ s', maybe_set_rtc force_serial (Some (c :: l)) s = Some (true, s')
        ∧ rtc_read_datetime s' = Some dt
        ∧ rtc_osf_set s' = false
        ∧ eeprom_flags s' = Z.lor (eeprom_flags s) EEPROM_FLAG_RTC_SET
        ∧ current_album s' = current_album s
        ∧ current_track s' = current_track s
        ∧ KNOWN_TRACKS s' = KNOWN_TRACKS s.
Proof.
  intros Hbus Hfault Hgo Hparse.
  pose proof (parse_datetime_line_fields _ _ Hparse) as Hok.
  destruct (rtc_write_datetime_sets_clock dt s Hok Hbus Hfault)
    as (s3 & Hw & Hread & Hosf & Hpl).
  unfold maybe_set_rtc. rewrite Hbus. cbn [negb].
  change (match RTC_FORCE_BOOTSTRAP with true => _ | false => _ end)
    with (Some (inr s : State + State)).
  cbv iota.
  change (RTC_SERIAL_SET_MS >? 0) with true.
  replace (force_serial || rtc_osf_set s) with true
    by (destruct Hgo as [-> | ->]; [reflexivity | symmetry; apply orb_true_r]).
  cbn [andb]. unfold RTC_BOOTSTRAP_TIME.
  replace (if rtc_osf_set s then Some (inr s) else Some (inr s))
    with (Some (inr s : State + State)) by (destruct (rtc_osf_set s); reflexivity).
  rewrite Hparse, Hw.
  unfold rtc_was_set.
  set (s4 := set_eeprom_flags (Z.lor (eeprom_flags s3) EEPROM_FLAG_RTC_SET) s3).
  assert (Hread4 : rtc_read_datetime s4 = Some dt) by exact Hread.
  destruct (eeprom_save_state (eeprom_flags s4) (current_album s4) (current_track s4) s4)
    as [[r s5] |] eqn:He.
  - exists s5. split; [reflexivity |].
    pose proof (eeprom_save_state_clock _ _ _ _ _ _ He) as Hc.
    apply same_clock_read in Hc as [Hc1 Hc2].
    pose proof (eeprom_save_state_player _ _ _ _ _ _ He) as (P1 & P2 & P3 & _ & _ & P6 & _).
    destruct Hpl as (Q1 & Q2 & Q3 & _ & _ & Q6 & _).
    rewrite Hc1, Hc2, P1, P2, P3, P6. subst s4. cbn.
    rewrite Q1, Q2, Q3, Q6. repeat split; assumption.
  - exfalso. unfold eeprom_save_state in He.
    destruct (negb (bus_ready s4)); [discriminate |].
    destruct (_ && _); [discriminate |].
    rewrite Hread4 in He.
    destruct Hok as (_ & Hm & _ & Hh & Hmi & Hs).
    destruct (seconds_into_week_month dt Hm) as [w Hw']. rewrite Hw' in He.
    destruct (eeprom_write _ _ s4) as [[|] ?]; discriminate.
Qed.

(** X5 for the line "SET 2026-01-05 00:10:00" with the button held. *)
Lemma serial_line_sets_clock_witness :
  ∃ s', maybe_set_rtc true (Some (lit "SET 2026-01-05 00:10:00")) (with_bus power_up)
        = Some (true, s')
        ∧ rtc_read_datetime s' = Some (mkDt 2026 1 5 0 10 0)
        ∧ rtc_osf_set s' = false
        ∧ eeprom_flags s' = 1
        ∧ current_album s' = 1 ∧ current_track s' = 1 ∧ KNOWN_TRACKS s' = ∅.
Proof.
  apply (serial_line_sets_clock true "S" (lit "ET 2026-01-05 00:10:00")
           (mkDt 2026 1 5 0 10 0) (with_bus power_up));
    [reflexivity | reflexivity | left; reflexivity | reflexivity].
Defined.

(** X6.  Without a clock module the radio runs on the primary store
    alone: boot ends with what [load_state] produced, and alignment and
    both EEPROM operations are inert from then on. *)
Theorem rtc_absent_degrades
  (button_held : bool) (line : option str) (elapsed : Z) (s s2 : State) :
  rtc_init (load_state s).2 = (false, s2) →
  boot button_held line elapsed s = Some s2
  ∧ current_album s2 = current_album (load_state s).2
  ∧ current_track s2 = current_track (load_state s).2
  ∧ KNOWN_TRACKS s2 = KNOWN_TRACKS (load_state s).2
  ∧ align_to_time s2 = Some (false, s2)
  ∧ eeprom_load_state s2 = None
  ∧ ∀ flags album track, eeprom_save_state flags album track s2 = Some (false, s2).
Proof.
  intros Hinit.
  assert (Hs2 : i2c s2 = false ∧ current_album s2 = current_album (load_state s).2
                ∧ current_track s2 = current_track (load_state s).2
                ∧ KNOWN_TRACKS s2 = KNOWN_TRACKS (load_state s).2).
  { unfold rtc_init in Hinit. destruct (i2c_fault (load_state s).2);
      [injection Hinit as <-; repeat split |].
    destruct (existsb _ _); [discriminate |]. injection Hinit as <-. repeat split. }
  destruct Hs2 as (Hi2c & Ha & Ht & Hk).
  assert (Hload : eeprom_load_state s2 = None).
  { unfold eeprom_load_state, bus_ready. rewrite Hi2c. reflexivity. }
  split; [| repeat split; try assumption].
  - unfold boot, boot_until_alignment.
    destruct (load_state s) as [loaded s1]. cbn [snd] in Hinit. rewrite Hinit.
    unfold boot_eeprom_fallback. rewrite Hload. reflexivity.
  - unfold align_to_time, rtc_read_datetime. rewrite Hi2c. reflexivity.
  - intros. unfold eeprom_save_state, bus_ready. rewrite Hi2c. reflexivity.
Qed.

(** X6 on the power-up machine, whose bus scan finds nothing. *)
Lemma rtc_absent_degrades_witness :
  rtc_init (load_state power_up).2 = (false, set_i2c false (set_i2c true (load_state power_up).2))
  ∧ boot false None 0 power_up
    = Some (set_i2c false (set_i2c true (load_state power_up).2)).
Proof.
  assert (H : rtc_init (load_state power_up).2
              = (false, set_i2c false (set_i2c true (load_state power_up).2)))
    by reflexivity.
  split; [exact H |].
  exact (proj1 (rtc_absent_degrades false None 0 power_up _ H)).
Defined.

Lemma find_first (A : Type) (f : A → bool) (l : list A) x :
  List.find f l = Some x →
  ∃ l1 l2, l = l1 ++ x :: l2 ∧ f x = true ∧ Forall (fun y => f y = false) l1.
Proof.
  induction l as [| a l IH]; cbn [List.find]; [discriminate |].
  destruct (f a) eqn:Ha.
  - intros [= ->]. exists [], l. repeat split; [exact Ha | constructor].
  - intros H. destruct (IH H) as (l1 & l2 & -> & Hx & Hall).
    exists (a :: l1), l2. repeat split; [exact Hx | constructor; assumption].
Qed.

Lemma existsb_eqb_elem (a : Z) (l : list Z) : existsb (Z.eqb a) l = true ↔ a ∈ l.
Proof.
  rewrite existsb_exists. split.
  - intros (x & Hin & Hx). apply Z.eqb_eq in Hx. subst. apply list_elem_of_In. exact Hin.
  - intros Hin. exists a. split; [apply list_elem_of_In; exact Hin | apply Z.eqb_refl].
Qed.

(** X7.  With the clock module found, the EEPROM address is the lowest
    of 0x50..0x57 that answered the scan, or None when none did. *)
Theorem rtc_init_finds_lowest_eeprom (s s' : State) :
  rtc_init s = (true, s') →
  i2c s' = true ∧ RTC_ADDR ∈ i2c_devices s
  ∧ match eeprom_addr s' with
    | Some a =>
        a ∈ i2c_devices s ∧ 80 ≤ a ≤ 87
        ∧ ∀ b, 80 ≤ b < a → b ∉ i2c_devices s
    | None => ∀ b, 80 ≤ b ≤ 87 → b ∉ i2c_devices s
    end.
Proof.
  unfold rtc_init. destruct (i2c_fault s); [discriminate |].
  cbn [i2c_devices set_i2c].
  destruct (existsb (Z.eqb RTC_ADDR) (i2c_devices s)) eqn:Hrtc; [| discriminate].
  intros [= <-]. unfold detect_eeprom_addr. cbn [i2c set_i2c].
  split; [reflexivity |]. split; [apply existsb_eqb_elem; exact Hrtc |].
  cbn [eeprom_addr set_eeprom_addr].
  change (map Z.of_nat (seq (Z.to_nat EEPROM_BASE_ADDR)
                          (Z.to_nat (EEPROM_MAX_ADDR + 1 - EEPROM_BASE_ADDR))))
    with [80; 81; 82; 83; 84; 85; 86; 87].
  destruct (List.find _ _) as [a |] eqn:Hfind.
  - apply find_first in Hfind as (l1 & l2 & Hsplit & Ha & Hbefore).
    apply existsb_eqb_elem in Ha. split; [exact Ha |].
    assert (Hin : a ∈ [80; 81; 82; 83; 84; 85; 86; 87])
      by (rewrite Hsplit; apply elem_of_app; right; left).
    assert (Hrange : 80 ≤ a ≤ 87).
    { repeat (apply elem_of_cons in Hin as [-> | Hin]; [lia |]). inversion Hin. }
    split; [exact Hrange |]. intros b Hb Hbin.
    assert (Hbl : b ∈ l1).
    { assert (Hb8 : b ∈ [80; 81; 82; 83; 84; 85; 86; 87]).
      { assert (b = 80 ∨ b = 81 ∨ b = 82 ∨ b = 83 ∨ b = 84 ∨ b = 85 ∨ b = 86 ∨ b = 87)
          as Hc by lia.
        destruct Hc as [-> | [-> | [-> | [-> | [-> | [-> | [-> | ->]]]]]]];
          repeat first [left | right]. }
      rewrite Hsplit in Hb8. apply elem_of_app in Hb8 as [? | Hb8]; [assumption |].
      exfalso.
      assert (Hsorted : StronglySorted Z.lt [80; 81; 82; 83; 84; 85; 86; 87])
        by (repeat constructor).
      rewrite Hsplit in Hsorted.
      apply elem_of_cons in Hb8 as [-> | Hb8]; [lia |].
      change (l1 ++ a :: l2) with (l1 ++ [a] ++ l2) in Hsorted.
      rewrite app_assoc in Hsorted.
      pose proof (StronglySorted_app_1_elem_of Z.lt (l1 ++ [a]) l2 a b Hsorted) as Hlt.
      assert (a < b); [| lia].
      apply Hlt; [apply elem_of_app; right; left | exact Hb8]. }
    rewrite Forall_forall in Hbefore. specialize (Hbefore b Hbl).
    apply existsb_eqb_elem in Hbin. congruence.
  - intros b Hb Hbin. apply existsb_eqb_elem in Hbin.
    pose proof (find_none _ _ Hfind b) as Hn.
    rewrite Hn in Hbin; [discriminate |].
    assert (b = 80 ∨ b = 81 ∨ b = 82 ∨ b = 83 ∨ b = 84 ∨ b = 85 ∨ b = 86 ∨ b = 87)
      as Hc by lia.
    destruct Hc as [-> | [-> | [-> | [-> | [-> | [-> | [-> | ->]]]]]]]; cbn; auto 10.
Qed.

(** X7 for a scan that finds 0x68, 0x57 and 0x53. *)
Lemma rtc_init_finds_lowest_eeprom_witness :
  let s := set_i2c_devices [87; 104; 83] power_up in
  rtc_init s = (true, (rtc_init s).2)
  ∧ eeprom_addr (rtc_init s).2 = Some 83
  ∧ i2c (rtc_init s).2 = true ∧ RTC_ADDR ∈ i2c_devices s
  ∧ match eeprom_addr (rtc_init s).2 with
    | Some a =>
        a ∈ i2c_devices s ∧ 80 ≤ a ≤ 87 ∧ ∀ b, 80 ≤ b < a → b ∉ i2c_devices s
    | None => ∀ b, 80 ≤ b ≤ 87 → b ∉ i2c_devices s
    end.
Proof.
  intros s. split; [reflexivity |]. split; [reflexivity |].
  exact (rtc_init_finds_lowest_eeprom s (rtc_init s).2 eq_refl).
Defined.

(** X8.  Outside the rate-limit interval a save goes through: one page
    write at address 0, the time stamp moves to now, and the record
    reads back. *)
Theorem eeprom_save_outside_interval (flags album track : Z) (s : State) :
  bus_ready s = true → i2c_fault s = false → clock_month_ok s →
  last_eeprom_save_ms s = 0
  ∨ EEPROM_SAVE_MIN_MS ≤ ticks_diff (ticks s) (last_eeprom_save_ms s) →
  ∃ s', eeprom_save_state flags album track s = Some (true, s')
        ∧ last_eeprom_save_ms s' = ticks s
        ∧ eeprom_log s'
          = eeprom_log s
            ++ [(0, eeprom_payload flags album track (get_schedule_checksum s)
                      (get_schedule_mtime s) (week_reading s))]
        ∧ eeprom_load_state s'
          = Some (saved_record flags album track (get_schedule_checksum s)
                    (get_schedule_mtime s) (week_reading s)).
Proof.
  intros Hbus Hfault Hclock Hdue.
  assert (Hsave : ∃ s', eeprom_save_state flags album track s = Some (true, s')
                        ∧ last_eeprom_save_ms s' = ticks s
                        ∧ eeprom_log s'
                          = eeprom_log s
                            ++ [(0, eeprom_payload flags album track
                                      (get_schedule_checksum s)
                                      (get_schedule_mtime s) (week_reading s))]).
  { unfold eeprom_save_state, week_reading. rewrite Hbus. cbn [negb].
    replace (negb (last_eeprom_save_ms s =? 0)
             && (ticks_diff (ticks s) (last_eeprom_save_ms s) <? EEPROM_SAVE_MIN_MS))
      with false.
    2:{ symmetry. destruct Hdue as [-> | Hge]; [reflexivity |].
        apply andb_false_iff. right. apply Z.ltb_ge. exact Hge. }
    unfold clock_month_ok in Hclock.
    assert (Hweek : match rtc_read_datetime s with
                    | Some dt => seconds_into_week dt
                    | None => Some 0
                    end
                    = Some match rtc_read_datetime s with
                           | Some dt => default 0 (seconds_into_week dt)
                           | None => 0
                           end).
    { destruct (rtc_read_datetime s) as [dt |]; [| reflexivity].
      destruct (seconds_into_week_month dt Hclock) as [w ->]. reflexivity. }
    rewrite Hweek. unfold eeprom_write. rewrite Hbus, Hfault. cbn [negb].
    rewrite eeprom_write_loop_one_page by apply eeprom_payload_length.
    eexists. split; [reflexivity |]. split; reflexivity. }
  destruct Hsave as (s' & Hs & Hlast & Hlog).
  exists s'. repeat split; try assumption.
  destruct (eeprom_save_state_written _ _ _ _ _ Hs) as (Hb & Hf & Hmem).
  rewrite eeprom_load_state_bytes, Hmem by assumption.
  apply eeprom_decode_payload.
Qed.

(** X8 for a request exactly EEPROM_SAVE_MIN_MS after the last write. *)
Lemma eeprom_save_outside_interval_witness :
  ∃ s', eeprom_save_state 0 2 3 (advance_ticks 60000 rate_limit_scene) = Some (true, s')
        ∧ last_eeprom_save_ms s' = 120500.
Proof.
  destruct (eeprom_save_outside_interval 0 2 3 (advance_ticks 60000 rate_limit_scene))
    as (s' & H1 & H2 & _); [reflexivity | reflexivity | | | ].
  - unfold clock_month_ok. vm_compute. split; discriminate.
  - right. vm_compute. discriminate.
  - exists s'. split; [exact H1 | exact H2].
Defined.

(** ** EEPROM driver: checksum and page writes *)

Lemma zsum_perm l l' : l ≡ₚ l' → zsum l = zsum l'.
Proof.
  induction 1 as [| x l l' _ IH | x y l | l1 l2 l3 _ IH1 _ IH2]; cbn [zsum fold_right] in *.
  - reflexivity.
  - unfold zsum in IH. lia.
  - lia.
  - congruence.
Qed.

(** X9.  [checksum16] depends only on which bytes occur, not on their
    order: two payloads that are permutations of one another have the
    same checksum. *)
Theorem checksum16_permutation (l l' : list Z) :
  l ≡ₚ l' → checksum16 l = checksum16 l'.
Proof. intros H. rewrite !checksum16_sum, (zsum_perm l l' H). reflexivity. Qed.

(** X9 for album and track bytes exchanged. *)
Lemma checksum16_permutation_witness :
  [1; 2; 250; 7] ≡ₚ [250; 7; 2; 1]
  ∧ checksum16 [1; 2; 250; 7] = checksum16 [250; 7; 2; 1].
Proof.
  assert (H : [1; 2; 250; 7] ≡ₚ [250; 7; 2; 1]).
  { apply (Permutation_trans (l' := [2; 1; 250; 7])); [apply perm_swap |].
    apply (Permutation_trans (l' := [2; 1; 7; 250])); [do 2 apply perm_skip; apply perm_swap |].
    change [2; 1; 7; 250] with ([2; 1] ++ [7; 250]).
    change [250; 7; 2; 1] with ([250; 7] ++ [2; 1]).
    etransitivity; [apply Permutation_app_comm |].
    apply Permutation_app_tail. apply perm_swap. }
  split; [exact H | exact (checksum16_permutation _ _ H)].
Defined.

Lemma addr16 a :
  0 ≤ a < 65536 →
  Z.lor (Z.shiftl (Z.land (Z.shiftr a 8) 255) 8) (Z.land a 255) = a.
Proof.
  intros Ha.
  assert (Hhi : Z.land (Z.shiftr a 8) 255 = a / 256).
  { rewrite land_255, Z.shiftr_div_pow2 by lia. change (2 ^ 8) with 256.
    apply Z.mod_small. split; [apply Z.div_pos; lia |].
    apply Z.div_lt_upper_bound; lia. }
  rewrite Hhi.
  assert (Hdisj : Z.land (Z.shiftl (a / 256) 8) (Z.land a 255) = 0).
  { apply Z.bits_inj'. intros n Hn. rewrite Z.land_spec, Z.bits_0.
    destruct (Z.lt_ge_cases n 8) as [Hlt | Hge].
    - rewrite Z.shiftl_spec_low by lia. reflexivity.
    - change 255 with (Z.ones 8). rewrite Z.land_spec, Z.ones_spec_high by lia.
      rewrite !andb_false_r. reflexivity. }
  rewrite <- Z.lxor_lor by exact Hdisj.
  rewrite <- Z.add_nocarry_lxor by exact Hdisj.
  rewrite Z.shiftl_mul_pow2, land_255 by lia. change (2 ^ 8) with 256.
  pose proof (Z.div_mod a 256). lia.
Qed.

Lemma mem_store_app a c1 c2 mem x :
  mem_store (a + Z.of_nat (length c1)) c2 (mem_store a c1 mem) x
  = mem_store a (c1 ++ c2) mem x.
Proof.
  unfold mem_store.
  destruct (a + Z.of_nat (length c1) <=? x) eqn:H2.
  - apply Z.leb_le in H2.
    replace (a <=? x) with true by (symmetry; apply Z.leb_le; lia).
    rewrite (lookup_app_r c1 c2) by lia.
    replace (Z.to_nat (x - a) - length c1)%nat
      with (Z.to_nat (x - (a + Z.of_nat (length c1)))) by lia.
    destruct (c2 !! _) eqn:E; [reflexivity |].
    rewrite (lookup_ge_None_2 c1) by lia. reflexivity.
  - apply Z.leb_gt in H2. destruct (a <=? x) eqn:H1; [| reflexivity].
    apply Z.leb_le in H1.
    rewrite (lookup_app_l c1 c2) by lia. reflexivity.
Qed.

Lemma mem_store_nil a mem x : mem_store a [] mem x = mem x.
Proof. unfold mem_store. destruct (a <=? x); reflexivity. Qed.

Lemma mem_store_outside a chunk mem x :
  x < a ∨ a + Z.of_nat (length chunk) ≤ x → mem_store a chunk mem x = mem x.
Proof.
  intros Hx. unfold mem_store. destruct (a <=? x) eqn:H1; [| reflexivity].
  apply Z.leb_le in H1. rewrite lookup_ge_None_2 by lia. reflexivity.
Qed.

Lemma page_ok_chunk a n :
  0 ≤ a → 1 ≤ n ≤ EEPROM_PAGE_SIZE - a mod EEPROM_PAGE_SIZE →
  a / EEPROM_PAGE_SIZE = (a + n - 1) / EEPROM_PAGE_SIZE.
Proof.
  unfold EEPROM_PAGE_SIZE. intros Ha Hn.
  pose proof (Z.mod_pos_bound a 32 ltac:(lia)) as Hm.
  pose proof (Z.div_mod a 32 ltac:(lia)) as Hdm.
  apply (Z.div_unique (a + n - 1) 32 (a / 32) (a mod 32 + n - 1)); lia.
Qed.

Lemma eeprom_write_loop_spec addr payload :
  0 ≤ addr → addr + Z.of_nat (length payload) ≤ 65536 →
  ∀ fuel offset s,
    0 ≤ offset ≤ Z.of_nat (length payload) →
    Z.of_nat (length payload) - offset ≤ Z.of_nat fuel →
    ∃ chunks,
      eeprom_log (eeprom_write_loop fuel addr offset payload s)
      = eeprom_log s ++ chunks
      ∧ Forall page_ok chunks
      ∧ contiguous (addr + offset) chunks
      ∧ concat chunks.*2 = drop (Z.to_nat offset) payload
      ∧ ∀ x, eeprom_mem (eeprom_write_loop fuel addr offset payload s) x
             = mem_store (addr + offset) (drop (Z.to_nat offset) payload)
                 (eeprom_mem s) x.
Proof.
  intros Haddr Hend. set (total := Z.of_nat (length payload)) in *.
  assert (Hdone : ∀ fuel offset s, offset = total →
            ∃ chunks,
              eeprom_log (eeprom_write_loop fuel addr offset payload s)
              = eeprom_log s ++ chunks
              ∧ Forall page_ok chunks
              ∧ contiguous (addr + offset) chunks
              ∧ concat chunks.*2 = drop (Z.to_nat offset) payload
              ∧ ∀ x, eeprom_mem (eeprom_write_loop fuel addr offset payload s) x
                     = mem_store (addr + offset) (drop (Z.to_nat offset) payload)
                         (eeprom_mem s) x).
  { intros fuel offset s ->. rewrite eeprom_write_loop_done by (fold total; lia).
    exists []. rewrite app_nil_r.
    assert (Hnil : drop (Z.to_nat total) payload = []) by (apply drop_ge; lia).
    rewrite Hnil. repeat split; [constructor |].
    intros x. rewrite mem_store_nil. reflexivity. }
  induction fuel as [| fuel IH]; intros offset s Hoff Hfuel.
  - apply Hdone. lia.
  - destruct (Z.eq_dec offset total) as [Heq | Hne]; [apply Hdone; exact Heq |].
    cbn [eeprom_write_loop]. fold total.
    replace (offset <? total) with true by (symmetry; apply Z.ltb_lt; lia).
    set (a := addr + offset).
    set (n := Z.min (EEPROM_PAGE_SIZE - a mod EEPROM_PAGE_SIZE) (total - offset)).
    set (bytes := take (Z.to_nat n) (drop (Z.to_nat offset) payload)).
    pose proof (Z.mod_pos_bound a EEPROM_PAGE_SIZE ltac:(unfold EEPROM_PAGE_SIZE; lia)) as Hm.
    assert (Hn : 1 ≤ n ≤ total - offset ∧ n ≤ EEPROM_PAGE_SIZE - a mod EEPROM_PAGE_SIZE)
      by (subst n; lia).
    assert (Hlen : Z.of_nat (length bytes) = n).
    { subst bytes. rewrite length_take, length_drop. fold total. lia. }
    destruct (IH (offset + n) (eeprom_page_write a bytes s) ltac:(lia) ltac:(lia))
      as (chunks & Hlog & Hpages & Hcont & Hcat & Hmem).
    exists ((a, bytes) :: chunks).
    assert (Ha16 : Z.lor (Z.shiftl (Z.land (Z.shiftr a 8) 255) 8) (Z.land a 255) = a)
      by (apply addr16; subst a; lia).
    split; [| split; [| split; [| split]]].
    + rewrite Hlog. unfold eeprom_page_write. cbn [eeprom_log set_eeprom_log set_eeprom_mem].
      rewrite Ha16, <- app_assoc. reflexivity.
    + constructor; [| exact Hpages]. unfold page_ok. cbn [fst snd]. split.
      * intros Hnil. rewrite Hnil in Hlen. cbn in Hlen. lia.
      * rewrite Hlen. apply page_ok_chunk; [subst a; lia | lia].
    + cbn [contiguous fst snd]. split; [reflexivity |].
      rewrite Hlen. replace (a + n) with (addr + (offset + n)) by (subst a; lia).
      exact Hcont.
    + cbn [fmap list_fmap concat snd]. change (list_fmap _ _ snd chunks) with (chunks.*2).
      rewrite Hcat. subst bytes.
      replace (Z.to_nat (offset + n)) with (Z.to_nat offset + Z.to_nat n)%nat by lia.
      rewrite <- drop_drop. apply take_drop.
    + intros x. rewrite Hmem. unfold eeprom_page_write.
      cbn [eeprom_mem set_eeprom_log set_eeprom_mem]. rewrite Ha16.
      replace (addr + (offset + n)) with (a + Z.of_nat (length bytes)) by (subst a; lia).
      replace (drop (Z.to_nat (offset + n)) payload)
        with (drop (Z.to_nat n) (drop (Z.to_nat offset) payload)).
      2:{ rewrite drop_drop. f_equal. lia. }
      rewrite mem_store_app. subst bytes. rewrite take_drop. reflexivity.
Qed.

(** X10.  [eeprom_write] for any payload that fits the 16-bit address
    space: every byte lands, nothing else changes, the page writes
    follow one another and none crosses a 32-byte page boundary. *)
Theorem eeprom_write_pages (addr : Z) (payload : list Z) (s : State) :
  bus_ready s = true → i2c_fault s = false →
  0 ≤ addr → addr + Z.of_nat (length payload) ≤ 65536 →
  ∃ s' chunks,
    eeprom_write addr payload s = (true, s')
    ∧ eeprom_log s' = eeprom_log s ++ chunks
    ∧ Forall page_ok chunks
    ∧ contiguous addr chunks
    ∧ concat chunks.*2 = payload
    ∧ mem_bytes (eeprom_mem s') addr (length payload) = payload
    ∧ ∀ x, x < addr ∨ addr + Z.of_nat (length payload) ≤ x →
           eeprom_mem s' x = eeprom_mem s x.
Proof.
  intros Hbus Hfault Haddr Hend.
  destruct (eeprom_write_loop_spec addr payload Haddr Hend (length payload) 0 s
              ltac:(lia) ltac:(lia))
    as (chunks & Hlog & Hpages & Hcont & Hcat & Hmem).
  unfold eeprom_write. rewrite Hbus, Hfault. cbn [negb].
  eexists _, chunks. split; [reflexivity |].
  rewrite Z.add_0_r in *. change (Z.to_nat 0) with 0%nat in *. rewrite drop_0 in *.
  repeat split; try assumption.
  - apply list_eq. intros i.
    destruct (decide (i < length payload)%nat) as [Hi | Hi].
    + rewrite mem_bytes_lookup by lia. rewrite Hmem. unfold mem_store.
      replace (addr <=? addr + Z.of_nat i) with true by (symmetry; apply Z.leb_le; lia).
      replace (Z.to_nat (addr + Z.of_nat i - addr)) with i by lia.
      destruct (lookup_lt_is_Some_2 payload i Hi) as [b Hb]. rewrite Hb. reflexivity.
    + rewrite !lookup_ge_None_2; [reflexivity | lia |].
      rewrite mem_bytes_length. lia.
  - intros x Hx. rewrite Hmem. apply mem_store_outside. exact Hx.
Qed.

(** X10 for 50 bytes written from address 20 on. *)
Lemma eeprom_write_pages_witness :
  ∃ s' chunks,
    eeprom_write 20 (map Z.of_nat (seq 0 50)) (with_bus power_up) = (true, s')
    ∧ eeprom_log s' = eeprom_log (with_bus power_up) ++ chunks
    ∧ Forall page_ok chunks
    ∧ contiguous 20 chunks
    ∧ concat chunks.*2 = map Z.of_nat (seq 0 50)
    ∧ mem_bytes (eeprom_mem s') 20 50 = map Z.of_nat (seq 0 50)
    ∧ ∀ x, x < 20 ∨ 20 + Z.of_nat 50 ≤ x →
           eeprom_mem s' x = eeprom_mem (with_bus power_up) x.
Proof.
  apply (eeprom_write_pages 20 (map Z.of_nat (seq 0 50)) (with_bus power_up));
    [reflexivity | reflexivity | lia | cbn; lia].
Defined.

Example eeprom_write_three_pages :
  map (fun w => (w.1, length w.2))
    (eeprom_log (eeprom_write 20 (map Z.of_nat (seq 0 50)) (with_bus power_up)).2)
  = [(20, 12%nat); (32, 32%nat); (64, 6%nat)].
Proof. reflexivity. Qed.

(** ** Schedule file: lines, lookup and alignment *)

(** *** Text with trailing white space *)

Lemma lstrip_spaces_app ws r :
  Forall (fun c => is_space c = true) ws → lstrip (ws ++ r) = lstrip r.
Proof.
  induction 1 as [| c ws Hc _ IH]; cbn [app lstrip]; [reflexivity |].
  rewrite Hc. exact IH.
Qed.

Lemma strip_trailing_space s ws :
  Forall (fun c => is_space c = false) s →
  Forall (fun c => is_space c = true) ws →
  strip (s ++ ws) = s.
Proof.
  intros Hs Hws. unfold strip, rstrip.
  assert (Hrev : ∀ (P : ascii → Prop) l, Forall P l → Forall P (rev l)).
  { intros P l Hl. apply Forall_forall. intros c Hc. rewrite Forall_forall in Hl.
    apply Hl. apply list_elem_of_In. apply list_elem_of_In in Hc.
    apply in_rev. exact Hc. }
  destruct s as [| c s].
  - cbn [app]. rewrite <- (app_nil_r ws) at 1.
    rewrite lstrip_spaces_app by exact Hws. reflexivity.
  - assert (Hl : lstrip ((c :: s) ++ ws) = (c :: s) ++ ws).
    { cbn [app lstrip]. inversion Hs as [| ? ? Hc _]; subst. rewrite Hc. reflexivity. }
    rewrite Hl, rev_app_distr.
    rewrite lstrip_spaces_app by (apply Hrev; exact Hws).
    rewrite lstrip_no_space by (apply Hrev; exact Hs).
    apply rev_involutive.
Qed.

Lemma contains_lacks c s : lacks c s → contains c s = false.
Proof.
  unfold contains. induction 1 as [| x s Hx _ IH]; cbn [existsb]; [reflexivity |].
  rewrite IH, orb_false_r. rewrite Ascii.eqb_sym. exact Hx.
Qed.

Lemma contains_app_here c a b : contains c (a ++ c :: b) = true.
Proof.
  unfold contains. rewrite existsb_app. cbn [existsb].
  rewrite Ascii.eqb_refl, orb_true_r. reflexivity. 
Qed.

Lemma py_int_strip s : py_int (strip s) = py_int s.
Proof.
  unfold py_int.
  assert (Hidem : strip (strip s) = strip s); [| rewrite Hidem; reflexivity].
  unfold strip at 1.
  assert (Hl : ∀ t, lstrip (lstrip t) = lstrip t).
  { induction t as [| c t IH]; cbn [lstrip]; [reflexivity |].
    destruct (is_space c) eqn:E; [exact IH |]. cbn [lstrip]. rewrite E. reflexivity. }
  assert (Hhead : ∀ t, lstrip (rstrip (lstrip t)) = rstrip (lstrip t)).
  { intros t. unfold rstrip.
    destruct (lstrip t) as [| c u] eqn:Et; [reflexivity |].
    assert (Hc : is_space c = false).
    { clear -Et. induction t as [| x t IH]; cbn [lstrip] in Et; [discriminate |].
      destruct (is_space x) eqn:E; [apply IH; exact Et |]. injection Et as -> _. exact E. }
    cbn [rev].
    remember (rev u) as r eqn:Er. clear Er Et.
    (* the head [c] survives at the end of [lstrip (r ++ [c])] *)
    assert (Hex : ∃ v, lstrip (r ++ [c]) = v ++ [c]).
    { induction r as [| y r IHr]; cbn [app lstrip].
      - rewrite Hc. exists []. reflexivity.
      - destruct (is_space y); [exact IHr |]. exists (y :: r). reflexivity. }
    destruct Hex as [v ->]. rewrite rev_app_distr. cbn [rev app lstrip].
    rewrite Hc. reflexivity. }
  unfold strip. rewrite Hhead.
  unfold rstrip at 1. unfold rstrip at 1. rewrite rev_involutive, Hl. reflexivity.
Qed.

(** *** Durations and schedule lines *)

Lemma parse_duration_seconds (sec : Z) :
  parse_duration (str_of_Z sec) = Some sec.
Proof.
  unfold parse_duration.
  rewrite strip_no_space by apply str_of_Z_no_space.
  rewrite contains_lacks by (apply str_of_Z_lacks; reflexivity).
  apply py_int_str_of_Z.
Qed.

(** X11.  The spellings of a duration: plain seconds, MM:SS and
    HH:MM:SS give the number of seconds they spell; four fields, whatever
    the numbers, are refused. *)
Theorem parse_duration_forms (d h m sec : Z) :
  parse_duration (str_of_Z sec) = Some sec
  ∧ parse_duration (str_of_Z m ++ lit ":" ++ str_of_Z sec) = Some (m * 60 + sec)
  ∧ parse_duration (str_of_Z h ++ lit ":" ++ str_of_Z m ++ lit ":" ++ str_of_Z sec)
    = Some (h * 3600 + m * 60 + sec)
  ∧ parse_duration (str_of_Z d ++ lit ":" ++ str_of_Z h ++ lit ":"
                    ++ str_of_Z m ++ lit ":" ++ str_of_Z sec) = None.
Proof.
  assert (Hc : ∀ n, lacks ":" (str_of_Z n))
    by (intros; apply str_of_Z_lacks; reflexivity).
  assert (Hsp : ∀ n, Forall (fun c => is_space c = false) (str_of_Z n))
    by apply str_of_Z_no_space.
  assert (Hone : ∀ n rest, Forall (fun c => is_space c = false) rest →
            Forall (fun c => is_space c = false) (str_of_Z n ++ lit ":" ++ rest)).
  { intros n rest Hr. apply Forall_app. split; [apply Hsp |].
    apply Forall_app. split; [repeat constructor | exact Hr]. }
  split; [apply parse_duration_seconds |].
  unfold parse_duration. repeat split.
  - rewrite strip_no_space by (apply Hone, Hsp).
    change (lit ":" ++ str_of_Z sec) with (":"%char :: str_of_Z sec).
    rewrite contains_app_here.
    rewrite (split_on_app ":" (str_of_Z m)) by apply Hc.
    rewrite (split_on_lacks ":" (str_of_Z sec)) by apply Hc.
    cbn [mapM]. rewrite !py_int_str_of_Z. reflexivity.
  - rewrite strip_no_space by (apply Hone, Hone, Hsp).
    change (lit ":" ++ str_of_Z sec) with (":"%char :: str_of_Z sec).
    change (lit ":" ++ str_of_Z m ++ ?x) with (":"%char :: str_of_Z m ++ x).
    rewrite contains_app_here.
    rewrite (split_on_app ":" (str_of_Z h)) by apply Hc.
    rewrite (split_on_app ":" (str_of_Z m)) by apply Hc.
    rewrite (split_on_lacks ":" (str_of_Z sec)) by apply Hc.
    cbn [mapM]. rewrite !py_int_str_of_Z. reflexivity.
  - rewrite strip_no_space by (apply Hone, Hone, Hone, Hsp).
    change (lit ":" ++ str_of_Z sec) with (":"%char :: str_of_Z sec).
    change (lit ":" ++ str_of_Z m ++ ?x) with (":"%char :: str_of_Z m ++ x).
    change (lit ":" ++ str_of_Z h ++ ?x) with (":"%char :: str_of_Z h ++ x).
    rewrite contains_app_here.
    rewrite (split_on_app ":" (str_of_Z d)) by apply Hc.
    rewrite (split_on_app ":" (str_of_Z h)) by apply Hc.
    rewrite (split_on_app ":" (str_of_Z m)) by apply Hc.
    rewrite (split_on_lacks ":" (str_of_Z sec)) by apply Hc.
    cbn [mapM]. rewrite !py_int_str_of_Z. reflexivity.
Qed.

Lemma parse_schedule_line_plain raw ws :
  raw ≠ [] → Forall (fun c => is_space c = false) raw → lacks "#" raw →
  Forall (fun c => is_space c = true) ws →
  parse_schedule_line (raw ++ ws)
  = match map strip (split_on "," raw) with
    | p0 :: p1 :: p2 :: _ =>
        match py_int p0, py_int p1 with
        | Some folder, Some track =>
            match parse_duration p2 with
            | None => None
            | Some duration =>
                if duration <=? 0 then None
                else if (folder <? 1) || (track <? 1) then None
                else Some (folder, track, duration)
            end
        | _, _ => None
        end
    | _ => None
    end.
Proof.
  intros Hne Hsp Hhash Hws. unfold parse_schedule_line.
  rewrite strip_trailing_space by assumption.
  rewrite (contains_lacks "#" raw Hhash).
  destruct raw as [| c r]; [congruence |].
  assert (Hc : Ascii.eqb "#" c = false).
  { inversion Hhash as [| ? ? Hc0 _]; subst. rewrite Ascii.eqb_sym. exact Hc0. }
  cbn [lit list_ascii_of_string startswith]. rewrite Hc. reflexivity.
Qed.

(** X12.  A line "folder,track,seconds", followed by any white space,
    parses to the three numbers it spells when folder and track are at
    least 1 and the duration is positive. *)
Theorem parse_schedule_line_formatted (folder track duration : Z) (ws : str) :
  1 ≤ folder → 1 ≤ track → 0 < duration →
  Forall (fun c => is_space c = true) ws →
  parse_schedule_line
    (str_of_Z folder ++ lit "," ++ str_of_Z track ++ lit ","
     ++ str_of_Z duration ++ ws)
  = Some (folder, track, duration).
Proof.
  intros Hf Ht Hd Hws.
  replace (str_of_Z folder ++ lit "," ++ str_of_Z track ++ lit ","
           ++ str_of_Z duration ++ ws)
    with ((str_of_Z folder ++ lit "," ++ str_of_Z track ++ lit ","
           ++ str_of_Z duration) ++ ws)
    by (rewrite <- !app_assoc; reflexivity).
  rewrite parse_schedule_line_plain; [| | | | exact Hws].
  - change (lit "," ++ str_of_Z duration) with (","%char :: str_of_Z duration).
    change (lit "," ++ str_of_Z track ++ ?x) with (","%char :: str_of_Z track ++ x).
    rewrite (split_on_app "," (str_of_Z folder)) by (apply str_of_Z_lacks; reflexivity).
    rewrite (split_on_app "," (str_of_Z track)) by (apply str_of_Z_lacks; reflexivity).
    rewrite (split_on_lacks "," (str_of_Z duration)) by (apply str_of_Z_lacks; reflexivity).
    cbn [map]. rewrite !strip_no_space by apply str_of_Z_no_space.
    rewrite !py_int_str_of_Z.
    rewrite parse_duration_seconds.
    replace (duration <=? 0) with false by (symmetry; apply Z.leb_gt; lia).
    replace (folder <? 1) with false by (symmetry; apply Z.ltb_ge; lia).
    replace (track <? 1) with false by (symmetry; apply Z.ltb_ge; lia).
    reflexivity.
  - pose proof (str_of_Z_nonempty folder).
    destruct (str_of_Z folder); [congruence | discriminate].
  - apply Forall_app. split; [apply str_of_Z_no_space |].
    apply Forall_app. split; [repeat constructor |].
    apply Forall_app. split; [apply str_of_Z_no_space |].
    apply Forall_app. split; [repeat constructor | apply str_of_Z_no_space].
  - apply Forall_app. split; [apply str_of_Z_lacks; reflexivity |].
    apply Forall_app. split; [repeat constructor |].
    apply Forall_app. split; [apply str_of_Z_lacks; reflexivity |].
    apply Forall_app. split; [repeat constructor | apply str_of_Z_lacks; reflexivity].
Qed.

(** X12 for "3,4,600" followed by a blank and a carriage return. *)
Lemma parse_schedule_line_formatted_witness :
  parse_schedule_line (lit "3,4,600" ++ [" "%char; "013"%char]) = Some (3, 4, 600).
Proof.
  apply (parse_schedule_line_formatted 3 4 600 [" "%char; "013"%char]);
    [lia | lia | lia | repeat constructor].
Defined.

Lemma valid_entries_cons line lines :
  valid_entries (line :: lines)
  = match parse_schedule_line line with
    | Some (folder, track, duration) =>
        if folder >? MAX_ALBUM_NUM then valid_entries lines
        else (folder, track, duration) :: valid_entries lines
    | None => valid_entries lines
    end.
Proof.
  unfold valid_entries. cbn [omap list_omap].
  destruct (parse_schedule_line line) as [[[folder track] d] |]; [| reflexivity].
  destruct (folder >? MAX_ALBUM_NUM); reflexivity.
Qed.

Lemma scan_fold_entries x lines : ∀ acc : scan_acc,
  fold_left (scan_step x) lines acc
  = fold_left (scan_entry x) (valid_entries lines) acc.
Proof.
  induction lines as [| line lines IH]; intros [[found counts] n]; [reflexivity |].
  cbn [fold_left]. rewrite valid_entries_cons.
  unfold scan_step at 2.
  destruct (parse_schedule_line line) as [[[folder track] d] |]; [| apply IH].
  destruct (folder >? MAX_ALBUM_NUM); [apply IH |].
  cbn [fold_left]. rewrite IH. reflexivity.
Qed.

Lemma scan_schedule_entries x s :
  scan_schedule x s = fold_left (scan_entry x) (schedule_entries s) (None, ∅, 0).
Proof.
  unfold scan_schedule, schedule_entries, scan_lines.
  destruct (schedule_file s); [apply scan_fold_entries | reflexivity].
Qed.

Lemma valid_entries_ok lines :
  Forall (fun e : Z * Z * Z =>
            1 ≤ e.1.1 ≤ MAX_ALBUM_NUM ∧ 1 ≤ e.1.2 ∧ 0 < e.2)
         (valid_entries lines).
Proof.
  induction lines as [| line lines IH]; [constructor |].
  rewrite valid_entries_cons.
  destruct (parse_schedule_line line) as [[[folder track] d] |] eqn:E; [| exact IH].
  destruct (folder >? MAX_ALBUM_NUM) eqn:Ef; [exact IH |].
  constructor; [| exact IH]. cbn.
  apply parse_schedule_line_positive in E.
  rewrite Z.gtb_ltb in Ef. apply Z.ltb_ge in Ef. lia.
Qed.

Lemma schedule_entries_ok s :
  Forall (fun e : Z * Z * Z =>
            1 ≤ e.1.1 ≤ MAX_ALBUM_NUM ∧ 1 ≤ e.1.2 ∧ 0 < e.2)
         (schedule_entries s).
Proof.
  unfold schedule_entries. destruct (schedule_file s); [apply valid_entries_ok | constructor].
Qed.

Lemma durations_app a b : durations (a ++ b) = durations a + durations b.
Proof.
  unfold durations, zsum. induction a as [| e a IH]; cbn; [reflexivity | rewrite IH; lia].
Qed.

Lemma scan_entries_total x es : ∀ found counts n,
  (fold_left (scan_entry x) es (found, counts, n)).2 = n + durations es.
Proof.
  induction es as [| [[f t] d] es IH]; intros found counts n; cbn [fold_left].
  - cbn. lia.
  - unfold scan_entry at 2. rewrite IH. unfold durations, zsum. cbn. lia.
Qed.

Lemma scan_entries_found_keep x es : ∀ p counts n,
  (fold_left (scan_entry x) es (Some p, counts, n)).1.1 = Some p.
Proof.
  induction es as [| [[f t] d] es IH]; intros p counts n; cbn [fold_left];
    [reflexivity |].
  unfold scan_entry at 2. apply IH.
Qed.

(** The entry found is the first one whose running total exceeds the
    target. *)
Lemma scan_entries_found x es : ∀ counts n,
  n ≤ x < n + durations es →
  ∃ pre folder track d post,
    es = pre ++ (folder, track, d) :: post
    ∧ n + durations pre ≤ x < n + durations pre + d
    ∧ (fold_left (scan_entry x) es (None, counts, n)).1.1 = Some (folder, track).
Proof.
  induction es as [| [[f t] d] es IH]; intros counts n Hx.
  - unfold durations, zsum in Hx. cbn in Hx. lia.
  - cbn [fold_left]. unfold scan_entry at 2.
    destruct (x <? n + d) eqn:E.
    + apply Z.ltb_lt in E. exists [], f, t, d, es.
      split; [reflexivity |]. split; [unfold durations, zsum; cbn; lia |].
      apply scan_entries_found_keep.
    + apply Z.ltb_ge in E.
      destruct (IH (if t >? default 0 (counts !! f) then <[f := t]> counts else counts)
                  (n + d)) as (pre & f' & t' & d' & post & -> & Hr & Hf).
      { unfold durations, zsum in *. cbn in Hx. lia. }
      exists ((f, t, d) :: pre), f', t', d', post.
      split; [reflexivity |]. split; [| exact Hf].
      unfold durations, zsum in *. cbn. lia.
Qed.

Lemma scan_entries_found_in x es : ∀ found counts n p,
  (fold_left (scan_entry x) es (found, counts, n)).1.1 = Some p →
  found = Some p ∨ ∃ d, (p.1, p.2, d) ∈ es.
Proof.
  induction es as [| [[f t] d] es IH]; intros found counts n p; cbn [fold_left].
  - cbn. auto.
  - unfold scan_entry at 2. intros H. apply IH in H.
    destruct H as [H | [d' H]].
    + destruct found as [q |]; [left; exact H |].
      destruct (x <? n + d); [| discriminate].
      injection H as <-. right. exists d. cbn. apply elem_of_cons. left. reflexivity.
    + right. exists d'. apply elem_of_cons. right. exact H.
Qed.

(** The per-folder counts are an upper bound of every track scanned, and
    each count is a track of the list or was there before. *)
Lemma scan_entries_counts x es : ∀ found counts n,
  let r := (fold_left (scan_entry x) es (found, counts, n)).1.2 in
  (∀ f, default 0 (counts !! f) ≤ default 0 (r !! f))
  ∧ (∀ f t d, (f, t, d) ∈ es → t ≤ default 0 (r !! f))
  ∧ (∀ f k, r !! f = Some k → counts !! f = Some k ∨ ∃ d, (f, k, d) ∈ es).
Proof.
  induction es as [| [[f t] d] es IH]; intros found counts n; cbn [fold_left].
  - cbn. split; [intros; lia |]. split; [| auto].
    intros f t d H. apply elem_of_nil in H. contradiction.
  - unfold scan_entry at 2 4 6. cbv zeta.
    set (counts' := if t >? default 0 (counts !! f) then <[f := t]> counts else counts).
    set (found' := match found with
                   | Some _ => found
                   | None => if x <? n + d then Some (f, t) else None
                   end).
    specialize (IH found' counts' (n + d)). cbv zeta in IH.
    destruct IH as (Hmono & Hub & Hmem).
    assert (Hstep : ∀ g, default 0 (counts !! g) ≤ default 0 (counts' !! g)).
    { intros g. subst counts'. destruct (t >? default 0 (counts !! f)) eqn:E; [| lia].
      apply Z.gtb_lt in E. destruct (decide (g = f)) as [-> |].
      - rewrite lookup_insert_eq. cbn. lia.
      - rewrite lookup_insert_ne by congruence. lia. }
    assert (Hhere : t ≤ default 0 (counts' !! f)).
    { subst counts'. destruct (t >? default 0 (counts !! f)) eqn:E.
      - rewrite lookup_insert_eq. cbn. lia.
      - rewrite Z.gtb_ltb in E. apply Z.ltb_ge in E. exact E. }
    split; [| split].
    + intros g. specialize (Hstep g). specialize (Hmono g). lia.
    + intros g k e H. apply elem_of_cons in H. destruct H as [H | H].
      * injection H as -> -> ->. specialize (Hmono f). lia.
      * eapply Hub. exact H.
    + intros g k H. apply Hmem in H. destruct H as [H | [e H]].
      * subst counts'. destruct (t >? default 0 (counts !! f)).
        -- destruct (decide (g = f)) as [-> |].
           ++ rewrite lookup_insert_eq in H. injection H as <-.
              right. exists d. apply elem_of_cons. left. reflexivity.
           ++ rewrite lookup_insert_ne in H by congruence. left. exact H.
        -- left. exact H.
      * right. exists e. apply elem_of_cons. right. exact H.
Qed.

(** X13.  Every week second is covered: with a schedule of total
    duration T > 0 and S >= 0, [find_track_for_time] returns the entry
    whose time slot, counted from the start of the valid entries,
    contains S mod T, together with the total T. *)
Theorem schedule_lookup_slot (s : State) (S : Z) :
  let T := durations (schedule_entries s) in
  0 < T → 0 ≤ S →
  ∃ pre folder track d post,
    schedule_entries s = pre ++ (folder, track, d) :: post
    ∧ durations pre ≤ S mod T < durations pre + d
    ∧ (find_track_for_time S s).1.1 = Some (folder, track)
    ∧ (find_track_for_time S s).2 = T.
Proof.
  intros T HT HS.
  assert (HT0 : (scan_schedule 0 s).2 = T).
  { rewrite scan_schedule_entries, scan_entries_total. subst T. lia. }
  pose proof (find_track_for_time_wrapped S s) as Hw. cbv zeta in Hw.
  rewrite HT0 in Hw. rewrite Hw by assumption. cbn [fst snd].
  rewrite scan_schedule_entries.
  destruct (scan_entries_found (S mod T) (schedule_entries s) ∅ 0)
    as (pre & f & t & d & post & Hes & Hr & Hf).
  { fold T. pose proof (Z.mod_pos_bound S T HT). lia. }
  exists pre, f, t, d, post. repeat split; try assumption; lia.
Qed.

(** X13 on the two-entry schedule (T = 900) for S = 1000. *)
Lemma schedule_lookup_slot_witness :
  ∃ pre folder track d post,
    schedule_entries two_entry_schedule = pre ++ (folder, track, d) :: post
    ∧ durations pre ≤ 1000 mod 900 < durations pre + d
    ∧ (find_track_for_time 1000 two_entry_schedule).1.1 = Some (folder, track)
    ∧ (find_track_for_time 1000 two_entry_schedule).2 = 900.
Proof.
  apply (schedule_lookup_slot two_entry_schedule 1000); vm_compute; [reflexivity | discriminate].
Defined.

Lemma scan_schedule_counts (s : State) (x : Z) :
  let counts := (scan_schedule x s).1.2 in
  (∀ f t d, (f, t, d) ∈ schedule_entries s → t ≤ default 0 (counts !! f))
  ∧ (∀ f k, counts !! f = Some k →
       1 ≤ f ≤ MAX_ALBUM_NUM ∧ 1 ≤ k ∧ ∃ d, (f, k, d) ∈ schedule_entries s).
Proof.
  cbv zeta. rewrite scan_schedule_entries.
  destruct (scan_entries_counts x (schedule_entries s) None ∅ 0) as (_ & Hub & Hmem).
  split; [exact Hub |].
  intros f k H. apply Hmem in H. destruct H as [H | [d H]].
  - rewrite lookup_empty in H. discriminate.
  - pose proof (schedule_entries_ok s) as Hok. rewrite Forall_forall in Hok.
    specialize (Hok _ H). cbn in Hok. split; [lia |]. split; [lia |]. exists d. exact H.
Qed.

(** X14.  The counts a schedule scan returns are the per-folder maxima
    of the valid entries: every entry's track is at most the count of
    its folder, and every count belongs to a folder 1..99 and is the
    track of some entry of that folder. *)
Theorem schedule_counts_are_maxima (s : State) (x : Z) :
  let counts := (scan_schedule x s).1.2 in
  (∀ f t d, (f, t, d) ∈ schedule_entries s → t ≤ default 0 (counts !! f))
  ∧ (∀ f k, counts !! f = Some k →
       1 ≤ f ≤ MAX_ALBUM_NUM ∧ 1 ≤ k ∧ ∃ d, (f, k, d) ∈ schedule_entries s).
Proof. exact (scan_schedule_counts s x). Qed.

Lemma find_track_for_time_found x s a t counts total :
  find_track_for_time x s = (Some (a, t), counts, total) →
  counts = (scan_schedule x s).1.2 ∧ ∃ d, (a, t, d) ∈ schedule_entries s.
Proof.
  unfold find_track_for_time.
  destruct (scan_schedule x s) as [[found c] n] eqn:E.
  destruct (n <=? 0); [discriminate |].
  destruct found as [p |].
  - intros [= -> <- <-]. split; [reflexivity |].
    pose proof (scan_entries_found_in x (schedule_entries s) None ∅ 0 (a, t)) as H.
    rewrite <- scan_schedule_entries, E in H.
    destruct (H eq_refl) as [H0 | H0]; [discriminate | exact H0].
  - destruct (scan_schedule (x mod n) s) as [[found' c'] n'] eqn:E'.
    intros [= -> <- <-]. split; [reflexivity |].
    pose proof (scan_entries_found_in (x mod n) (schedule_entries s) None ∅ 0 (a, t)) as H.
    rewrite <- scan_schedule_entries, E' in H.
    destruct (H eq_refl) as [H0 | H0]; [discriminate | exact H0].
Qed.

Lemma align_to_time_true (s s' : State) :
  align_to_time s = Some (true, s') →
  (∃ d, (current_album s', current_track s', d) ∈ schedule_entries s)
  ∧ 1 ≤ current_album s' ≤ MAX_ALBUM_NUM
  ∧ 1 ≤ current_track s' ≤ known_bound (current_album s') s'
  ∧ album_file s'
    = Some (state_payload (current_album s') (current_track s') (KNOWN_TRACKS s'))
  ∧ uart_tx s' = uart_tx s.
Proof.
  unfold align_to_time.
  destruct (rtc_read_datetime s) as [dt |]; [| discriminate].
  destruct (seconds_into_week dt) as [target |]; [| discriminate].
  destruct (find_track_for_time target s) as [[found counts] total] eqn:E.
  destruct found as [[a t] |]; [| discriminate].
  intros [= <-].
  apply find_track_for_time_found in E. destruct E as [Hc [d Hd]].
  destruct (scan_schedule_counts s target) as [Hub _]. cbv zeta in Hub.
  rewrite <- Hc in Hub. specialize (Hub _ _ _ Hd).
  pose proof (schedule_entries_ok s) as Hok. rewrite Forall_forall in Hok.
  specialize (Hok _ Hd). cbn in Hok.
  assert (Hne : counts ≠ ∅).
  { intros ->. rewrite lookup_empty in Hub. cbn in Hub. lia. }
  rewrite bool_decide_eq_false_2 by exact Hne.
  set (s2 := set_KNOWN_TRACKS counts (set_current_track t (set_current_album a s))).
  destruct (save_state_position s2) as (Ha & Ht & Hk & Htx).
  rewrite save_state_album_file. unfold known_bound.
  rewrite Ha, Ht, Hk, Htx. subst s2. cbn.
  split; [exists d; exact Hd |]. repeat split; try lia. 
Qed.

Lemma align_to_time_false (s s' : State) :
  align_to_time s = Some (false, s') → s' = s.
Proof.
  unfold align_to_time.
  destruct (rtc_read_datetime s) as [dt |]; [| intros [= <-]; reflexivity].
  destruct (seconds_into_week dt) as [target |]; [| discriminate].
  destruct (find_track_for_time target s) as [[found counts] total].
  destruct found as [[a t] |]; [discriminate | intros [= <-]; reflexivity].
Qed.

(** X15.  A successful alignment leaves the player on an entry of the
    schedule: album within 1..99, track within 1..KNOWN_TRACKS[album],
    the position already written to the primary store, and nothing sent
    to the decoder. *)
Theorem align_to_time_position (s s' : State) :
  align_to_time s = Some (true, s') →
  (∃ d, (current_album s', current_track s', d) ∈ schedule_entries s)
  ∧ 1 ≤ current_album s' ≤ MAX_ALBUM_NUM
  ∧ 1 ≤ current_track s' ≤ known_bound (current_album s') s'
  ∧ album_file s'
    = Some (state_payload (current_album s') (current_track s') (KNOWN_TRACKS s'))
  ∧ uart_tx s' = uart_tx s.
Proof. exact (align_to_time_true s s'). Qed.

(** X15 on a two-track weekly schedule of album 3. *)
Lemma align_to_time_position_witness :
  ∃ s', align_to_time realign_scene = Some (true, s')
    ∧ 1 ≤ current_track s' ≤ known_bound (current_album s') s'.
Proof.
  destruct (align_to_time realign_scene) as [[[|] s'] |] eqn:E;
    try (vm_compute in E; discriminate).
  exists s'. split; [reflexivity |].
  exact (proj1 (proj2 (proj2 (align_to_time_position realign_scene s' E)))).
Defined.

(** ** Decoder frames, position and persistence under navigation *)

(** *** Frames on the decoder link *)

Lemma frame_shape cmd p1 p2 :
  0 ≤ cmd ≤ 255 →
  ∃ hi lo,
    frame cmd p1 p2
    = [126; 255; 6; cmd; 0; Z.land p1 255; Z.land p2 255; hi; lo; 239]
    ∧ 0 ≤ hi ≤ 255 ∧ 0 ≤ lo ≤ 255
    ∧ (255 + 6 + cmd + 0 + Z.land p1 255 + Z.land p2 255 + 256 * hi + lo)
      mod 65536 = 0.
Proof.
  intros Hcmd. unfold frame, df_packet, py_bytes.
  cbn [forallb]. rewrite !byte_ok_land.
  assert (Hb : byte_ok cmd = true).
  { unfold byte_ok. apply andb_true_iff. split; apply Z.leb_le; lia. }
  rewrite Hb. cbn [byte_ok andb Z.leb Z.compare Pos.compare Pos.compare_cont].
  cbn [take drop firstn skipn fold_right app default from_option id].
  set (total := 255 + (6 + (cmd + (0 + (Z.land p1 255 + (Z.land p2 255 + 0)))))).
  set (csum := Z.land (- total) 65535).
  exists (Z.land (Z.shiftr csum 8) 255), (Z.land csum 255).
  split; [reflexivity |]. split; [apply land_255_byte |]. split; [apply land_255_byte |].
  assert (Hc : 0 ≤ csum < 65536).
  { subst csum. rewrite land_65535. apply Z.mod_pos_bound. lia. }
  pose proof (le_value_2 csum Hc) as Hle. cbn [le_value] in Hle.
  replace (255 + 6 + cmd + 0 + Z.land p1 255 + Z.land p2 255
           + 256 * Z.land (Z.shiftr csum 8) 255 + Z.land csum 255)
    with (total + csum) by (subst total; lia).
  subst csum. rewrite land_65535.
  rewrite Zplus_mod_idemp_r. replace (total + - total) with 0 by lia. reflexivity.
Qed.

Lemma frame_ok_frame cmd p1 p2 :
  cmd = 63 ∨ cmd = 15 ∨ cmd = 22 ∨ (cmd = 6 ∧ p1 = 0 ∧ 0 ≤ p2 ≤ 30) →
  frame_ok (frame cmd p1 p2) = true.
Proof.
  intros Hcmd.
  destruct (frame_shape cmd p1 p2) as (hi & lo & -> & Hhi & Hlo & Hsum); [lia |].
  pose proof (land_255_byte p1) as H1. pose proof (land_255_byte p2) as H2.
  unfold frame_ok. cbn [forallb byte_ok].
  replace (255 + 6 + cmd + 0 + Z.land p1 255 + Z.land p2 255 + 256 * hi + lo)
    with (255 + 6 + cmd + 0 + Z.land p1 255 + Z.land p2 255 + 256 * hi + lo) by lia.
  rewrite Hsum.
  repeat (apply andb_true_iff; split); try reflexivity;
    try (apply Z.leb_le; lia).
  - cbn [existsb]. destruct Hcmd as [-> | [-> | [-> | [-> _]]]]; reflexivity.
  - destruct Hcmd as [-> | [-> | [-> | (-> & -> & Hp)]]]; try reflexivity.
    cbn [Z.eqb Pos.eqb]. change (Z.land 0 255) with 0. cbn [Z.eqb andb].
    rewrite land_255, Z.mod_small by lia. apply Z.leb_le. lia.
Qed.

Lemma sends_ok_refl s : sends_ok s s.
Proof. exists []. rewrite app_nil_r. split; [reflexivity | constructor]. Qed.

Lemma sends_ok_trans s1 s2 s3 : sends_ok s1 s2 → sends_ok s2 s3 → sends_ok s1 s3.
Proof.
  intros (l1 & H1 & F1) (l2 & H2 & F2). exists (l1 ++ l2).
  rewrite H2, H1, app_assoc. split; [reflexivity | apply Forall_app; auto].
Qed.

Lemma sends_ok_same s s' : uart_tx s' = uart_tx s → sends_ok s s'.
Proof. intros H. exists []. rewrite app_nil_r. split; [exact H | constructor]. Qed.

Lemma sends_ok_df_send cmd p1 p2 s :
  cmd = 63 ∨ cmd = 15 ∨ cmd = 22 ∨ (cmd = 6 ∧ p1 = 0 ∧ 0 ≤ p2 ≤ 30) →
  sends_ok s (df_send cmd p1 p2 s).
Proof.
  intros Hcmd. exists [frame cmd p1 p2]. split.
  - assert (Hb : byte_ok cmd = true)
      by (destruct Hcmd as [-> | [-> | [-> | [-> _]]]]; reflexivity).
    pose proof (view_df_send cmd p1 p2 s _ _ _ _ Hb eq_refl) as Hv.
    unfold view in Hv. injection Hv as _ _ _ Hv. exact Hv.
  - constructor; [apply frame_ok_frame; exact Hcmd | constructor].
Qed.

Lemma sends_ok_df_stop s : sends_ok s (df_stop s).
Proof. unfold df_stop. apply sends_ok_df_send. auto. Qed.

Lemma sends_ok_df_reset s : sends_ok s (df_reset s).
Proof. unfold df_reset. apply sends_ok_df_send. auto. Qed.

Lemma sends_ok_df_play folder track s : sends_ok s (df_play_folder_track folder track s).
Proof. unfold df_play_folder_track. apply sends_ok_df_send. auto. Qed.

Lemma sends_ok_df_set_vol v s : sends_ok s (df_set_vol v s).
Proof. unfold df_set_vol. apply sends_ok_df_send. right. right. right. lia. Qed.

Lemma sends_ok_save_state s : sends_ok s (save_state s).
Proof. apply sends_ok_same. apply save_state_position. Qed.

Lemma sends_ok_note_track_learned album track s :
  sends_ok s (note_track_learned album track s).
Proof.
  unfold note_track_learned. destruct (_ >? _); [| apply sends_ok_refl].
  eapply sends_ok_trans; [| apply sends_ok_save_state]. apply sends_ok_same. reflexivity.
Qed.

Lemma sends_ok_play_current c s : sends_ok s (play_current c s).2.
Proof.
  unfold play_current. destruct c; cbn [snd].
  - eapply sends_ok_trans; [apply sends_ok_df_stop |].
    eapply sends_ok_trans; [apply sends_ok_df_play |].
    eapply sends_ok_trans; [apply sends_ok_note_track_learned |].
    apply sends_ok_same. reflexivity.
  - eapply sends_ok_trans; [apply sends_ok_df_stop | apply sends_ok_df_play].
Qed.

Lemma sends_ok_set_current_track v s : sends_ok s (set_current_track v s).
Proof. apply sends_ok_same. reflexivity. Qed.

Lemma sends_ok_set_current_album v s : sends_ok s (set_current_album v s).
Proof. apply sends_ok_same. reflexivity. Qed.

Lemma sends_ok_fade fade : ∀ s,
  sends_ok s (fold_left (fun st v => df_set_vol v st) fade s).
Proof.
  induction fade as [| v fade IH]; intros s; cbn [fold_left]; [apply sends_ok_refl |].
  eapply sends_ok_trans; [| apply IH]. apply sends_ok_df_set_vol.
Qed.

Ltac sends_chain :=
  lazymatch goal with
  | |- sends_ok ?a ?a => apply sends_ok_refl
  | |- sends_ok _ (save_state _) =>
      (eapply sends_ok_trans; [| apply sends_ok_save_state]); sends_chain
  | |- sends_ok _ (df_stop _) =>
      (eapply sends_ok_trans; [| apply sends_ok_df_stop]); sends_chain
  | |- sends_ok _ (df_reset _) =>
      (eapply sends_ok_trans; [| apply sends_ok_df_reset]); sends_chain
  | |- sends_ok _ (df_play_folder_track _ _ _) =>
      (eapply sends_ok_trans; [| apply sends_ok_df_play]); sends_chain
  | |- sends_ok _ (df_set_vol _ _) =>
      (eapply sends_ok_trans; [| apply sends_ok_df_set_vol]); sends_chain
  | |- sends_ok _ (note_track_learned _ _ _) =>
      (eapply sends_ok_trans; [| apply sends_ok_note_track_learned]); sends_chain
  | |- sends_ok _ (snd (play_current _ _)) =>
      (eapply sends_ok_trans; [| apply sends_ok_play_current]); sends_chain
  | |- sends_ok _ (set_current_track _ _) =>
      (eapply sends_ok_trans; [| apply sends_ok_set_current_track]); sends_chain
  | |- sends_ok _ (set_current_album _ _) =>
      (eapply sends_ok_trans; [| apply sends_ok_set_current_album]); sends_chain
  | |- sends_ok _ (fold_left (fun st v => df_set_vol v st) _ _) =>
      (eapply sends_ok_trans; [| apply sends_ok_fade]); sends_chain
  | H : sends_ok ?a ?b |- sends_ok ?a ?b => exact H
  end.

Lemma sends_ok_next_track max_known c1 c2 s :
  sends_ok s (next_track max_known c1 c2 s).
Proof.
  unfold next_track. cbv zeta. destruct (_ <=? _); [sends_chain |].
  destruct (play_current c1 (set_current_track (current_track s + 1) s))
    as [ok s1] eqn:Hp.
  assert (H1 : sends_ok s s1).
  { change s1 with (ok, s1).2. rewrite <- Hp. sends_chain. }
  destruct (negb ok); sends_chain.
Qed.

Lemma sends_ok_long_press c1 c2 s : sends_ok s (long_press c1 c2 s).
Proof.
  unfold long_press. cbv zeta.
  match goal with
  | |- context [play_current c1 ?x] =>
      destruct (play_current c1 x) as [ok s2] eqn:Hp;
      assert (H1 : sends_ok s s2)
        by (change s2 with (ok, s2).2; rewrite <- Hp; sends_chain)
  end.
  destruct (negb ok); sends_chain.
Qed.

Lemma sends_ok_taps_decided n c1 c2 s : sends_ok s (taps_decided n c1 c2 s).
Proof.
  unfold taps_decided. cbv zeta. destruct (n >=? 3); [sends_chain |].
  destruct (n =? 2); [sends_chain |]. apply sends_ok_next_track.
Qed.

Lemma sends_ok_start_sequence_synced fade c1 c2 s :
  sends_ok s (start_sequence_synced fade c1 c2 s).
Proof.
  unfold start_sequence_synced, play_am_and_fade_df_confirming. cbv zeta.
  destruct c1; [sends_chain |]. destruct c2; sends_chain.
Qed.

Lemma sends_ok_nav_step e s : sends_ok s (nav_step e s).
Proof.
  destruct e; cbn [nav_step].
  - apply sends_ok_note_track_learned.
  - apply sends_ok_long_press.
  - apply sends_ok_taps_decided.
  - apply sends_ok_next_track.
  - unfold power_off. sends_chain.
  - apply sends_ok_start_sequence_synced.
Qed.

Lemma sends_ok_nav_run events : ∀ s, sends_ok s (nav_run events s).
Proof.
  induction events as [| e events IH]; intros s; cbn [nav_run fold_left].
  - apply sends_ok_refl.
  - eapply sends_ok_trans; [apply sends_ok_nav_step | apply IH].
Qed.

(** X16.  Whatever the button, BUSY and power events and whatever the
    fade levels computed, every frame put on the decoder link is
    well-formed (ten bytes, one of the four commands, checksum that
    closes the sum to zero), and every volume frame carries a level in
    0..30. *)
Theorem decoder_link_frames_well_formed (events : list nav_event) (s : State) :
  Forall (fun p => frame_ok p = true) (uart_tx s) →
  Forall (fun p => frame_ok p = true) (uart_tx (nav_run events s)).
Proof.
  intros H. destruct (sends_ok_nav_run events s) as (l & -> & Hl).
  apply Forall_app. split; assumption.
Qed.

(** X16 for a start sequence whose fade asks for level 40, a tap, a
    long press and a power-off. *)
Lemma decoder_link_frames_well_formed_witness :
  Forall (fun p => frame_ok p = true)
    (uart_tx (nav_run [StartSequence [0; 14; 28; 40] false true; Taps 1 false true;
                       LongPress true true; PowerOff] power_up)).
Proof.
  apply (decoder_link_frames_well_formed
           [StartSequence [0; 14; 28; 40] false true; Taps 1 false true;
            LongPress true true; PowerOff] power_up).
  constructor.
Defined.

(** *** Position and persistence under navigation *)

Lemma synced_save_state s : synced (save_state s).
Proof.
  unfold synced. rewrite save_state_album_file.
  destruct (save_state_position s) as (-> & -> & -> & _). reflexivity.
Qed.

Lemma synced_df_send cmd p1 p2 s : synced s → synced (df_send cmd p1 p2 s).
Proof. unfold synced, df_send. destruct (df_packet cmd p1 p2); auto. Qed.

Lemma synced_note_track_learned album track s :
  synced s → synced (note_track_learned album track s).
Proof.
  unfold note_track_learned. destruct (_ >? _); [intros _; apply synced_save_state | auto].
Qed.

Lemma synced_play_current c s : synced s → synced (play_current c s).2.
Proof.
  intros H. unfold play_current, df_play_folder_track, df_stop. destruct c; cbn [snd].
  - match goal with
    | |- synced (set_ignore_busy_until _ ?x) => assert (Hx : synced x); [| exact Hx]
    end.
    apply synced_note_track_learned. do 2 apply synced_df_send. exact H.
  - do 2 apply synced_df_send. exact H.
Qed.

Lemma synced_next_track max_known c1 c2 s : synced (next_track max_known c1 c2 s).
Proof.
  unfold next_track. cbv zeta. destruct (_ <=? _).
  - apply synced_play_current, synced_save_state.
  - destruct (play_current c1 (set_current_track (current_track s + 1) s))
      as [ok s1].
    destruct (negb ok); [| apply synced_save_state].
    apply synced_play_current, synced_save_state.
Qed.

Lemma synced_long_press c1 c2 s : synced (long_press c1 c2 s).
Proof.
  unfold long_press. cbv zeta.
  match goal with
  | |- context [play_current c1 ?x] =>
      assert (H1 : synced (play_current c1 x).2)
        by apply synced_play_current, synced_save_state;
      destruct (play_current c1 x) as [ok s2]
  end.
  destruct (negb ok); [| exact H1].
  apply synced_play_current, synced_save_state.
Qed.

Lemma synced_taps_decided n c1 c2 s : synced (taps_decided n c1 c2 s).
Proof.
  unfold taps_decided. cbv zeta.
  destruct (n >=? 3); [apply synced_play_current, synced_save_state |].
  destruct (n =? 2); [apply synced_play_current, synced_save_state |].
  apply synced_next_track.
Qed.

Lemma synced_fade fade : ∀ s,
  synced s → synced (fold_left (fun st v => df_set_vol v st) fade s).
Proof.
  induction fade as [| v fade IH]; intros s H; cbn [fold_left]; [exact H |].
  apply IH. unfold df_set_vol. apply synced_df_send. exact H.
Qed.

Lemma synced_start_sequence_synced fade c1 c2 s :
  synced s → synced (start_sequence_synced fade c1 c2 s).
Proof.
  intros H. unfold start_sequence_synced, play_am_and_fade_df_confirming. cbv zeta.
  destruct c1; [apply synced_save_state |].
  destruct c2; [apply synced_save_state |].
  unfold df_play_folder_track, df_stop, df_set_vol, df_reset.
  do 4 apply synced_df_send. apply synced_fade. do 4 apply synced_df_send. exact H.
Qed.

Lemma synced_nav_step e s :
  saves e = true ∨ synced s → synced (nav_step e s).
Proof.
  intros H. destruct e; cbn [nav_step saves] in *.
  - destruct H as [H | H]; [discriminate |]. apply synced_note_track_learned, H.
  - apply synced_long_press.
  - apply synced_taps_decided.
  - apply synced_next_track.
  - unfold power_off, df_stop. apply (synced_df_send 22 0 0), synced_save_state.
  - destruct H as [H | H]; [discriminate |]. apply synced_start_sequence_synced, H.
Qed.

Lemma synced_nav_run events : ∀ s, synced s → synced (nav_run events s).
Proof.
  induction events as [| e events IH]; intros s H; cbn [nav_run fold_left]; [exact H |].
  apply IH. apply synced_nav_step. right. exact H.
Qed.

Lemma synced_load_state s :
  synced s → load_state (set_position 1 1 ∅ s) = (true, s).
Proof.
  unfold synced, load_state. intros H.
  change (album_file (set_position 1 1 ∅ s)) with (album_file s). rewrite H.
  rewrite parse_state_state_payload. destruct s. reflexivity.
Qed.

(** X17.  After a long press, a tap decision, an automatic advance or a
    power-off, and whatever [note_track_learned] calls and start
    sequences follow, the primary store holds the position and the
    known tracks of the globals: a reboot, which starts from empty
    globals, gets exactly them back from [load_state]. *)
Theorem navigation_survives_reboot
  (e : nav_event) (events : list nav_event) (s : State) :
  saves e = true →
  let s' := nav_run (e :: events) s in
  load_state (set_position 1 1 ∅ s') = (true, s').
Proof.
  intros He s'. apply synced_load_state. subst s'.
  cbn [nav_run fold_left]. apply synced_nav_run. apply synced_nav_step. left. exact He.
Qed.

(** X17 for a confirmed tap followed by an unconfirmed start sequence. *)
Lemma navigation_survives_reboot_witness :
  let s' := nav_run [Taps 1 true false; StartSequence [0; 14] false false]
              (set_position 3 5 {[3 := 5]} power_up) in
  load_state (set_position 1 1 ∅ s') = (true, s').
Proof.
  exact (navigation_survives_reboot (Taps 1 true false)
           [StartSequence [0; 14] false false]
           (set_position 3 5 {[3 := 5]} power_up) eq_refl).
Defined.

Lemma position_df_send cmd p1 p2 s : position (df_send cmd p1 p2 s) = position s.
Proof. unfold df_send. destruct (df_packet cmd p1 p2); reflexivity. Qed.

Lemma position_save_state s : position (save_state s) = position s.
Proof.
  unfold position. destruct (save_state_position s) as (-> & -> & _). reflexivity.
Qed.

Lemma position_note_track_learned album track s :
  position (note_track_learned album track s) = position s.
Proof.
  unfold note_track_learned. destruct (_ >? _); [| reflexivity].
  rewrite position_save_state. reflexivity.
Qed.

Lemma position_play_current c s : position (play_current c s).2 = position s.
Proof.
  unfold position.
  destruct (play_current_view c s _ _ _ _ eq_refl) as [_ Hv].
  unfold view in Hv. injection Hv as -> -> _ _. reflexivity.
Qed.

Lemma position_fade fade : ∀ s,
  position (fold_left (fun st v => df_set_vol v st) fade s) = position s.
Proof.
  induction fade as [| v fade IH]; intros s; cbn [fold_left]; [reflexivity |].
  rewrite IH. unfold df_set_vol. apply position_df_send.
Qed.

Lemma position_start_sequence_synced fade c1 c2 s :
  position (start_sequence_synced fade c1 c2 s) = position s.
Proof.
  unfold start_sequence_synced, play_am_and_fade_df_confirming. cbv zeta.
  unfold df_play_folder_track, df_stop, df_set_vol, df_reset.
  destruct c1; [| destruct c2];
    rewrite ?position_save_state, ?position_note_track_learned,
      ?position_df_send, ?position_fade, ?position_df_send; reflexivity.
Qed.

Lemma long_press_view c1 c2 s a t K tx :
  view s = (a, t, K, tx) →
  let a' := if a + 1 >? MAX_ALBUM_NUM then 1 else a + 1 in
  view (long_press c1 c2 s)
  = if c1 then
      (a', 1, learn a' 1 K, tx ++ [frame 22 0 0; frame 15 a' 1])
    else
      (1, 1, if c2 then learn 1 1 K else K,
       tx ++ [frame 22 0 0; frame 15 a' 1; frame 22 0 0; frame 15 1 1]).
Proof.
  intros Hv a'. unfold long_press. cbv zeta.
  assert (Ha : current_album s = a) by (unfold view in Hv; congruence).
  rewrite Ha. fold a'.
  set (s1 := save_state (set_current_track 1 (set_current_album a' s))).
  assert (Hv1 : view s1 = (a', 1, K, tx)).
  { subst s1. rewrite view_save_state.
    eapply view_set_current_track. eapply view_set_current_album. exact Hv. }
  destruct (play_current_view c1 s1 _ _ _ _ Hv1) as [Hok Hv2].
  destruct (play_current c1 s1) as [ok s2]. cbn [fst snd] in Hok, Hv2. subst ok.
  destruct c1; cbn [negb]; [exact Hv2 |].
  set (s3 := save_state (set_current_track 1 (set_current_album 1 s2))).
  assert (Hv3 : view s3 = (1, 1, K, tx ++ [frame 22 0 0; frame 15 a' 1])).
  { subst s3. rewrite view_save_state.
    eapply view_set_current_track. eapply view_set_current_album. exact Hv2. }
  destruct (play_current_view c2 s3 _ _ _ _ Hv3) as [_ Hv4].
  rewrite Hv4. rewrite <- app_assoc. reflexivity.
Qed.

Lemma position_ok_long_press c1 c2 s :
  position_ok s → position_ok (long_press c1 c2 s).
Proof.
  intros [Ha Ht].
  pose proof (long_press_view c1 c2 s _ _ _ _ eq_refl) as Hv. cbv zeta in Hv.
  remember (long_press c1 c2 s) as s' eqn:Es. clear Es.
  unfold position_ok, MAX_ALBUM_NUM in *.
  unfold view in Hv.
  destruct c1; injection Hv as H1 H2 _ _; rewrite H1, H2; [| lia].
  destruct (current_album s + 1 >? 99) eqn:E; [lia |].
  rewrite Z.gtb_ltb in E. apply Z.ltb_ge in E. lia.
Qed.

Lemma position_ok_next_track max_known c1 c2 s :
  position_ok s → position_ok (next_track max_known c1 c2 s).
Proof.
  intros [Ha Ht].
  pose proof (next_track_view max_known c1 c2 s _ _ _ _ eq_refl) as Hv.
  remember (next_track max_known c1 c2 s) as s' eqn:Es. clear Es.
  unfold position_ok in *. unfold view in Hv.
  destruct (current_track s + 1 <=? max_known);
    [| destruct c1]; injection Hv as H1 H2 _ _; rewrite H1, H2; lia.
Qed.

Lemma position_ok_taps_decided n c1 c2 s :
  position_ok s → position_ok (taps_decided n c1 c2 s).
Proof.
  intros [Ha Ht]. unfold taps_decided. cbv zeta.
  destruct (n >=? 3).
  - pose proof (position_play_current c1 (save_state (set_current_track 1 s))) as Hp.
    rewrite position_save_state in Hp. unfold position in Hp. cbn in Hp.
    injection Hp as Hp1 Hp2. unfold position_ok. rewrite Hp1, Hp2. lia.
  - destruct (n =? 2); [| apply position_ok_next_track; split; assumption].
    match goal with
    | |- position_ok (play_current c1 (save_state (set_current_track ?v s))).2 =>
        pose proof (position_play_current c1 (save_state (set_current_track v s))) as Hp;
        assert (Hv : 1 ≤ v)
    end.
    { destruct (current_track s - 1 <? 1) eqn:E.
      - destruct (max_known_of s <? 1) eqn:E2; [lia |]. apply Z.ltb_ge in E2. exact E2.
      - apply Z.ltb_ge in E. exact E. }
    rewrite position_save_state in Hp. unfold position in Hp. cbn in Hp.
    injection Hp as Hp1 Hp2. unfold position_ok. rewrite Hp1, Hp2. lia.
Qed.

Lemma position_ok_same s s' : position s' = position s → position_ok s → position_ok s'.
Proof. unfold position, position_ok. intros [= -> ->]. auto. Qed.

Lemma position_ok_nav_step e s : position_ok s → position_ok (nav_step e s).
Proof.
  destruct e; cbn [nav_step].
  - apply position_ok_same, position_note_track_learned.
  - apply position_ok_long_press.
  - apply position_ok_taps_decided.
  - apply position_ok_next_track.
  - apply position_ok_same. unfold power_off, df_stop.
    rewrite position_df_send. apply position_save_state.
  - apply position_ok_same, position_start_sequence_synced.
Qed.

(** X18.  The position never leaves the decoder's address space: along
    any run of navigation events the album stays within 1..99 and the
    track stays at 1 or above. *)
Theorem navigation_keeps_position_valid (events : list nav_event) (s : State) :
  position_ok s → position_ok (nav_run events s).
Proof.
  revert s. induction events as [| e events IH]; intros s H; cbn [nav_run fold_left].
  - exact H.
  - apply IH. apply position_ok_nav_step. exact H.
Qed.

(** X18 from album 99: long press, double tap, unconfirmed advance. *)
Lemma navigation_keeps_position_valid_witness :
  position_ok (nav_run [LongPress true true; Taps 2 true true; AutoAdvance false false]
                 (set_position 99 1 ∅ power_up)).
Proof.
  apply (navigation_keeps_position_valid
           [LongPress true true; Taps 2 true true; AutoAdvance false false]
           (set_position 99 1 ∅ power_up)).
  unfold position_ok, MAX_ALBUM_NUM. cbn. lia.
Defined.

(** X19.  A long press moves to track 1 of the next album, album 99
    being followed by album 1; when the play request is not confirmed
    the player falls back to album 1 track 1 and requests that; a
    confirmed album is known up to track 1 at least; and the position
    reached is the one in the primary store. *)
Theorem long_press_outcome (c1 c2 : bool) (s : State) :
  let next := if current_album s + 1 >? MAX_ALBUM_NUM then 1 else current_album s + 1 in
  let s' := long_press c1 c2 s in
  current_track s' = 1
  ∧ current_album s' = (if c1 then next else 1)
  ∧ uart_tx s'
    = uart_tx s ++ [frame 22 0 0; frame 15 next 1]
      ++ (if c1 then [] else [frame 22 0 0; frame 15 1 1])
  ∧ (c1 = true → 1 ≤ known_bound next s')
  ∧ album_file s'
    = Some (state_payload (current_album s') 1 (KNOWN_TRACKS s')).
Proof.
  intros next s'.
  pose proof (long_press_view c1 c2 s _ _ _ _ eq_refl) as Hv. cbv zeta in Hv.
  pose proof (synced_long_press c1 c2 s) as Hs.
  change (long_press c1 c2 s) with s' in Hv, Hs. fold next in Hv.
  clearbody s' next. unfold synced in Hs.
  unfold view in Hv. unfold known_bound.
  destruct c1; injection Hv as Ha Ht HK Htx; rewrite Hs, Ha, Ht, Htx.
  - repeat split. intros _. rewrite HK. unfold learn.
    destruct (1 >? default 0 (KNOWN_TRACKS s !! next)) eqn:E.
    + rewrite lookup_insert_eq. cbn. lia.
    + rewrite Z.gtb_ltb in E. apply Z.ltb_ge in E. exact E.
  - repeat split. intros [=].
Qed.

(** X20.  [play_current] sends STOP and PLAY(album, track) and keeps
    the position.  Confirmed, it leaves the track inside the known range
    of its album and opens a BUSY-ignore window of 2000 ms; unconfirmed,
    it changes neither the known tracks nor the window. *)
Theorem play_current_outcome (c : bool) (s : State) :
  let s' := (play_current c s).2 in
  (play_current c s).1 = c
  ∧ position s' = position s
  ∧ uart_tx s'
    = uart_tx s ++ [frame 22 0 0; frame 15 (current_album s) (current_track s)]
  ∧ if c then
      current_track s' ≤ known_bound (current_album s') s'
      ∧ ticks_diff (ignore_busy_until s') (ticks s') = 2000
    else
      KNOWN_TRACKS s' = KNOWN_TRACKS s
      ∧ ignore_busy_until s' = ignore_busy_until s.
Proof.
  intros s'.
  destruct (play_current_view c s _ _ _ _ eq_refl) as [Hok Hv].
  change (play_current c s).2 with s' in Hv.
  unfold view in Hv. injection Hv as Ha Ht HK Htx.
  split; [exact Hok |]. split; [unfold position; congruence |].
  split; [exact Htx |].
  destruct c.
  - split.
    + unfold known_bound. rewrite HK, Ha, Ht. unfold learn.
      destruct (current_track s >? default 0 (KNOWN_TRACKS s !! current_album s)) eqn:E.
      * rewrite lookup_insert_eq. cbn. lia.
      * rewrite Z.gtb_ltb in E. apply Z.ltb_ge in E. exact E.
    + subst s'. unfold play_current. cbn [snd].
      change (ticks (set_ignore_busy_until ?v ?x)) with (ticks x).
      change (ignore_busy_until (set_ignore_busy_until ?v ?x)) with v.
      apply ticks_diff_add. change (TICKS_PERIOD / 2) with 536870912. lia.
  - split; [exact HK |]. subst s'. unfold play_current, df_play_folder_track, df_stop.
    cbn [snd]. unfold df_send.
    repeat match goal with |- context [df_packet ?a ?b ?c] => destruct (df_packet a b c) end;
      reflexivity.
Qed.

(** ** The button and BUSY loop *)

(** *** The loop keeps the navigation invariants *)

Lemma position_ok_power_on fade c1 c2 s s' :
  power_on fade c1 c2 s = Some s' → position_ok s → position_ok s'.
Proof.
  unfold power_on.
  destruct (align_to_time (save_state s)) as [[r s1] |] eqn:E; [| discriminate].
  intros [= <-] H.
  apply (position_ok_same s1); [apply position_start_sequence_synced |].
  destruct r.
  - apply align_to_time_true in E. destruct E as (_ & Ha & Ht & _).
    split; [exact Ha | lia].
  - apply align_to_time_false in E. subst s1.
    apply (position_ok_same s); [apply position_save_state | exact H].
Qed.

Lemma sends_ok_power_on fade c1 c2 s s' :
  power_on fade c1 c2 s = Some s' → sends_ok s s'.
Proof.
  unfold power_on.
  destruct (align_to_time (save_state s)) as [[r s1] |] eqn:E; [| discriminate].
  intros [= <-].
  eapply sends_ok_trans; [| apply sends_ok_start_sequence_synced].
  eapply sends_ok_trans; [apply sends_ok_save_state |].
  destruct r.
  - apply align_to_time_true in E. apply sends_ok_same. apply E.
  - apply align_to_time_false in E. subst s1. apply sends_ok_refl.
Qed.

Lemma synced_power_on fade c1 c2 s s' :
  power_on fade c1 c2 s = Some s' → synced s'.
Proof.
  unfold power_on.
  destruct (align_to_time (save_state s)) as [[r s1] |] eqn:E; [| discriminate].
  intros [= <-]. apply synced_start_sequence_synced.
  destruct r.
  - apply align_to_time_true in E. unfold synced. apply E.
  - apply align_to_time_false in E. subst s1. apply synced_save_state.
Qed.

Lemma keeps_refl s : keeps s s.
Proof. split; [auto |]. split; [apply sends_ok_refl | auto]. Qed.

Lemma keeps_trans s1 s2 s3 : keeps s1 s2 → keeps s2 s3 → keeps s1 s3.
Proof.
  intros (P1 & Q1 & R1) (P2 & Q2 & R2).
  split; [auto |]. split; [eapply sends_ok_trans; eassumption | auto].
Qed.

Lemma keeps_set_ticks v s : keeps s (set_ticks v s).
Proof. split; [auto |]. split; [apply sends_ok_same; reflexivity | auto]. Qed.

Lemma keeps_nav_step e s : keeps s (nav_step e s).
Proof.
  split; [apply position_ok_nav_step |]. split; [apply sends_ok_nav_step |].
  intros H. apply synced_nav_step. right. exact H.
Qed.

Lemma keeps_button_step i l s : keeps s (button_step i l s).2.
Proof.
  unfold button_step. cbv zeta.
  destruct (_ && _); [apply keeps_refl |].
  destruct (_ && _); [| apply keeps_refl].
  destruct (_ >=? _); [| apply keeps_refl].
  apply (keeps_nav_step (LongPress _ _)).
Qed.

Lemma keeps_taps_step i l s : keeps s (taps_step i l s).2.
Proof.
  unfold taps_step. destruct (_ && _); [| apply keeps_refl].
  apply (keeps_nav_step (Taps _ _ _)).
Qed.

Lemma keeps_busy_step i l s : keeps s (busy_step i l s).2.
Proof.
  unfold busy_step. cbv zeta. destruct (rail2_on l); [| apply keeps_refl]. cbn [snd].
  destruct (_ >=? _); [| apply keeps_set_ticks].
  destruct (_ && _); [| apply keeps_set_ticks].
  eapply keeps_trans; [apply keeps_set_ticks |].
  apply (keeps_nav_step (AutoAdvance _ _)).
Qed.

Lemma keeps_sense_step i l s l' s' :
  sense_step i l s = Some (l', s') → keeps s s'.
Proof.
  unfold sense_step. cbv zeta.
  destruct (_ =? _); [intros [= _ <-]; apply keeps_refl |].
  destruct (_ =? _); [intros [= _ <-]; apply (keeps_nav_step PowerOff) |].
  destruct (power_on _ _ _ s) as [s1 |] eqn:E; [| discriminate].
  intros [= _ <-]. split; [eapply position_ok_power_on; exact E |].
  split; [eapply sends_ok_power_on; exact E |].
  intros _. eapply synced_power_on; exact E.
Qed.

Lemma keeps_update_volume_from_pot now target last s :
  keeps s (update_volume_from_pot now target last s).2.
Proof.
  unfold update_volume_from_pot.
  destruct (_ <? _); [apply keeps_refl |].
  destruct (_ >=? _); [| apply keeps_refl]. cbn [snd].
  split; [| split].
  - apply position_ok_same. unfold df_set_vol. rewrite position_df_send. reflexivity.
  - eapply sends_ok_trans; [| apply sends_ok_df_set_vol].
    apply sends_ok_same. reflexivity.
  - intros H. unfold df_set_vol. apply synced_df_send. exact H.
Qed.

Lemma keeps_loop_pass i l s l' s' :
  loop_pass i (l, s) = Some (l', s') → keeps s s'.
Proof.
  unfold loop_pass.
  pose proof (keeps_button_step i l (set_ticks (in_now i) s)) as H1.
  destruct (button_step i l (set_ticks (in_now i) s)) as [l1 s1]. cbn [snd] in H1.
  pose proof (keeps_taps_step i l1 s1) as H2.
  destruct (taps_step i l1 s1) as [l2 s2]. cbn [snd] in H2.
  pose proof (keeps_busy_step i l2 s2) as H3.
  destruct (busy_step i l2 s2) as [l3 s3]. cbn [snd] in H3.
  destruct (sense_step i l3 s3) as [[l4 s4] |] eqn:E4; [| discriminate].
  apply keeps_sense_step in E4.
  pose proof (keeps_update_volume_from_pot (in_pot_now i) (in_pot i)
                (last_pot_update_ms l4) (set_ticks (in_pot_now i) s4)) as H5.
  destruct (update_volume_from_pot _ _ _ _) as [last s5]. cbn [snd] in H5.
  intros [= _ <-].
  eapply keeps_trans; [apply keeps_set_ticks |].
  eapply keeps_trans; [exact H1 |].
  eapply keeps_trans; [exact H2 |].
  eapply keeps_trans; [exact H3 |].
  eapply keeps_trans; [exact E4 |].
  eapply keeps_trans; [apply keeps_set_ticks | exact H5].
Qed.

Lemma keeps_loop_run inputs : ∀ l s l' s',
  loop_run inputs (l, s) = Some (l', s') → keeps s s'.
Proof.
  induction inputs as [| i inputs IH]; intros l s l' s'; cbn [loop_run].
  - intros [= _ <-]. apply keeps_refl.
  - destruct (loop_pass i (l, s)) as [[l1 s1] |] eqn:E; [| discriminate].
    intros H. eapply keeps_trans; [eapply keeps_loop_pass; exact E |].
    eapply IH. exact H.
Qed.

(** X21.  Whatever the pins, the clock, the BUSY answers and the pot
    do, as long as the loop runs the album stays within 1..99 and the
    track at 1 or above, every frame sent to the decoder is well-formed
    with volume levels within 0..30, and a primary store that held the
    position keeps holding it. *)
Theorem loop_keeps_invariants
  (inputs : list LoopIn) (l l' : Loop) (s s' : State) :
  loop_run inputs (l, s) = Some (l', s') →
  position_ok s → Forall (fun p => frame_ok p = true) (uart_tx s) →
  position_ok s'
  ∧ Forall (fun p => frame_ok p = true) (uart_tx s')
  ∧ (synced s → synced s').
Proof.
  intros Hrun Hp Hf. apply keeps_loop_run in Hrun.
  destruct Hrun as (P & (fr & -> & Hfr) & R).
  split; [auto |]. split; [apply Forall_app; auto | exact R].
Qed.

(** X21 for a press, a release and a quiet period after power-up. *)
Lemma loop_keeps_invariants_witness :
  ∃ l' s',
    loop_run one_tap_script (loop_init 0 1, power_up) = Some (l', s')
    ∧ position_ok s'
    ∧ Forall (fun p => frame_ok p = true) (uart_tx s')
    ∧ (synced power_up → synced s').
Proof.
  destruct (loop_run one_tap_script (loop_init 0 1, power_up)) as [[l' s'] |] eqn:E;
    [| vm_compute in E; discriminate].
  exists l', s'. split; [reflexivity |].
  apply (loop_keeps_invariants one_tap_script (loop_init 0 1) l' power_up s' E).
  - unfold position_ok, MAX_ALBUM_NUM. cbn. lia.
  - constructor.
Defined.

(** *** Button gestures and BUSY edges, pass by pass *)

Lemma view_player s1 s2 : view s1 = view s2 → player s1 = player s2.
Proof. unfold view, player. intros [= -> -> -> _]. reflexivity. Qed.

Lemma play_current_view_eq c s1 s2 :
  view s1 = view s2 → view (play_current c s1).2 = view (play_current c s2).2.
Proof.
  intros H.
  destruct (play_current_view c s1 _ _ _ _ eq_refl) as [_ ->].
  destruct (play_current_view c s2 _ _ _ _ eq_refl) as [_ ->].
  unfold view in H. injection H as -> -> -> ->. reflexivity.
Qed.

Lemma view_set_track_eq v s1 s2 :
  view s1 = view s2 → view (set_current_track v s1) = view (set_current_track v s2).
Proof. unfold view. cbn. intros [= H1 _ H3 H4]. rewrite H1, H3, H4. reflexivity. Qed.

Lemma next_track_view_eq mk c1 c2 s1 s2 :
  view s1 = view s2 → view (next_track mk c1 c2 s1) = view (next_track mk c1 c2 s2).
Proof.
  intros H.
  rewrite (next_track_view mk c1 c2 s1 _ _ _ _ eq_refl).
  rewrite (next_track_view mk c1 c2 s2 _ _ _ _ eq_refl).
  unfold view in H. injection H as -> -> -> ->. reflexivity.
Qed.

Lemma max_known_of_view_eq s1 s2 : view s1 = view s2 → max_known_of s1 = max_known_of s2.
Proof. unfold view, max_known_of. intros [= -> -> -> _]. reflexivity. Qed.

Lemma taps_decided_view_eq n c1 c2 s1 s2 :
  view s1 = view s2 → view (taps_decided n c1 c2 s1) = view (taps_decided n c1 c2 s2).
Proof.
  intros H. unfold taps_decided. cbv zeta.
  rewrite (max_known_of_view_eq s1 s2 H).
  assert (Ht : current_track s1 = current_track s2)
    by (unfold view in H; congruence).
  rewrite Ht.
  destruct (n >=? 3).
  - apply play_current_view_eq. rewrite !view_save_state. apply view_set_track_eq, H.
  - destruct (n =? 2); [| apply next_track_view_eq, H].
    apply play_current_view_eq. rewrite !view_save_state. apply view_set_track_eq, H.
Qed.

Lemma long_press_view_eq c1 c2 s1 s2 :
  view s1 = view s2 → view (long_press c1 c2 s1) = view (long_press c1 c2 s2).
Proof.
  intros H.
  pose proof (long_press_view c1 c2 s1 _ _ _ _ eq_refl) as H1.
  pose proof (long_press_view c1 c2 s2 _ _ _ _ eq_refl) as H2.
  cbv zeta in H1, H2. rewrite H1, H2.
  unfold view in H. injection H as Ha _ HK Htx. rewrite Ha, HK, Htx. reflexivity.
Qed.

Lemma auto_advance_view_eq c1 c2 s1 s2 :
  view s1 = view s2 → view (auto_advance c1 c2 s1) = view (auto_advance c1 c2 s2).
Proof.
  intros H. unfold auto_advance. rewrite (max_known_of_view_eq s1 s2 H).
  apply next_track_view_eq, H.
Qed.

Lemma player_update_volume_from_pot now target last s :
  player (update_volume_from_pot now target last s).2 = player s.
Proof.
  unfold update_volume_from_pot.
  destruct (_ <? _); [reflexivity |]. destruct (_ >=? _); [| reflexivity].
  cbn [snd]. unfold df_set_vol, df_send. destruct (df_packet _ _ _); reflexivity.
Qed.

(** The last three steps of a pass when the sense line is steady and no
    BUSY edge is seen. *)
Lemma loop_tail_quiet i l s :
  in_sense i = last_sense l → no_busy_edge i l →
  ∃ l1 s1,
    busy_step i l s = (l1, s1) ∧ sense_step i l1 s1 = Some (l1, s1)
    ∧ tap_count l1 = tap_count l ∧ last_release_time l1 = last_release_time l
    ∧ player s1 = player s.
Proof.
  intros Hs Hb. unfold busy_step. cbv zeta.
  destruct (rail2_on l) eqn:Er.
  - eexists _, _. split; [reflexivity |].
    unfold sense_step. cbv zeta. cbn [last_sense]. rewrite Hs, Z.eqb_refl.
    split; [reflexivity |]. cbn [tap_count last_release_time].
    split; [reflexivity |]. split; [reflexivity |].
    destruct (_ >=? _); [| reflexivity].
    destruct Hb as [Hb | [Hb | Hb]]; [congruence | |].
    + apply Z.eqb_neq in Hb. rewrite Hb. reflexivity.
    + apply Z.eqb_neq in Hb. rewrite Hb, andb_false_r. reflexivity.
  - exists l, s. split; [reflexivity |].
    unfold sense_step. cbv zeta. rewrite Hs, Z.eqb_refl. auto.
Qed.

Lemma loop_pass_quiet_tail i l s l0 s0 l1 s1 :
  button_step i l (set_ticks (in_now i) s) = (l0, s0) →
  taps_step i l0 s0 = (l1, s1) →
  in_sense i = last_sense l1 → no_busy_edge i l1 →
  ∃ l' s',
    loop_pass i (l, s) = Some (l', s')
    ∧ last_button l' = in_button i
    ∧ tap_count l' = tap_count l1 ∧ last_release_time l' = last_release_time l1
    ∧ player s' = player s1.
Proof.
  intros Hb Ht Hs Hn. unfold loop_pass. rewrite Hb, Ht.
  destruct (loop_tail_quiet i l1 s1 Hs Hn) as (l2 & s2 & -> & -> & Hc & Hr & Hp).
  pose proof (player_update_volume_from_pot (in_pot_now i) (in_pot i)
                (last_pot_update_ms l2) (set_ticks (in_pot_now i) s2)) as Hv.
  destruct (update_volume_from_pot _ _ _ _) as [last s3]. cbn [snd] in Hv.
  eexists _, _. split; [reflexivity |]. cbn [last_button tap_count last_release_time].
  split; [reflexivity |]. split; [exact Hc |]. split; [exact Hr |].
  rewrite Hv. exact Hp.
Qed.

Lemma ticks_diff_same t : ticks_diff t t = 0.
Proof.
  unfold ticks_diff. rewrite Z.sub_diag. reflexivity.
Qed.

(** X22.  Releasing the button: a press of LONG_PRESS_MS or more is a
    long press, which moves to the next album and drops the taps
    counted so far; a shorter one only counts a tap and stamps the
    release. *)
Theorem release_edge_counts_or_changes_album (i : LoopIn) (l : Loop) (s : State) :
  last_button l = 0 → in_button i = 1 →
  in_sense i = last_sense l → no_busy_edge i l →
  ∃ l' s',
    loop_pass i (l, s) = Some (l', s')
    ∧ last_button l' = 1
    ∧ if ticks_diff (in_now i) (press_start l) >=? LONG_PRESS_MS then
        tap_count l' = 0 ∧ last_release_time l' = 0
        ∧ player s' = player (long_press (in_long i).1 (in_long i).2 s)
      else
        tap_count l' = tap_count l + 1 ∧ last_release_time l' = in_now i
        ∧ player s' = player s.
Proof.
  intros Hl Hc Hs Hn.
  assert (Hb : button_step i l (set_ticks (in_now i) s)
               = if ticks_diff (in_now i) (press_start l) >=? LONG_PRESS_MS then
                   (mkLoop 0 (press_start l) (last_button l) 0 (prev_busy l)
                      (last_sense l) (rail2_on l) (last_pot_update_ms l),
                    long_press (in_long i).1 (in_long i).2 (set_ticks (in_now i) s))
                 else
                   (mkLoop (tap_count l + 1) (press_start l) (last_button l)
                      (in_now i) (prev_busy l) (last_sense l) (rail2_on l)
                      (last_pot_update_ms l), set_ticks (in_now i) s)).
  { unfold button_step. cbv zeta. rewrite Hl, Hc. reflexivity. }
  destruct (ticks_diff (in_now i) (press_start l) >=? LONG_PRESS_MS).
  - destruct (loop_pass_quiet_tail i l s _ _ _ _ Hb eq_refl Hs Hn)
      as (l' & s' & Hp & H1 & H2 & H3 & H4).
    exists l', s'. split; [exact Hp |]. split; [congruence |].
    split; [exact H2 |]. split; [exact H3 |].
    rewrite H4. apply view_player, long_press_view_eq. reflexivity.
  - assert (Ht : ∀ l0 s0, last_release_time l0 = in_now i →
                     taps_step i l0 s0 = (l0, s0)).
    { intros l0 s0 Hr. unfold taps_step. rewrite Hr, ticks_diff_same.
      replace (0 >=? TAP_WINDOW_MS) with false by reflexivity.
      rewrite andb_false_r. reflexivity. }
    match type of Hb with
    | _ = (?l0, ?s0) =>
        destruct (loop_pass_quiet_tail i l s l0 s0 l0 s0 Hb (Ht l0 s0 eq_refl) Hs Hn)
          as (l' & s' & Hp & H1 & H2 & H3 & H4)
    end.
    exists l', s'. split; [exact Hp |]. split; [congruence |].
    split; [exact H2 |]. split; [exact H3 |]. rewrite H4. reflexivity.
Qed.

(** X22 for a release 250 ms after the press. *)
Lemma release_edge_counts_or_changes_album_witness :
  ∃ l' s',
    loop_pass (mkIn 1 350 0 350 1 (true, true) (true, true) (true, true)
                 [] true true 350 28)
      (mkLoop 0 100 0 0 0 1 true 0, power_up) = Some (l', s')
    ∧ tap_count l' = 1 ∧ last_release_time l' = 350 ∧ player s' = player power_up.
Proof.
  destruct (release_edge_counts_or_changes_album
              (mkIn 1 350 0 350 1 (true, true) (true, true) (true, true)
                 [] true true 350 28)
              (mkLoop 0 100 0 0 0 1 true 0) power_up)
    as (l' & s' & Hp & _ & H); [reflexivity | reflexivity | reflexivity | | ].
  - right. right. cbn. discriminate.
  - exists l', s'. split; [exact Hp |]. exact H.
Defined.

(** X23.  Once TAP_WINDOW_MS have passed since the last release, the
    taps counted are acted upon in that very pass, whether or not the
    button has just gone down again, and the count starts over. *)
Theorem quiet_window_decides_taps (i : LoopIn) (l : Loop) (s : State) :
  0 < tap_count l →
  TAP_WINDOW_MS ≤ ticks_diff (in_now i) (last_release_time l) →
  ¬ (last_button l = 0 ∧ in_button i = 1) →
  in_sense i = last_sense l → no_busy_edge i l →
  ∃ l' s',
    loop_pass i (l, s) = Some (l', s')
    ∧ tap_count l' = 0 ∧ last_release_time l' = 0
    ∧ player s'
      = player (taps_decided (tap_count l) (in_taps i).1 (in_taps i).2 s).
Proof.
  intros Hc Hw Hb Hs Hn.
  assert (Hbs : ∃ l0, button_step i l (set_ticks (in_now i) s)
                      = (l0, set_ticks (in_now i) s)
                      ∧ tap_count l0 = tap_count l
                      ∧ last_release_time l0 = last_release_time l
                      ∧ last_sense l0 = last_sense l
                      ∧ rail2_on l0 = rail2_on l ∧ prev_busy l0 = prev_busy l).
  { unfold button_step. cbv zeta.
    destruct ((last_button l =? 1) && (in_button i =? 0));
      [eexists; split; [reflexivity | cbn; auto 10] |].
    destruct ((last_button l =? 0) && (in_button i =? 1)) eqn:E;
      [| exists l; auto 10].
    exfalso. apply Hb. apply andb_true_iff in E. destruct E as [E1 E2].
    apply Z.eqb_eq in E1, E2. auto. }
  destruct Hbs as (l0 & Hbs & T1 & T2 & T3 & T4 & T5).
  assert (Hts : taps_step i l0 (set_ticks (in_now i) s)
                = (mkLoop 0 (press_start l0) (last_button l0) 0 (prev_busy l0)
                     (last_sense l0) (rail2_on l0) (last_pot_update_ms l0),
                   taps_decided (tap_count l0) (in_taps i).1 (in_taps i).2
                     (set_ticks (in_now i) s))).
  { unfold taps_step. rewrite T1, T2.
    replace (tap_count l >? 0) with true by (symmetry; apply Z.gtb_lt; lia).
    replace (ticks_diff (in_now i) (last_release_time l) >=? TAP_WINDOW_MS) with true
      by (symmetry; rewrite Z.geb_leb; apply Z.leb_le; exact Hw).
    reflexivity. }
  destruct (loop_pass_quiet_tail i l s _ _ _ _ Hbs Hts)
    as (l' & s' & Hp & H1 & H2 & H3 & H4).
  - cbn [last_sense]. congruence.
  - unfold no_busy_edge in *. cbn [rail2_on prev_busy]. rewrite T4, T5. exact Hn.
  - exists l', s'. rewrite T1 in H4. split; [exact Hp |]. split; [exact H2 |]. split; [exact H3 |].
    rewrite H4. apply view_player, taps_decided_view_eq. reflexivity.
Qed.

(** X23 for two taps at album 3, track 5: back to track 4. *)
Lemma quiet_window_decides_taps_witness :
  ∃ l' s',
    loop_pass (mkIn 1 1200 0 1200 1 (true, true) (true, false) (true, true)
                 [] true true 1200 28)
      (mkLoop 2 100 1 350 0 1 true 0, set_position 3 5 {[3 := 5]} power_up)
    = Some (l', s')
    ∧ tap_count l' = 0 ∧ player s' = (3, 4, {[3 := 5]}).
Proof.
  destruct (quiet_window_decides_taps
              (mkIn 1 1200 0 1200 1 (true, true) (true, false) (true, true)
                 [] true true 1200 28)
              (mkLoop 2 100 1 350 0 1 true 0)
              (set_position 3 5 {[3 := 5]} power_up))
    as (l' & s' & Hp & H1 & _ & H2).
  - cbn. lia.
  - vm_compute. discriminate.
  - cbn. intros [H _]. discriminate.
  - reflexivity.
  - right. right. cbn. discriminate.
  - exists l', s'. split; [exact Hp |]. split; [exact H1 |].
    rewrite H2. vm_compute. reflexivity.
Defined.

(** X24.  A BUSY 0 -> 1 transition with the button at rest: with the
    power rail on and outside the ignore window it advances the track as
    a finished track does; inside the window it does nothing, but the
    level is recorded, so that the transition is not seen again; with
    the rail off the BUSY line is not looked at. *)
Theorem busy_edge_pass (i : LoopIn) (l : Loop) (s : State) :
  prev_busy l = 0 → in_busy i = 1 →
  tap_count l = 0 → in_button i = last_button l →
  in_sense i = last_sense l →
  ∃ l' s',
    loop_pass i (l, s) = Some (l', s')
    ∧ if rail2_on l then
        prev_busy l' = 1
        ∧ player s'
          = if ticks_diff (in_now_ts i) (ignore_busy_until s) >=? 0
            then player (auto_advance (in_auto i).1 (in_auto i).2 s)
            else player s
      else prev_busy l' = 0 ∧ player s' = player s.
Proof.
  intros Hp Hb Hc Hbt Hs. unfold loop_pass.
  assert (Hbs : button_step i l (set_ticks (in_now i) s)
                = (l, set_ticks (in_now i) s)).
  { unfold button_step. cbv zeta. rewrite Hbt.
    destruct (last_button l =? 1) eqn:E1, (last_button l =? 0) eqn:E0;
      cbn [andb]; try reflexivity.
    apply Z.eqb_eq in E1, E0. lia. }
  rewrite Hbs.
  assert (Hts : taps_step i l (set_ticks (in_now i) s) = (l, set_ticks (in_now i) s)).
  { unfold taps_step. rewrite Hc. reflexivity. }
  rewrite Hts. unfold busy_step. cbv zeta.
  destruct (rail2_on l) eqn:Er.
  - unfold sense_step. cbv zeta. cbn [last_sense]. rewrite Hs, Z.eqb_refl.
    match goal with
    | |- context [update_volume_from_pot ?a ?b ?c ?d] =>
        pose proof (player_update_volume_from_pot a b c d) as Hv;
        destruct (update_volume_from_pot a b c d) as [last s3]
    end.
    cbn [snd] in Hv. eexists _, _. split; [reflexivity |]. cbn [prev_busy].
    split; [exact Hb |]. rewrite Hv.
    change (ignore_busy_until (set_ticks (in_now_ts i) (set_ticks (in_now i) s)))
      with (ignore_busy_until s).
    destruct (_ >=? _); [| reflexivity].
    rewrite Hp, Hb. cbn [Z.eqb Pos.eqb andb].
    apply view_player.
    apply (auto_advance_view_eq _ _
             (set_ticks (in_now_ts i) (set_ticks (in_now i) s)) s). reflexivity.
  - unfold sense_step. cbv zeta. rewrite Hs, Z.eqb_refl.
    match goal with
    | |- context [update_volume_from_pot ?a ?b ?c ?d] =>
        pose proof (player_update_volume_from_pot a b c d) as Hv;
        destruct (update_volume_from_pot a b c d) as [last s3]
    end.
    cbn [snd] in Hv. eexists _, _. split; [reflexivity |]. cbn [prev_busy].
    split; [exact Hp |]. rewrite Hv. reflexivity.
Qed.

(** X24 at album 3, track 5 of 7, outside the window: on to track 6. *)
Lemma busy_edge_pass_witness :
  ∃ l' s',
    loop_pass (mkIn 1 9000 1 9000 1 (true, true) (true, true) (true, true)
                 [] true true 9000 28)
      (mkLoop 0 0 1 0 0 1 true 0, set_position 3 5 {[3 := 7]} power_up)
    = Some (l', s')
    ∧ prev_busy l' = 1 ∧ player s' = (3, 6, {[3 := 7]}).
Proof.
  destruct (busy_edge_pass
              (mkIn 1 9000 1 9000 1 (true, true) (true, true) (true, true)
                 [] true true 9000 28)
              (mkLoop 0 0 1 0 0 1 true 0)
              (set_position 3 5 {[3 := 7]} power_up))
    as (l' & s' & Hp & H1 & H2); try reflexivity.
  exists l', s'. split; [exact Hp |]. split; [exact H1 |].
  rewrite H2. vm_compute. reflexivity.
Defined.

(** ** The sample cursor of the PWM engine *)

Lemma lut_value (b : byte) : py_index lut (byte_val b) = Some (256 * byte_val b).
Proof. destruct b; vm_compute; reflexivity. Qed.

Lemma py_index_lookup {A} (l : list A) (k : nat) x :
  l !! k = Some x → py_index l (Z.of_nat k) = Some x.
Proof.
  intros H. unfold py_index.
  assert (Hk : (k < length l)%nat) by (eapply lookup_lt_Some; exact H).
  replace ((0 <=? Z.of_nat k) && (Z.of_nat k <? Z.of_nat (length l))) with true
    by (symmetry; apply andb_true_iff; split; [apply Z.leb_le | apply Z.ltb_lt]; lia).
  rewrite Nat2Z.id. exact H.
Qed.

(** One callback on a sample that is there. *)
Lemma isr_cb_sample data (k : nat) b done fo2 :
  data !! k = Some b →
  ∃ duty,
    isr_cb data (mkIsr (Z.of_nat k) (Z.of_nat (length data)) done fo2)
    = Some (duty, mkIsr (Z.of_nat k + 1) (Z.of_nat (length data)) done fo2)
    ∧ (Z.of_nat k ≤ Z.of_nat (length data) - fo2 ∨ fo2 ≤ 0 →
       duty = 256 * byte_val b).
Proof.
  intros H. unfold isr_cb. cbn [isr_idx isr_n isr_done fade_out_samples].
  assert (Hk : (k < length data)%nat) by (eapply lookup_lt_Some; exact H).
  replace (Z.of_nat k >=? Z.of_nat (length data)) with false
    by (symmetry; rewrite Z.geb_leb; apply Z.leb_gt; lia).
  rewrite (py_index_lookup data k b H).
  change (Z.of_N (Byte.to_N b)) with (byte_val b). rewrite lut_value.
  eexists. split; [reflexivity |].
  intros Hc.
  destruct (fo2 >? 0) eqn:Ef; [| reflexivity].
  rewrite Z.gtb_ltb in Ef. apply Z.ltb_lt in Ef.
  destruct Hc as [Hc | Hc]; [| lia].
  destruct (Z.of_nat k >=? Z.of_nat (length data) - fo2) eqn:Ei; [| reflexivity].
  rewrite Z.geb_leb in Ei. apply Z.leb_le in Ei. cbn [andb].
  replace (Z.of_nat k - (Z.of_nat (length data) - fo2)) with 0 by lia.
  rewrite Z.sub_0_r.
  replace (fo2 <? 0) with false by (symmetry; apply Z.ltb_ge; lia).
  rewrite (Z.mul_comm fo2 256), Z.div_mul by lia.
  rewrite Z.div_mul by lia. lia.
Qed.

Lemma isr_run_samples data done fo2 (j : nat) : ∀ (k : nat),
  (k + j = length data)%nat →
  ∃ duties,
    isr_run data j (mkIsr (Z.of_nat k) (Z.of_nat (length data)) done fo2)
    = Some (duties, mkIsr (Z.of_nat (length data)) (Z.of_nat (length data)) done fo2)
    ∧ length duties = j
    ∧ ∀ (m : nat) b,
        data !! (k + m)%nat = Some b →
        Z.of_nat (k + m) ≤ Z.of_nat (length data) - fo2 ∨ fo2 ≤ 0 →
        duties !! m = Some (256 * byte_val b).
Proof.
  induction j as [| j IH]; intros k Hk.
  - exists []. cbn [isr_run]. replace k with (length data) by lia.
    split; [reflexivity |]. split; [reflexivity |].
    intros m b Hm _. apply lookup_lt_Some in Hm. lia.
  - destruct (lookup_lt_is_Some_2 data k) as [b0 Hb0]; [lia |].
    destruct (isr_cb_sample data k b0 done fo2 Hb0) as (duty & Hcb & Hduty).
    destruct (IH (S k)) as (duties & Hrun & Hlen & Hval); [lia |].
    exists (duty :: duties). cbn [isr_run]. rewrite Hcb.
    replace (Z.of_nat k + 1) with (Z.of_nat (S k)) by lia. rewrite Hrun.
    split; [reflexivity |]. split; [cbn; lia |].
    intros m b Hm Hc. destruct m as [| m].
    + rewrite Nat.add_0_r in Hm, Hc. cbn [lookup list_lookup].
      rewrite Hb0 in Hm. injection Hm as <-. f_equal. apply Hduty. exact Hc.
    + cbn [lookup list_lookup]. apply Hval.
      * replace (S k + m)%nat with (k + S m)%nat by lia. exact Hm.
      * replace (S k + m)%nat with (k + S m)%nat by lia. exact Hc.
Qed.

Lemma isr_cb_past_end data n done fo2 :
  isr_cb data (mkIsr n n done fo2) = Some (MID, mkIsr n n true fo2).
Proof.
  unfold isr_cb. cbn [isr_idx isr_n fade_out_samples].
  replace (n >=? n) with true by (symmetry; rewrite Z.geb_leb; apply Z.leb_le; lia).
  reflexivity.
Qed.

Lemma isr_run_idle data n fo2 (m : nat) : ∀ done,
  isr_run data (S m) (mkIsr n n done fo2)
  = Some (repeat MID (S m), mkIsr n n true fo2).
Proof.
  induction m as [| m IH]; intros done.
  - cbn [isr_run]. rewrite isr_cb_past_end. reflexivity.
  - change (isr_run data (S (S m)) ?st)
      with (match isr_cb data st with
            | Some (duty, st1) =>
                match isr_run data (S m) st1 with
                | Some (duties, st2) => Some (duty :: duties, st2)
                | None => None
                end
            | None => None
            end).
    rewrite isr_cb_past_end, IH. reflexivity.
Qed.

(** X25.  An armed asset is played once, sample by sample: [len(data)]
    callbacks write one duty each and leave the cursor at the end with
    [done] still False; up to and including the first sample of the
    fade-out tail the duty is 256 times the sample; every later callback
    writes the mid level and reports [done]. *)
Theorem isr_plays_asset_once (data : list byte) (fo : Z) :
  let n := Z.of_nat (length data) in
  let tail := fade_out_samples (arm data fo) in
  ∃ duties st,
    isr_run data (length data) (arm data fo) = Some (duties, st)
    ∧ length duties = length data
    ∧ (∀ (k : nat) b,
         data !! k = Some b → Z.of_nat k ≤ n - tail ∨ tail ≤ 0 →
         duties !! k = Some (256 * byte_val b))
    ∧ isr_idx st = n ∧ isr_done st = false
    ∧ ∀ m : nat,
        ∃ st', isr_run data (S m) st = Some (repeat MID (S m), st')
               ∧ isr_idx st' = n ∧ isr_done st' = true.
Proof.
  intros n tail. unfold arm in *. fold n in tail |- *.
  cbn [fade_out_samples] in tail.
  destruct (isr_run_samples data false tail (length data) 0 eq_refl)
    as (duties & Hrun & Hlen & Hval).
  exists duties. eexists. split; [exact Hrun |]. split; [exact Hlen |].
  split; [intros k b Hk Hc; apply (Hval k b Hk Hc) |].
  split; [reflexivity |]. split; [reflexivity |].
  intros m. eexists. split; [apply isr_run_idle |]. split; reflexivity.
Qed.

(** ** WAV loader *)

Lemma bytes_eqb_eq a : ∀ b, bytes_eqb a b = true ↔ a = b.
Proof.
  induction a as [| x a IH]; intros [| y b]; cbn [bytes_eqb];
    try (split; [discriminate | discriminate]); [tauto |].
  rewrite andb_true_iff, IH. split.
  - intros [H ->]. apply Byte.byte_dec_bl in H. subst. reflexivity.
  - intros [= -> ->]. split; [apply Byte.byte_dec_lb |]; reflexivity.
Qed.

Lemma bytes_eqb_neq a b : a ≠ b → bytes_eqb a b = false.
Proof.
  intros H. destruct (bytes_eqb a b) eqn:E; [| reflexivity].
  apply bytes_eqb_eq in E. contradiction.
Qed.

Lemma bytes_eqb_refl a : bytes_eqb a a = true.
Proof. apply bytes_eqb_eq. reflexivity. Qed.

Lemma unpack_le_length k b v : unpack_le k b = Some v → length b = k.
Proof.
  unfold unpack_le. destruct (Nat.eqb (length b) k) eqn:E; [| discriminate].
  intros _. apply Nat.eqb_eq. exact E.
Qed.

Lemma unpack_le_nonneg k b v : unpack_le k b = Some v → 0 ≤ v.
Proof.
  unfold unpack_le. destruct (Nat.eqb (length b) k); [| discriminate].
  intros [= <-]. induction b as [| x b IH]; cbn [map le_value]; [lia |].
  pose proof (N2Z.is_nonneg (Byte.to_N x)) as Hx.
  change (Z.of_N (Byte.to_N x)) with (byte_val x) in Hx. lia.
Qed.

(** The loop only looks at the file from the offset on. *)
Lemma wav_chunks_drop fuel : ∀ file pos sr ok,
  wav_chunks fuel file pos sr ok = wav_chunks fuel (drop pos file) 0 sr ok.
Proof.
  induction fuel as [| fuel IH]; intros file pos sr ok; [reflexivity |].
  cbn [wav_chunks]. unfold f_read. cbv zeta.
  rewrite ?drop_drop, ?Nat.add_0_r, ?Nat.add_0_l, ?Nat.add_assoc.
  destruct (take 4 (drop pos file)) as [| c0 cid] eqn:Ecid; [reflexivity |].
  set (n1 := length (c0 :: cid)).
  destruct (unpack_le 4 (take 4 (drop (pos + n1) file))) as [clen |]; [| reflexivity].
  set (n2 := length (take 4 (drop (pos + n1) file))).
  destruct (bytes_eqb (c0 :: cid) (list_byte_of_string "fmt ")).
  - set (fmt := take (Z.to_nat clen) (drop (pos + n1 + n2) file)).
    destruct (unpack_le 2 (slice 0 2 fmt)); [| reflexivity].
    destruct (unpack_le 2 (slice 2 4 fmt)); [| reflexivity].
    destruct (unpack_le 4 (slice 4 8 fmt)); [| reflexivity].
    destruct (unpack_le 2 (slice 14 16 fmt)); [| reflexivity].
    destruct (_ || _); [reflexivity |].
    rewrite (IH file), (IH (drop pos file)), drop_drop.
    f_equal. f_equal. lia.
  - destruct (bytes_eqb (c0 :: cid) (list_byte_of_string "data")).
    + reflexivity.
    + rewrite (IH file), (IH (drop pos file)), drop_drop.
      f_equal. f_equal. lia.
Qed.

(** One pass over a suffix that starts with a whole chunk header. *)
Lemma wav_chunks_header fuel cid lenb rest clen sr ok :
  length cid = 4%nat → unpack_le 4 lenb = Some clen →
  wav_chunks (S fuel) (cid ++ lenb ++ rest) 0 sr ok
  = if bytes_eqb cid fmt_id then
      let fmt := take (Z.to_nat clen) rest in
      match unpack_le 2 (slice 0 2 fmt), unpack_le 2 (slice 2 4 fmt),
            unpack_le 4 (slice 4 8 fmt), unpack_le 2 (slice 14 16 fmt)
      with
      | Some audio_format, Some channels, Some rate, Some bits =>
          if negb (audio_format =? 1) || negb (channels =? 1) || negb (bits =? 8)
          then None
          else wav_chunks fuel (drop (length fmt) rest) 0 rate true
      | _, _, _, _ => None
      end
    else if bytes_eqb cid data_id then
      if negb ok then None else Some (take (Z.to_nat clen) rest, sr)
    else wav_chunks fuel (drop (Z.to_nat clen) rest) 0 sr ok.
Proof.
  intros Hcid Hlen. pose proof (unpack_le_length _ _ _ Hlen) as Hl.
  cbn [wav_chunks]. unfold f_read. cbv zeta. rewrite ?drop_0, ?Nat.add_0_l.
  assert (E1 : take 4 (cid ++ lenb ++ rest) = cid)
    by (rewrite <- Hcid; apply take_app_length).
  rewrite E1, Hcid.
  assert (E2 : drop 4 (cid ++ lenb ++ rest) = lenb ++ rest)
    by (rewrite <- Hcid; apply drop_app_length).
  rewrite E2.
  assert (E3 : take 4 (lenb ++ rest) = lenb)
    by (rewrite <- Hl; apply take_app_length).
  rewrite E3, Hlen, Hl.
  assert (E4 : drop (4 + 4) (cid ++ lenb ++ rest) = rest).
  { rewrite <- drop_drop, E2. rewrite <- Hl. apply drop_app_length. }
  rewrite E4.
  destruct cid as [| c0 cid]; [discriminate |].
  fold fmt_id data_id.
  destruct (bytes_eqb (c0 :: cid) fmt_id).
  - cbv zeta.
    set (fmt := take (Z.to_nat clen) rest).
    destruct (unpack_le 2 (slice 0 2 fmt)); [| reflexivity].
    destruct (unpack_le 2 (slice 2 4 fmt)); [| reflexivity].
    destruct (unpack_le 4 (slice 4 8 fmt)); [| reflexivity].
    destruct (unpack_le 2 (slice 14 16 fmt)); [| reflexivity].
    destruct (_ || _); [reflexivity |].
    rewrite wav_chunks_drop. rewrite <- drop_drop, E4. reflexivity.
  - destruct (bytes_eqb (c0 :: cid) data_id); [reflexivity |].
    rewrite wav_chunks_drop. rewrite <- drop_drop, E4. reflexivity.
Qed.

(** Either the header of the next chunk is incomplete, and the pass
    raises, or the suffix starts with identifier and length. *)
Lemma wav_chunks_step X :
  (∀ fuel sr ok, wav_chunks (S fuel) X 0 sr ok = None)
  ∨ ∃ cid lenb rest clen,
      X = cid ++ lenb ++ rest ∧ length cid = 4%nat
      ∧ unpack_le 4 lenb = Some clen.
Proof.
  destruct (take 4 X) as [| c0 cid] eqn:Ecid.
  { left. intros fuel sr ok. cbn [wav_chunks]. unfold f_read. cbv zeta.
    rewrite drop_0, Ecid. reflexivity. }
  set (n1 := length (c0 :: cid)).
  destruct (unpack_le 4 (take 4 (drop n1 X))) as [clen |] eqn:El.
  - right. pose proof (unpack_le_length _ _ _ El) as Hl.
    assert (Hn1 : n1 = 4%nat).
    { subst n1. rewrite <- Ecid, length_take.
      assert (n1' : (length (take 4 (drop (length (c0 :: cid)) X)) ≤ length X - length (c0 :: cid))%nat).
      { rewrite length_take, length_drop. lia. }
      rewrite Hl in n1'. rewrite <- Ecid, length_take in n1'. lia. }
    exists (c0 :: cid), (take 4 (drop n1 X)), (drop (n1 + 4) X), clen.
    split; [| split; [exact Hn1 | exact El]].
    rewrite <- Ecid, Hn1.
    rewrite <- (take_drop 4 X) at 1. f_equal.
    rewrite <- (take_drop 4 (drop 4 X)) at 1. f_equal.
    rewrite drop_drop. reflexivity.
  - left. intros fuel sr ok. cbn [wav_chunks]. unfold f_read. cbv zeta.
    rewrite drop_0, Ecid, Nat.add_0_l. fold n1. rewrite El. reflexivity.
Qed.

Lemma length_drop_lt {A} (l : list A) (k n : nat) :
  (length l < S n)%nat → l ≠ [] → (0 < k)%nat → (length (drop k l) < n)%nat.
Proof.
  intros Hl Hne Hk. rewrite length_drop.
  destruct l; [congruence |]. cbn [length] in *. lia.
Qed.

(** With more passes than the file has bytes the loop never runs out of
    passes: the result is the same for any two such bounds. *)
Lemma wav_chunks_enough f1 : ∀ f2 X sr ok,
  (length X < f1)%nat → (length X < f2)%nat →
  wav_chunks f1 X 0 sr ok = wav_chunks f2 X 0 sr ok.
Proof.
  induction f1 as [| f1 IH]; intros f2 X sr ok H1 H2; [lia |].
  destruct f2 as [| f2]; [lia |].
  destruct (wav_chunks_step X) as [Hn | (cid & lenb & rest & clen & -> & Hc & Hl)].
  { rewrite !Hn. reflexivity. }
  rewrite !(wav_chunks_header _ cid lenb rest clen) by assumption.
  pose proof (unpack_le_length _ _ _ Hl) as Hl4.
  rewrite !length_app, Hc, Hl4 in H1, H2.
  destruct (bytes_eqb cid fmt_id).
  - cbv zeta. set (fmt := take (Z.to_nat clen) rest).
    destruct (unpack_le 2 (slice 0 2 fmt)); [| reflexivity].
    destruct (unpack_le 2 (slice 2 4 fmt)); [| reflexivity].
    destruct (unpack_le 4 (slice 4 8 fmt)); [| reflexivity].
    destruct (unpack_le 2 (slice 14 16 fmt)); [| reflexivity].
    destruct (_ || _); [reflexivity |].
    apply IH; rewrite length_drop; lia.
  - destruct (bytes_eqb cid data_id); [reflexivity |].
    apply IH; rewrite length_drop; lia.
Qed.

(** A result obtained within some number of passes is the result with
    any larger number. *)
Lemma wav_chunks_more f1 : ∀ f2 X sr ok r,
  wav_chunks f1 X 0 sr ok = Some r → (f1 ≤ f2)%nat →
  wav_chunks f2 X 0 sr ok = Some r.
Proof.
  induction f1 as [| f1 IH]; intros f2 X sr ok r H Hle; [discriminate |].
  destruct f2 as [| f2]; [lia |].
  destruct (wav_chunks_step X) as [Hn | (cid & lenb & rest & clen & -> & Hc & Hl)].
  { rewrite Hn in H. discriminate. }
  rewrite (wav_chunks_header f1 cid lenb rest clen) in H by assumption.
  rewrite (wav_chunks_header f2 cid lenb rest clen) by assumption.
  destruct (bytes_eqb cid fmt_id).
  - cbv zeta in *. set (fmt := take (Z.to_nat clen) rest) in *.
    destruct (unpack_le 2 (slice 0 2 fmt)); [| discriminate].
    destruct (unpack_le 2 (slice 2 4 fmt)); [| discriminate].
    destruct (unpack_le 4 (slice 4 8 fmt)); [| discriminate].
    destruct (unpack_le 2 (slice 14 16 fmt)); [| discriminate].
    destruct (_ || _); [discriminate |].
    eapply IH; [exact H | lia].
  - destruct (bytes_eqb cid data_id); [exact H |].
    eapply IH; [exact H | lia].
Qed.

(** *** What a successful load says about the file *)

Lemma wav_chunks_sound fuel : ∀ X sr0 ok0 data sr,
  wav_chunks fuel X 0 sr0 ok0 = Some (data, sr) →
  (∃ pre dlen post clen,
      X = pre ++ data_id ++ dlen ++ data ++ post
      ∧ unpack_le 4 dlen = Some clen
      ∧ (Z.of_nat (length data) = clen
         ∨ (Z.of_nat (length data) < clen ∧ post = [])))
  ∧ ((ok0 = true ∧ sr = sr0)
     ∨ ∃ pre flen fmt post,
         X = pre ++ fmt_id ++ flen ++ fmt ++ post
         ∧ unpack_le 4 flen = Some (Z.of_nat (length fmt))
         ∧ pcm_mono_8 fmt sr).
Proof.
  induction fuel as [| fuel IH]; intros X sr0 ok0 data sr H; [discriminate |].
  destruct (wav_chunks_step X) as [Hn | (cid & lenb & rest & clen & -> & Hc & Hl)].
  { rewrite Hn in H. discriminate. }
  rewrite (wav_chunks_header _ cid lenb rest clen) in H by assumption.
  destruct (bytes_eqb cid fmt_id) eqn:Ef.
  - apply bytes_eqb_eq in Ef. subst cid. cbv zeta in H.
    set (fmt := take (Z.to_nat clen) rest) in *.
    destruct (unpack_le 2 (slice 0 2 fmt)) as [af |] eqn:E1; [| discriminate].
    destruct (unpack_le 2 (slice 2 4 fmt)) as [ch |] eqn:E2; [| discriminate].
    destruct (unpack_le 4 (slice 4 8 fmt)) as [rate |] eqn:E3; [| discriminate].
    destruct (unpack_le 2 (slice 14 16 fmt)) as [bits |] eqn:E4; [| discriminate].
    destruct (negb (af =? 1) || negb (ch =? 1) || negb (bits =? 8)) eqn:Eb;
      [discriminate |].
    apply orb_false_iff in Eb. destruct Eb as [Eb Eb3].
    apply orb_false_iff in Eb. destruct Eb as [Eb1 Eb2].
    apply negb_false_iff, Z.eqb_eq in Eb1, Eb2, Eb3. subst af ch bits.
    apply IH in H. destruct H as [(pre & dlen & post & cl & HX & Hd & Hlen) Hfmt].
    assert (Hrest : rest = fmt ++ drop (length fmt) rest).
    { subst fmt. rewrite length_take.
      destruct (Nat.le_gt_cases (Z.to_nat clen) (length rest)).
      - rewrite Nat.min_l by lia. symmetry. apply take_drop.
      - rewrite Nat.min_r by lia. rewrite take_ge, drop_ge by lia.
        rewrite app_nil_r. reflexivity. }
    split.
    + exists (fmt_id ++ lenb ++ fmt ++ pre), dlen, post, cl.
      split; [| split; assumption].
      rewrite Hrest at 1. rewrite HX. rewrite <- !app_assoc. reflexivity.
    + right.
      destruct Hfmt as [[_ ->] | (pre2 & flen & fmt2 & post2 & HX2 & Hfl & Hp)].
      * exists [], lenb, fmt, (drop (length fmt) rest).
        split; [cbn [app]; rewrite <- Hrest; reflexivity |].
        split; [| repeat split; assumption].
        rewrite Hl. f_equal.
        pose proof (unpack_le_nonneg _ _ _ Hl) as Hclen.
        assert (Hlen' : length (drop (length fmt) rest) ≠ 0%nat).
        { rewrite HX, !length_app. change (length data_id) with 4%nat. lia. }
        rewrite length_drop in Hlen'.
        subst fmt. rewrite length_take in *. lia.
      * exists (fmt_id ++ lenb ++ fmt ++ pre2), flen, fmt2, post2.
        split; [| split; assumption].
        rewrite Hrest at 1. rewrite HX2. rewrite <- !app_assoc. reflexivity.
  - destruct (bytes_eqb cid data_id) eqn:Ed.
    + apply bytes_eqb_eq in Ed. subst cid.
      destruct ok0; [| discriminate]. cbn [negb] in H. injection H as <- <-.
      split; [| left; auto].
      exists [], lenb, (drop (Z.to_nat clen) rest), clen.
      split; [cbn [app]; rewrite take_drop; reflexivity |].
      split; [exact Hl |].
      assert (Hclen : 0 ≤ clen).
      { eapply unpack_le_nonneg. exact Hl. }
      rewrite length_take.
      destruct (Nat.le_gt_cases (Z.to_nat clen) (length rest)).
      * left. rewrite Nat.min_l by lia. lia.
      * right. rewrite Nat.min_r by lia. split; [lia |].
        apply drop_ge. lia.
    + apply IH in H. destruct H as [(pre & dlen & post & cl & HX & Hd & Hlen) Hfmt].
      assert (Hrest : rest = take (Z.to_nat clen) rest ++ drop (Z.to_nat clen) rest)
        by (symmetry; apply take_drop).
      split.
      * exists (cid ++ lenb ++ take (Z.to_nat clen) rest ++ pre), dlen, post, cl.
        split; [| split; assumption].
        rewrite Hrest at 1. rewrite HX. rewrite <- !app_assoc. reflexivity.
      * destruct Hfmt as [Hfmt | (pre2 & flen & fmt2 & post2 & HX2 & Hfl & Hp)];
          [left; exact Hfmt | right].
        exists (cid ++ lenb ++ take (Z.to_nat clen) rest ++ pre2), flen, fmt2, post2.
        split; [| split; assumption].
        rewrite Hrest at 1. rewrite HX2. rewrite <- !app_assoc. reflexivity.
Qed.

Lemma load_wav_u8_header file r :
  load_wav_u8 file = Some r →
  take 4 file = riff_id ∧ take 4 (drop 8 file) = wave_id
  ∧ wav_chunks (S (length file)) (drop 12 file) 0 8000 false = Some r.
Proof.
  unfold load_wav_u8, f_read. cbv zeta. rewrite drop_0, Nat.add_0_l.
  fold riff_id wave_id.
  destruct (bytes_eqb (take 4 file) riff_id) eqn:Er; [| discriminate].
  apply bytes_eqb_eq in Er. rewrite Er. cbn [negb].
  change (length riff_id) with 4%nat.
  set (pos := (4 + length (take 4 (drop 4 file)))%nat).
  destruct (bytes_eqb (take 4 (drop pos file)) wave_id) eqn:Ew; [| discriminate].
  apply bytes_eqb_eq in Ew. cbn [negb].
  assert (Hpos : pos = 8%nat).
  { assert (Hw : length (take 4 (drop pos file)) = 4%nat) by (rewrite Ew; reflexivity).
    rewrite length_take, length_drop in Hw.
    subst pos. rewrite length_take, length_drop in *. lia. }
  rewrite Hpos in *. rewrite Ew. change (length wave_id) with 4%nat.
  intros H. rewrite wav_chunks_drop in H. auto.
Qed.

(** X26.  When [load_wav_u8] returns, the file starts with RIFF,
    carries WAVE at offset 8, holds a "fmt " chunk, complete as its
    length field says, that announces PCM, one channel, eight bits and
    the sample rate returned, and the samples returned are the bytes
    that follow the length field of a "data" chunk: all the length
    announces, or fewer when the file ends before. *)
Theorem load_wav_u8_sound (file data : list byte) (sr : Z) :
  load_wav_u8 file = Some (data, sr) →
  take 4 file = riff_id ∧ take 4 (drop 8 file) = wave_id
  ∧ (∃ pre flen fmt post,
       file = pre ++ fmt_id ++ flen ++ fmt ++ post
       ∧ unpack_le 4 flen = Some (Z.of_nat (length fmt))
       ∧ pcm_mono_8 fmt sr)
  ∧ (∃ pre dlen post clen,
       file = pre ++ data_id ++ dlen ++ data ++ post
       ∧ unpack_le 4 dlen = Some clen
       ∧ (Z.of_nat (length data) = clen
          ∨ (Z.of_nat (length data) < clen ∧ post = []))).
Proof.
  intros H. apply load_wav_u8_header in H. destruct H as (Hr & Hw & H).
  split; [exact Hr |]. split; [exact Hw |].
  apply wav_chunks_sound in H.
  destruct H as [(pre & dlen & post & cl & HX & Hd & Hlen) Hfmt].
  split.
  - destruct Hfmt as [[Hf _] | (pre2 & flen & fmt2 & post2 & HX2 & Hfl & Hp)];
      [discriminate |].
    exists (take 12 file ++ pre2), flen, fmt2, post2. split; [| split; assumption].
    rewrite <- (take_drop 12 file) at 1. rewrite HX2, <- !app_assoc. reflexivity.
  - exists (take 12 file ++ pre), dlen, post, cl. split; [| split; assumption].
    rewrite <- (take_drop 12 file) at 1. rewrite HX, <- !app_assoc. reflexivity.
Qed.

(** X26 on a 48-byte file with four samples. *)
Lemma load_wav_u8_sound_witness :
  load_wav_u8 tiny_wav = Some ([x80; x82; x7e; x80], 8000)
  ∧ take 4 tiny_wav = riff_id ∧ take 4 (drop 8 tiny_wav) = wave_id.
Proof.
  split; [reflexivity |].
  destruct (load_wav_u8_sound tiny_wav [x80; x82; x7e; x80] 8000 eq_refl)
    as (H1 & H2 & _).
  split; assumption.
Defined.

(** *** Files the loader accepts *)

Lemma wav_chunks_skip chunks : ∀ fuel Y sr ok,
  Forall other_chunk chunks →
  wav_chunks (length chunks + fuel) (concat (map chunk_bytes chunks) ++ Y) 0 sr ok
  = wav_chunks fuel Y 0 sr ok.
Proof.
  induction chunks as [| [[cid lenb] body] chunks IH]; intros fuel Y sr ok Hc;
    [reflexivity |].
  inversion Hc as [| ? ? (H4 & Hf & Hd & Hl) Hrest]; subst. cbn [fst snd] in *.
  cbn [map concat length Nat.add]. unfold chunk_bytes at 1. cbn [fst snd].
  rewrite <- !app_assoc.
  rewrite (wav_chunks_header _ cid lenb _ _ _ _ H4 Hl).
  rewrite (bytes_eqb_neq _ _ Hf), (bytes_eqb_neq _ _ Hd).
  rewrite Nat2Z.id, drop_app_length. apply IH. exact Hrest.
Qed.

Lemma slice_take_app i j fmt Y :
  slice i j (take (length fmt) (fmt ++ Y)) = slice i j fmt.
Proof. rewrite take_app_length. reflexivity. Qed.

Lemma wav_chunks_fmt fuel flen fmt Y sr0 ok0 rate :
  unpack_le 4 flen = Some (Z.of_nat (length fmt)) → pcm_mono_8 fmt rate →
  wav_chunks (S fuel) (fmt_id ++ flen ++ fmt ++ Y) 0 sr0 ok0
  = wav_chunks fuel Y 0 rate true.
Proof.
  intros Hl (H1 & H2 & H3 & H4).
  rewrite (wav_chunks_header _ fmt_id flen _ _ _ _ eq_refl Hl).
  rewrite bytes_eqb_refl. cbv zeta. rewrite Nat2Z.id, take_app_length.
  rewrite H1, H2, H3, H4. cbn [Z.eqb Pos.eqb negb orb].
  rewrite drop_app_length. reflexivity.
Qed.

Lemma wav_chunks_data fuel dlen data rest sr :
  unpack_le 4 dlen = Some (Z.of_nat (length data)) →
  wav_chunks (S fuel) (data_id ++ dlen ++ data ++ rest) 0 sr true
  = Some (data, sr).
Proof.
  intros Hl. rewrite (wav_chunks_header _ data_id dlen _ _ _ _ eq_refl Hl).
  change (bytes_eqb data_id fmt_id) with false. rewrite bytes_eqb_refl.
  cbn [negb]. rewrite Nat2Z.id, take_app_length. reflexivity.
Qed.

Lemma chunks_length chunks :
  Forall other_chunk chunks →
  (length chunks ≤ length (concat (map chunk_bytes chunks)))%nat.
Proof.
  induction 1 as [| [[cid lenb] body] chunks (H4 & _) _ IH]; cbn [map concat length];
    [lia |].
  unfold chunk_bytes at 1. cbn [fst snd] in *. rewrite !length_app, H4. lia.
Qed.

(** X27.  A RIFF/WAVE file whose "fmt " chunk announces PCM, one
    channel and eight bits, followed by a "data" chunk, is loaded: the
    result is the body of the data chunk and the rate of the format
    chunk, whatever other chunks stand before the format chunk or
    between the two, and whatever follows the data. *)
Theorem load_wav_u8_accepts
  (sz flen fmt dlen data rest : list byte)
  (before between : list (list byte * list byte * list byte)) (rate : Z) :
  length sz = 4%nat →
  Forall other_chunk before → Forall other_chunk between →
  unpack_le 4 flen = Some (Z.of_nat (length fmt)) → pcm_mono_8 fmt rate →
  unpack_le 4 dlen = Some (Z.of_nat (length data)) →
  load_wav_u8
    (riff_id ++ sz ++ wave_id
     ++ concat (map chunk_bytes before)
     ++ fmt_id ++ flen ++ fmt
     ++ concat (map chunk_bytes between)
     ++ data_id ++ dlen ++ data ++ rest)
  = Some (data, rate).
Proof.
  intros Hsz Hb1 Hb2 Hfl Hfmt Hdl.
  set (chunks := concat (map chunk_bytes before)
                 ++ fmt_id ++ flen ++ fmt
                 ++ concat (map chunk_bytes between)
                 ++ data_id ++ dlen ++ data ++ rest).
  set (file := riff_id ++ sz ++ wave_id ++ chunks).
  assert (E4 : drop 4 file = sz ++ wave_id ++ chunks) by reflexivity.
  assert (E8 : drop 8 file = wave_id ++ chunks).
  { change 8%nat with (4 + 4)%nat. rewrite <- drop_drop, E4.
    rewrite <- Hsz. apply drop_app_length. }
  assert (E12 : drop 12 file = chunks).
  { change 12%nat with (8 + 4)%nat. rewrite <- drop_drop, E8. reflexivity. }
  unfold load_wav_u8, f_read. cbv zeta. rewrite drop_0, Nat.add_0_l.
  change (take 4 file) with riff_id.
  change (bytes_eqb riff_id (list_byte_of_string "RIFF")) with true. cbn [negb].
  change (length riff_id) with 4%nat. rewrite E4.
  assert (Et : take 4 (sz ++ wave_id ++ chunks) = sz)
    by (rewrite <- Hsz; apply take_app_length).
  rewrite Et, Hsz. change (4 + 4)%nat with 8%nat. rewrite E8.
  change (take 4 (wave_id ++ chunks)) with wave_id.
  change (bytes_eqb wave_id (list_byte_of_string "WAVE")) with true. cbn [negb].
  change (8 + length wave_id)%nat with 12%nat.
  rewrite wav_chunks_drop, E12.
  apply (wav_chunks_more (length before + S (length between + 1))).
  - subst chunks. rewrite (wav_chunks_skip before) by exact Hb1.
    rewrite (wav_chunks_fmt _ flen fmt _ _ _ rate Hfl Hfmt).
    rewrite (wav_chunks_skip between) by exact Hb2.
    apply wav_chunks_data. exact Hdl.
  - pose proof (chunks_length before Hb1) as L1.
    pose proof (chunks_length between Hb2) as L2.
    subst file chunks. rewrite !length_app.
    change (length riff_id) with 4%nat. change (length wave_id) with 4%nat.
    change (length fmt_id) with 4%nat. change (length data_id) with 4%nat. lia.
Qed.

(** X27 with a LIST chunk before the format chunk and a pad byte after
    the data. *)
Lemma load_wav_u8_accepts_witness :
  load_wav_u8
    (riff_id ++ [x3c; x00; x00; x00] ++ wave_id
     ++ concat (map chunk_bytes
                  [(list_byte_of_string "LIST", [x02; x00; x00; x00], [x41; x42])])
     ++ fmt_id ++ [x10; x00; x00; x00]
     ++ [x01; x00; x01; x00; x40; x1f; x00; x00; x40; x1f; x00; x00;
         x01; x00; x08; x00]
     ++ concat (map chunk_bytes [])
     ++ data_id ++ [x04; x00; x00; x00] ++ [x80; x82; x7e; x80] ++ [x00])
  = Some ([x80; x82; x7e; x80], 8000).
Proof.
  apply (load_wav_u8_accepts [x3c; x00; x00; x00] [x10; x00; x00; x00]
           [x01; x00; x01; x00; x40; x1f; x00; x00; x40; x1f; x00; x00;
            x01; x00; x08; x00]
           [x04; x00; x00; x00] [x80; x82; x7e; x80] [x00]
           [(list_byte_of_string "LIST", [x02; x00; x00; x00], [x41; x42])] []
           8000).
  - reflexivity.
  - constructor; [| constructor]. unfold other_chunk. cbn [fst snd].
    split; [reflexivity |]. split; [discriminate |]. split; [discriminate | reflexivity].
  - constructor.
  - reflexivity.
  - repeat split.
  - reflexivity.
Defined.
